(** * deps: a type-indexed dependency registry (ClickerMonkey/deps, deps.go)

    A shallow embedding of [deps.go]: scopes with their provider and
    instance maps, the resolution chain [Scope.Get] / [GetScoped], the
    hydrator, the invoker and the two teardown loops, followed by the
    properties of the specification that concern them.

    Conventions of the embedding.
    - A [*Scope] is a handle [Scope] carrying the fields that the
      operations below only read ([parent], [providers], [Dynamic]) and
      an identity [sid]; the one field they write, [instances], lives in
      the [Store] under that identity.
    - The memory that pointers refer to is the [heap] of the [Store].
    - User callbacks ([Create], [AfterPointerUse], [Free], the dynamic
      provider, [ProvideDynamic], the invoked function) are arbitrary
      total transformers of the [Store].
    - Each call the engine makes to a callback is recorded in [calls], a
      ghost log that no callback can touch.
    - A run-time panic of the Go code is the outcome [Crash]. *)

From stdpp Require Import gmap strings list fin_maps.

Set Default Proof Using "Type".
Set Warnings "-register-all".

(** ** Types and values as reflection sees them *)

(** [reflect.Type], compared by identity.  [Named id] is any type that
    is not a pointer type (the identity of its descriptor); [PointerTo t]
    is [*t].  A defined type whose underlying type is a pointer is not
    represented. *)
Inductive rtype : Type :=
  | Named (id : positive)
  | PointerTo (elem : rtype).

#[global] Instance rtype_eq_dec : EqDecision rtype.
Proof. solve_decision. Defined.

Fixpoint rtype_depth (t : rtype) : nat :=
  match t with
  | Named _ => O
  | PointerTo e => S (rtype_depth e)
  end.

Fixpoint rtype_base (t : rtype) : positive :=
  match t with
  | Named id => id
  | PointerTo e => rtype_base e
  end.

Fixpoint rtype_wrap (n : nat) (id : positive) : rtype :=
  match n with
  | O => Named id
  | S k => PointerTo (rtype_wrap k id)
  end.

#[global] Instance rtype_countable : Countable rtype.
Proof.
  apply (inj_countable' (λ t, (rtype_depth t, rtype_base t))
                        (λ p, rtype_wrap p.1 p.2)).
  intros t. simpl. induction t as [id|e IH]; simpl; [reflexivity | by rewrite IH].
Defined.

(** Addresses of heap cells. *)
Definition addr := positive.

(** A pointer [*T] whose element type is known from the context:
    [None] is the nil pointer. *)
Definition ptr := option addr.

(** The payload of the kinds that the hydrator never looks into. *)
Inductive Atom : Type :=
  | ABool (b : bool)
  | AInt (z : Z)
  | AString (s : string).

(** The kinds [hydrateValue] tests for nil without traversing them,
    [reflect.Pointer] apart. *)
Inductive NilableKind : Type := KChan | KFunc | KInterface.

(** How a struct field is declared: with an exported name, with an
    unexported name, or embedded with an unexported type name. *)
Inductive FieldKind : Type :=
  | Exported
  | Unexported
  | EmbeddedUnexported.

(** A Go value together with its static type.
    - [VBasic]: bool, the numeric kinds, string;
    - [VPointer elem target]: a value of type [*elem];
    - [VNilable]: a channel, function or interface value, opaque but for
      being nil or not;
    - [VSlice]: [None] is the nil slice;
    - [VStruct]: each field with the way it is declared;
    - [VMap t zero entries]: [zero] is the zero value of the element
      type of the map type [t], which is what
      [reflect.New(value.Type()).Elem()] holds for an entry [value];
      [entries] are listed in the order [MapKeys] returns the keys. *)
Inductive Value : Type :=
  | VBasic (t : rtype) (a : Atom)
  | VPointer (elem : rtype) (target : ptr)
  | VNilable (k : NilableKind) (t : rtype) (isNil : bool)
  | VSlice (t : rtype) (elems : option (list Value))
  | VArray (t : rtype) (elems : list Value)
  | VStruct (t : rtype) (fields : list (FieldKind * Value))
  | VMap (t : rtype) (zero : Value) (entries : list (Value * Value)).

(** The read-only bits of the flag of a [reflect.Value]: neither;
    [flagEmbedRO] alone, on a value obtained as an embedded unexported
    field; [flagStickyRO], with or without [flagEmbedRO], on a value
    obtained through an unexported field that is not embedded. *)
Inductive Access : Type :=
  | ReadWrite
  | EmbedRO
  | StickyRO.

(** [flag&flagRO != 0]: what makes [CanSet] false on an addressable
    value and makes [SetMapIndex] panic. *)
Definition readOnly (ro : Access) : bool :=
  match ro with
  | ReadWrite => false
  | _ => true
  end.

(** The bits of [v.Field(i)]: [flagStickyRO] is inherited,
    [flagEmbedRO] is cleared, and an unexported field sets
    [flagEmbedRO] when it is embedded and [flagStickyRO] otherwise. *)
Definition fieldAccess (ro : Access) (kind : FieldKind) : Access :=
  match ro, kind with
  | StickyRO, _ => StickyRO
  | _, Exported => ReadWrite
  | _, Unexported => StickyRO
  | _, EmbeddedUnexported => EmbedRO
  end.

(** The bits of [v.Index(i)]: [flag.ro()], which turns either bit into
    [flagStickyRO]. *)
Definition indexAccess (ro : Access) : Access :=
  match ro with
  | ReadWrite => ReadWrite
  | _ => StickyRO
  end.

(** [reflect.Value.Type] *)
Definition typeOf (v : Value) : rtype :=
  match v with
  | VBasic t _ => t
  | VPointer elem _ => PointerTo elem
  | VNilable _ t _ => t
  | VSlice t _ => t
  | VArray t _ => t
  | VStruct t _ => t
  | VMap t _ _ => t
  end.

(** [reflect.Kind], with the kinds the source never tells apart merged
    into [Basic]. *)
Inductive Kind : Type :=
  | Invalid | Basic | Array | Chan | Func | Interface | Map | Pointer
  | Slice | Struct.

#[global] Instance Kind_eq_dec : EqDecision Kind.
Proof. solve_decision. Defined.

(** [reflect.Value.Kind] *)
Definition kindOf (v : Value) : Kind :=
  match v with
  | VBasic _ _ => Basic
  | VPointer _ _ => Pointer
  | VNilable KChan _ _ => Chan
  | VNilable KFunc _ _ => Func
  | VNilable KInterface _ _ => Interface
  | VSlice _ _ => Slice
  | VArray _ _ => Array
  | VStruct _ _ => Struct
  | VMap _ _ _ => Map
  end.

(** ** Errors *)

(** The package's sentinel errors, the errors user callbacks return, and
    [multiError]. *)
Inductive error : Type :=
  | ErrMissingCreate
  | ErrNoProvider
  | ErrNotPointer
  | ErrNotFunc
  | ErrInvalidValue
  | UserError (msg : string)
  | multiError (errors : list error).

(** [err == ErrNoProvider] on a possibly nil error. *)
Definition isNoProvider (err : option error) : bool :=
  match err with
  | Some ErrNoProvider => true
  | _ => false
  end.

Fixpoint join (sep : string) (l : list string) : string :=
  match l with
  | [] => EmptyString
  | [x] => x
  | x :: rest => String.app x (String.app sep (join sep rest))
  end.

(** [Error()]: the sentinel messages, and [multiError.Error]. *)
Fixpoint Error (e : error) : string :=
  match e with
  | ErrMissingCreate => "provider missing create function"
  | ErrNoProvider => "no provider exists for the given type"
  | ErrNotPointer => "only pointers can be set on a scope"
  | ErrNotFunc => "only funcs can be invoked"
  | ErrInvalidValue => "invalid argument for invoke"
  | UserError msg => msg
  | multiError [e0] => Error e0
  | multiError errors =>
      String.app "multiple errors: " (join ", " (map Error errors))
  end.

(** ** The store *)

(** What the engine and user code share: every scope's [instances] map,
    keyed by the scope's identity, and the heap.  [instances[k]] always
    holds a [*k] (every writer of the map stores one), so the map is
    kept as pointers.  A Go pointer that is not nil always has a
    target, of the pointer's element type; following a pointer whose
    address is not in [heap] is modelled as a panic and arises in no
    state that a Go program reaches. *)
Record Store : Type := mkStore {
  instances : gmap positive (gmap rtype ptr);
  heap : gmap addr Value
}.

(** [scope.instances] *)
Definition inst (st : Store) (s : positive) : gmap rtype ptr :=
  default ∅ (instances st !! s).

(** [scope.instances[key] = p] *)
Definition setInstance (s : positive) (key : rtype) (p : ptr) (st : Store) : Store :=
  {| instances := <[s := <[key := p]> (inst st s)]> (instances st);
     heap := heap st |}.

(** [delete(scope.instances, key)] *)
Definition deleteInstance (s : positive) (key : rtype) (st : Store) : Store :=
  {| instances := <[s := delete key (inst st s)]> (instances st);
     heap := heap st |}.

(** A fresh cell holding [v] (what [reflect.New] and [&val] allocate). *)
Definition alloc (v : Value) (st : Store) : addr * Store :=
  let a := fresh (dom (heap st)) in
  (a, {| instances := instances st; heap := <[a := v]> (heap st) |}).

(** ** Providers and scopes *)

Inductive Lifetime : Type :=
  | LifetimeForever
  | LifetimeScope
  | LifetimeOnce.

#[global] Instance Lifetime_eq_dec : EqDecision Lifetime.
Proof. solve_decision. Defined.

(** [Provider[V]]; a callback gets the identity of the scope it is
    called with. [None] is a nil function. *)
Record Provider : Type := mkProvider {
  Lifetime_ : Lifetime;
  Create : option (positive → Store → (ptr * option error) * Store);
  AfterPointerUse : option (positive → ptr → Store → option error * Store);
  Free : option (positive → ptr → Store → option error * Store)
}.

(** [providerLink[V]] *)
Record link : Type := mkLink {
  provider : Provider;
  key : rtype
}.

(** [DynamicProvider]: [None] for a nil [any]. *)
Definition DynamicProvider : Type :=
  rtype → positive → Store → (option Value * option error) * Store.

(** [Scope], without its [instances]. *)
Inductive Scope : Type := mkScope {
  sid : positive;
  Dynamic : option DynamicProvider;
  parent : option Scope;
  providers : gmap rtype link
}.

(** [new(parent)] for a scope whose identity is [id]. *)
Definition new (id : positive) (par : option Scope) : Scope :=
  {| sid := id; Dynamic := None; parent := par; providers := ∅ |}.

(** [Scope.Parent] *)
Definition Parent (scope : Scope) : option Scope := parent scope.

(** [Scope.Spawn], for a child whose identity is [id]. *)
Definition Spawn (id : positive) (scope : Scope) : Scope := new id (Some scope).

(** [ProvideScoped] *)
Definition ProvideScoped (scoped : Scope) (k : rtype) (p : Provider) : Scope :=
  {| sid := sid scoped; Dynamic := Dynamic scoped; parent := parent scoped;
     providers := <[k := {| provider := p; key := k |}]> (providers scoped) |}.

(** [link.lifetime] *)
Definition lifetime (l : link) : Lifetime := Lifetime_ (provider l).

(** ** The engine state and its outcomes *)

(** A call of the engine into user code. *)
Inductive Event : Type :=
  | EvCreate (s : positive) (k : rtype)
  | EvAfterPointerUse (s : positive) (k : rtype) (value : ptr)
  | EvFree (s : positive) (k : rtype) (value : ptr)
  | EvProvideDynamic (s : positive) (k : rtype) (receiver : addr)
  | EvDynamic (s : positive) (k : rtype)
  | EvCall (args : list Value).

(** The state the engine runs in: the store, and the log of the calls
    made so far. *)
Record World : Type := mkWorld {
  store : Store;
  calls : list Event
}.

(** The outcome of a Go function: it returns, or it panics. *)
Inductive res (A : Type) : Type :=
  | Done (a : A)
  | Crash.
Arguments Done {A} a.
Arguments Crash {A}.

(** An engine function: the state in, the outcome and the state out. *)
Definition M (A : Type) : Type := World → res A * World.

Definition ret {A} (a : A) : M A := λ w, (Done a, w).

Definition bind {A B} (m : M A) (k : A → M B) : M B :=
  λ w, match m w with
       | (Done a, w1) => k a w1
       | (Crash, w1) => (Crash, w1)
       end.

Definition panic {A} : M A := λ w, (Crash, w).

#[global] Instance M_ret : MRet M := @ret.
#[global] Instance M_bind : MBind M := λ A B k m, bind m k.

(** Run a user callback on the store and log the call. *)
Definition call {A} (ev : Event) (cb : Store → A * Store) : M A :=
  λ w, let '(a, st) := cb (store w) in
       (Done a, {| store := st; calls := calls w ++ [ev] |}).

(** Run an engine update of the store. *)
Definition update (f : Store → Store) : M unit :=
  λ w, (Done tt, {| store := f (store w); calls := calls w |}).

(** ** What the engine needs from the Go run time *)

(** The parts of [reflect] and of the program's type declarations that
    the engine consults, and the order of a [range] over a map.
    - [zeroValue t]: the zero value of [t] ([reflect.New(t).Elem()]);
    - [provideDynamic t]: the [ProvideDynamic] method of [*t] when [*t]
      implements [Dynamic], applied to the scope and to the receiver;
    - [implements t i]: the type [t] implements the interface type [i];
    - [rangeOrder m]: the order in which a [range] produces the keys of
      [m], which Go leaves unspecified: any enumeration of the keys. *)
Record Runtime : Type := mkRuntime {
  zeroValue : rtype → Value;
  provideDynamic : rtype → option (positive → addr → Store → option error * Store);
  implements : rtype → rtype → bool;
  rangeOrder : gmap rtype ptr → list rtype;
  rangeOrder_perm : ∀ m, rangeOrder m ≡ₚ (map_to_list m).*1
}.

Section Engine.

Context (rt : Runtime).

(** [TypeOf[Dynamic]] plays no part of its own: [provideDynamic] answers
    [ptr.Implements(dynamicType)]. *)

(** [GetDynamic]: a pointer to a fresh zero value of the type under the
    pointers of [typ], if that pointer type implements [Dynamic]. *)
Definition GetDynamic (typ : rtype) : M (option (rtype * addr)) := λ w,
  let typ := Named (rtype_base typ) in
  match provideDynamic rt typ with
  | None => (Done None, w)
  | Some _ =>
      let '(a, st) := alloc (zeroValue rt typ) (store w) in
      (Done (Some (typ, a)), {| store := st; calls := calls w |})
  end.

(** [dynamic.ProvideDynamic(scope)] *)
Definition ProvideDynamic (dynamic : rtype * addr) (scope : positive) : M (option error) :=
  match provideDynamic rt dynamic.1 with
  | Some method =>
      call (EvProvideDynamic scope dynamic.1 dynamic.2) (method scope dynamic.2)
  | None => panic
  end.

(** [SetScoped] *)
Definition SetScoped (scope : Scope) (V : rtype) (value : ptr) : M unit :=
  let key := V in
  update (setInstance (sid scope) key value).

(** [link.get] *)
Definition link_get (l : link) (scope : Scope) : M (option Value * option error) := λ w,
  match inst (store w) (sid scope) !! key l with
  | Some value => (Done (Some (VPointer (key l) value), None), w)
  | None =>
      match Create (provider l) with
      | None => (Done (None, Some ErrMissingCreate), w)
      | Some create =>
          ('(created, err) ← call (EvCreate (sid scope) (key l)) (create (sid scope));
           match err with
           | Some e => ret (Some (VPointer (key l) created), Some e)
           | None =>
               _ ← update (setInstance (sid scope) (key l) created);
               ret (Some (VPointer (key l) created), None)
           end) w
      end
  end.

(** [link.afterPointerUse]; the type assertion on a missing entry
    panics. *)
Definition link_afterPointerUse (l : link) (scope : Scope) : M (option error) := λ w,
  match AfterPointerUse (provider l) with
  | Some after =>
      match inst (store w) (sid scope) !! key l with
      | Some value =>
          call (EvAfterPointerUse (sid scope) (key l) value) (after (sid scope) value) w
      | None => (Crash, w)
      end
  | None => (Done None, w)
  end.

(** [link.free] *)
Definition link_free (l : link) (scope : Scope) : M (option error) := λ w,
  (err ← (match Free (provider l) with
              | Some free =>
                  λ w, match inst (store w) (sid scope) !! key l with
                       | Some value =>
                           call (EvFree (sid scope) (key l) value) (free (sid scope) value) w
                       | None => (Crash, w)
                       end
              | None => ret None
              end);
   _ ← update (deleteInstance (sid scope) (key l));
   ret err) w.

(** [Scope.getLink] *)
Fixpoint getLink (scope : Scope) (key : rtype) : option link :=
  match providers scope !! key with
  | Some l => Some l
  | None =>
      match parent scope with
      | Some p => getLink p key
      | None => None
      end
  end.

(** The tail of [Scope.Get] (lines 300-317): the type's own
    [ProvideDynamic], then the scope's [Dynamic] callback. *)
Definition Get_dynamic (scope : Scope) (key : rtype) : M (option Value * option error) :=
  dynamic ← GetDynamic key;
  match dynamic with
  | Some d =>
      err ← ProvideDynamic d (sid scope);
      match err with
      | Some e => ret (None, Some e)
      | None => ret (Some (VPointer d.1 (Some d.2)), None)
      end
  | None =>
      match Dynamic scope with
      | Some dynamicProvider =>
          '(dyn, err) ← call (EvDynamic (sid scope) key) (dynamicProvider key (sid scope));
          match err with
          | Some e => ret (None, Some e)
          | None =>
              match dyn with
              | Some v => ret (Some v, None)
              | None => ret (None, Some ErrNoProvider)
              end
          end
      | None => ret (None, Some ErrNoProvider)
      end
  end.

(** [Scope.Get].  [rest] is the code after the [deepLink] test (lines
    292-319), reached when that test fails. *)
Fixpoint Get (scope : Scope) (key : rtype) (w : World) {struct scope}
    : res (option Value * option error) * World :=
  match inst (store w) (sid scope) !! key with
  | Some instance => (Done (Some (VPointer key instance), None), w)
  | None =>
      let rest :=
        match providers scope !! key with
        | Some l => link_get l scope w
        | None =>
            match parent scope with
            | Some p =>
                match Get p key w with
                | (Done (par, err), w1) =>
                    if isNoProvider err then Get_dynamic scope key w1
                    else (Done (par, err), w1)
                | (Crash, w1) => (Crash, w1)
                end
            | None => Get_dynamic scope key w
            end
        end in
      let deepLink := getLink scope key in
      match deepLink with
      | Some deep =>
          if decide (lifetime deep = LifetimeScope) then link_get deep scope w
          else rest
      | None => rest
      end
  end.

(** The two type assertions of [GetScoped] on [dyn], to [*V] and then to
    [V], with [&val] for the second: [None] when neither holds. *)
Definition asPointerTo (V : rtype) (dyn : option Value) : M (option ptr) :=
  match dyn with
  | None => ret None
  | Some v =>
      match v with
      | VPointer elem val =>
          if decide (elem = V) then ret (Some val)
          else if decide (PointerTo elem = V) then
            λ w, let '(a, st) := alloc v (store w) in
                 (Done (Some (Some a)), {| store := st; calls := calls w |})
          else if implements rt (PointerTo elem) V then
            λ w, let '(a, st) := alloc (VNilable KInterface V false) (store w) in
                 (Done (Some (Some a)), {| store := st; calls := calls w |})
          else ret None
      | _ =>
          if decide (typeOf v = V) then
            λ w, let '(a, st) := alloc v (store w) in
                 (Done (Some (Some a)), {| store := st; calls := calls w |})
          else if implements rt (typeOf v) V then
            λ w, let '(a, st) := alloc (VNilable KInterface V false) (store w) in
                 (Done (Some (Some a)), {| store := st; calls := calls w |})
          else ret None
      end
  end.

(** The end of [GetScoped] (lines 105-117): the scope's [Dynamic]
    callback. *)
Definition GetScoped_callback (V : rtype) (scope : Scope) : M (ptr * option error) :=
  let key := V in
  match Dynamic scope with
  | Some dynamicProvider =>
      '(dyn, err) ← call (EvDynamic (sid scope) key) (dynamicProvider key (sid scope));
      match err with
      | Some e => ret (None, Some e)
      | None =>
          val ← asPointerTo V dyn;
          match val with
          | Some p => ret (p, None)
          | None => ret (None, Some ErrNoProvider)
          end
      end
  | None => ret (None, Some ErrNoProvider)
  end.

(** The tail of [GetScoped] (lines 91-117). *)
Definition GetScoped_dynamic (V : rtype) (scope : Scope) : M (ptr * option error) :=
  let key := V in
  dynamic ← GetDynamic key;
  match dynamic with
  | Some d =>
      err ← ProvideDynamic d (sid scope);
      match err with
      | Some e => ret (None, Some e)
      | None =>
          val ← asPointerTo V (Some (VPointer d.1 (Some d.2)));
          match val with
          | Some p => ret (p, None)
          | None => GetScoped_callback V scope
          end
      end
  | None => GetScoped_callback V scope
  end.

(** [GetScoped[V]]; calling the nil [Create] of a provider panics. *)
Fixpoint GetScoped (V : rtype) (scope : Scope) (w : World) {struct scope}
    : res (ptr * option error) * World :=
  let key := V in
  match inst (store w) (sid scope) !! key with
  | Some instance => (Done (instance, None), w)
  | None =>
      match providers scope !! key with
      | None =>
          match parent scope with
          | Some p =>
              match GetScoped V p w with
              | (Done (par, err), w1) =>
                  if isNoProvider err then GetScoped_dynamic V scope w1
                  else (Done (par, err), w1)
              | (Crash, w1) => (Crash, w1)
              end
          | None => GetScoped_dynamic V scope w
          end
      | Some l =>
          match Create (provider l) with
          | None => (Crash, w)
          | Some create =>
              ('(instance, err) ← call (EvCreate (sid scope) key) (create (sid scope));
               match err with
               | Some e => ret (None, Some e)
               | None =>
                   _ ← update (setInstance (sid scope) key instance);
                   ret (instance, None)
               end) w
          end
      end
  end.

(** [Scope.Set]; [reflect.TypeOf(nil).Kind()] panics. *)
Definition Scope_Set (scope : Scope) (value : option Value) : M (option error) :=
  match value with
  | None => panic
  | Some (VPointer elem p) =>
      _ ← update (setInstance (sid scope) elem p);
      ret None
  | Some v =>
      let key := typeOf v in
      λ w, let '(a, st) := alloc v (store w) in
           (Done None,
            {| store := setInstance (sid scope) key (Some a) st; calls := calls w |})
  end.

(** The body of the loop of [Scope.FreeOnce] over the keys a [range]
    produces.  An entry removed before the loop reaches it is not
    produced; one added during the loop is taken not to be. *)
Fixpoint FreeOnce_range (scope : Scope) (keys : list rtype) (multi : list error)
    : M (list error) :=
  match keys with
  | [] => ret multi
  | key :: rest => λ w,
      match inst (store w) (sid scope) !! key with
      | None => FreeOnce_range scope rest multi w
      | Some _ =>
          match getLink scope key with
          | Some l =>
              if decide (lifetime l = LifetimeOnce) then
                (err ← link_free l scope;
                 FreeOnce_range scope rest
                   (match err with Some e => multi ++ [e] | None => multi end)) w
              else FreeOnce_range scope rest multi w
          | None =>
              (_ ← update (deleteInstance (sid scope) key);
               FreeOnce_range scope rest multi) w
          end
      end
  end.

(** [Scope.FreeOnce] *)
Definition FreeOnce (scope : Scope) : M (option error) := λ w,
  (multi ← FreeOnce_range scope (rangeOrder rt (inst (store w) (sid scope))) [];
   match multi with
   | [] => ret None
   | _ => ret (Some (multiError multi))
   end) w.

(** The body of the loop of [Scope.Free], as for [FreeOnce_range]. *)
Fixpoint Free_range (scope : Scope) (keys : list rtype) (multi : list error)
    : M (list error) :=
  match keys with
  | [] => ret multi
  | key :: rest => λ w,
      match inst (store w) (sid scope) !! key with
      | None => Free_range scope rest multi w
      | Some _ =>
          match getLink scope key with
          | Some l =>
              (err ← link_free l scope;
               Free_range scope rest
                 (match err with Some e => multi ++ [e] | None => multi end)) w
          | None =>
              (_ ← update (deleteInstance (sid scope) key);
               Free_range scope rest multi) w
          end
      end
  end.

(** [Scope.Free] *)
Definition Scope_Free (scope : Scope) : M (option error) := λ w,
  (multi ← Free_range scope (rangeOrder rt (inst (store w) (sid scope))) [];
   match multi with
   | [] => ret None
   | _ => ret (Some (multiError multi))
   end) w.

(** A loop over sub-slots that stops at the first error, leaving the
    slots after it as they were. *)
Definition forEach {A} (f : A → M (A * option error))
    : list A → M (list A * option error) :=
  fix loop (items : list A) : M (list A * option error) :=
    match items with
    | [] => ret ([], None)
    | item :: rest =>
        '(item', err) ← f item;
        match err with
        | Some e => ret (item' :: rest, Some e)
        | None =>
            '(rest', err') ← loop rest;
            ret (item' :: rest', err')
        end
    end.

(** What [Value.Set] stores in a slot of type [t] when given [x]; it
    panics ([None]) when [x] is not assignable to [t]. *)
Definition assignTo (x : Value) (t : rtype) : option Value :=
  if decide (typeOf x = t) then Some x
  else if implements rt (typeOf x) t then Some (VNilable KInterface t false)
  else None.

(** [ptr.Elem().Set(reflect.ValueOf(val).Elem())]: [Elem] panics on a
    value that is not a pointer, and [Set] on the zero [reflect.Value]
    that [Elem] gives for a nil pointer. *)
Definition setFrom (val : option Value) (t : rtype) : M Value := λ w,
  match val with
  | Some (VPointer _ (Some a)) =>
      match heap (store w) !! a with
      | Some x =>
          match assignTo x t with
          | Some x' => (Done x', w)
          | None => (Crash, w)
          end
      | None => (Crash, w)
      end
  | _ => (Crash, w)
  end.

(** [Scope.hydrateValue] on the slot [ptr] points to, whose content is
    [inner]; the result is the content afterwards.  [ro] holds the
    read-only bits of [ptr], which [Addr] and [Elem] keep: [CanSet] is
    false on the slot when one is set, [Field] and [Index] pass them on
    as [reflect] does, and the fresh value of a map entry has none.
    Every sub-slot met is addressable, so the two [CanAddr] tests
    always pass. *)
Fixpoint hydrateValue (scope : Scope) (ro : Access) (inner : Value) {struct inner}
    : M (Value * option error) :=
  let key := typeOf inner in
  '(val, err) ← Get scope key;
  if negb (isNoProvider err) then
    match err with
    | None =>
        if negb (readOnly ro) then
          x ← setFrom val key;
          ret (x, None)
        else ret (inner, None)
    | Some e => ret (inner, Some e)
    end
  else
    match inner with
    | VBasic _ _ => ret (inner, None)
    | VPointer _ _ => ret (inner, None)
    | VNilable _ _ _ => ret (inner, None)
    | VSlice t None => ret (inner, None)
    | VSlice t (Some elems) =>
        '(elems', err) ← forEach (hydrateValue scope (indexAccess ro)) elems;
        ret (VSlice t (Some elems'), err)
    | VArray t elems =>
        '(elems', err) ← forEach (hydrateValue scope (indexAccess ro)) elems;
        ret (VArray t elems', err)
    | VStruct t fields =>
        '(fields', err) ←
          forEach (λ field : FieldKind * Value,
                     '(v, err) ← hydrateValue scope (fieldAccess ro field.1) field.2;
                     ret ((field.1, v), err)) fields;
        ret (VStruct t fields', err)
    | VMap t zero entries =>
        '(entries', err) ←
          forEach (λ entry : Value * Value,
                     '(newValue, err) ← hydrateValue scope ReadWrite zero;
                     match err with
                     | Some e => ret (entry, Some e)
                     | None =>
                         if readOnly ro then panic
                         else ret ((entry.1, newValue), None)
                     end) entries;
        ret (VMap t zero entries', err)
    end.

(** [Scope.Hydrate]: the pointed-to cell is read, hydrated and written
    back.  On a nil pointer only the resolution of the element type
    runs. *)
Definition Hydrate (scope : Scope) (value : option Value) : M (option error) :=
  match value with
  | Some (VPointer elem (Some a)) => λ w,
      match heap (store w) !! a with
      | Some inner =>
          ('(inner', err) ← hydrateValue scope ReadWrite inner;
           _ ← update (λ st, {| instances := instances st;
                                heap := <[a := inner']> (heap st) |});
           ret err) w
      | None => (Crash, w)
      end
  | Some (VPointer elem None) =>
      '(val, err) ← Get scope elem;
      if negb (isNoProvider err) then ret err else ret None
  | _ => ret (Some ErrNotPointer)
  end.

(** [Scope.hydrateType]; the first component is [None] for the zero
    [reflect.Value]. *)
Definition hydrateType (scope : Scope) (key : rtype) : M (option Value * option error) :=
  let fresh : M (option Value * option error) :=
    '(val, err) ← hydrateValue scope ReadWrite (zeroValue rt key);
    ret (Some val, err) in
  match key with
  | PointerTo elem =>
      '(val, err) ← Get scope elem;
      if negb (isNoProvider err) then ret (val, err) else fresh
  | Named _ => fresh
  end.

(** What [Invoke] is given: the nil interface, a value that is not a
    function, or a function with its parameter types and its body. *)
Inductive Callable : Type :=
  | NilCallable
  | NotCallable (v : Value)
  | Func_ (ins : list rtype) (body : list Value → Store → list Value * Store).

Definition Result : Type := list Value.

(** The first loop of [Scope.Invoke] (lines 470-479). *)
Fixpoint Invoke_args (scope : Scope) (ins : list rtype)
    : M (list Value * option error) :=
  match ins with
  | [] => ret ([], None)
  | t :: rest =>
      '(argValue, err) ← hydrateType scope t;
      match err with
      | Some e => ret ([], Some e)
      | None =>
          match argValue with
          | None => ret ([], Some ErrInvalidValue)
          | Some v =>
              '(args, err') ← Invoke_args scope rest;
              ret (v :: args, err')
          end
      end
  end.

(** [fnValue.Call(args)], which panics on an argument that is not
    assignable to its parameter. *)
Definition Call (ins : list rtype) (body : list Value → Store → list Value * Store)
    (args : list Value) : M (list Value) :=
  if forallb (λ p : Value * rtype, bool_decide (is_Some (assignTo p.1 p.2))) (zip args ins)
  then call (EvCall args) (body args)
  else panic.

(** The second loop of [Scope.Invoke] (lines 483-495). *)
Fixpoint Invoke_after (scope : Scope) (args : list Value) : M (option error) :=
  match args with
  | [] => ret None
  | argValue :: rest =>
      match argValue with
      | VPointer key _ =>
          match providers scope !! key with
          | Some l =>
              err ← link_afterPointerUse l scope;
              match err with
              | Some e => ret (Some e)
              | None => Invoke_after scope rest
              end
          | None => Invoke_after scope rest
          end
      | _ => Invoke_after scope rest
      end
  end.

(** [Scope.Invoke] *)
Definition Invoke (scope : Scope) (fn : Callable) : M (option Result * option error) :=
  match fn with
  | NilCallable => panic
  | NotCallable _ => ret (None, Some ErrNotFunc)
  | Func_ ins body =>
      '(args, err) ← Invoke_args scope ins;
      match err with
      | Some e => ret (None, Some e)
      | None =>
          resultsReflect ← Call ins body args;
          err ← Invoke_after scope args;
          match err with
          | Some e => ret (None, Some e)
          | None =>
              _ ← FreeOnce scope;
              ret (Some resultsReflect, None)
          end
      end
  end.

End Engine.

(** ** Predicates on scopes and callbacks used by the statements *)

(** Every link is registered under its own key, on the scope and on its
    ancestors: what [ProvideScoped] establishes. *)
Fixpoint keyed (scope : Scope) : Prop :=
  (∀ k l, providers scope !! k = Some l → key l = k) ∧
  match parent scope with
  | Some p => keyed p
  | None => True
  end.

(** No scope from [scope] up to the root caches an instance for [k]. *)
Fixpoint uncached (scope : Scope) (k : rtype) (st : Store) : Prop :=
  inst st (sid scope) !! k = None ∧
  match parent scope with
  | Some p => uncached p k st
  | None => True
  end.

(** A callback that leaves the instance map of scope [x] as it found
    it. *)
Definition leavesScope {A} (x : positive) (cb : Store → A * Store) : Prop :=
  ∀ st, inst (cb st).2 x = inst st x.


(** The [Free] callbacks of the links [scope] can reach leave the
    instance map of [scope] alone. *)
Definition freeLeavesScope (scope : Scope) : Prop :=
  ∀ k l free value,
    getLink scope k = Some l → Free (provider l) = Some free →
    leavesScope (sid scope) (free (sid scope) value).

(** A property of the store that the teardown of [scope] keeps once
    it holds: the removal of an entry of the scope keeps it, and so
    does every [Free] callback that the scope can reach. *)
Definition teardownKeeps (scope : Scope) (P : Store → Prop) : Prop :=
  (∀ k st, P st → P (deleteInstance (sid scope) k st)) ∧
  (∀ k l free value st,
     getLink scope k = Some l → Free (provider l) = Some free →
     P st → P (free (sid scope) value st).2).

(** [e] is an error that a [Free] callback which [scope] can reach
    returns, on some instance and in some state. *)
Definition freeError (scope : Scope) (e : error) : Prop :=
  ∃ k l free value st,
    getLink scope k = Some l ∧ Free (provider l) = Some free ∧
    (free (sid scope) value st).1 = Some e.



(** The calls of [Free] for the key [k] on scope [s]. *)
Definition isFreeOf (s : positive) (k : rtype) (ev : Event) : bool :=
  match ev with
  | EvFree s' k' _ => bool_decide (s' = s ∧ k' = k)
  | _ => false
  end.

(** The calls of [Create] for the key [k] on scope [s]. *)
Definition isCreateOf (s : positive) (k : rtype) (ev : Event) : bool :=
  match ev with
  | EvCreate s' k' => bool_decide (s' = s ∧ k' = k)
  | _ => false
  end.


(** ** Notions used by the statements on teardown, hydration and [Once] *)


(** The call that freeing the entry [value] of key [k] makes. *)
Definition freeCall (scope : Scope) (k : rtype) (l : link) (value : ptr) : list Event :=
  match Free (provider l) with
  | Some _ => [EvFree (sid scope) k value]
  | None => []
  end.

(** The entries [FreeOnce] removes when it reaches them: those of a
    [Once]-lifetime link and those without a link. *)
Definition freedOnce (scope : Scope) (k : rtype) : bool :=
  match getLink scope k with
  | Some l => bool_decide (lifetime l = LifetimeOnce)
  | None => true
  end.

(** The call [FreeOnce] makes for the entry of [k]. *)
Definition freeOnceCall (scope : Scope) (k : rtype) (entry : option ptr) : list Event :=
  match entry, getLink scope k with
  | Some value, Some l =>
      if decide (lifetime l = LifetimeOnce) then freeCall scope k l value else []
  | _, _ => []
  end.

(** The call [Free] makes for the entry of [k]. *)
Definition freeAllCall (scope : Scope) (k : rtype) (entry : option ptr) : list Event :=
  match entry, getLink scope k with
  | Some value, Some l => freeCall scope k l value
  | _, _ => []
  end.

(** A struct field of [hydrateValue]'s loop (lines 418-425). *)
Definition hydrateField (rt : Runtime) (scope : Scope) (ro : Access)
    (field : FieldKind * Value) : M ((FieldKind * Value) * option error) :=
  '(v, err) ← hydrateValue rt scope (fieldAccess ro field.1) field.2;
  ret ((field.1, v), err).

(** A map entry of [hydrateValue]'s loop (lines 429-437). *)
Definition hydrateEntry (rt : Runtime) (scope : Scope) (ro : Access) (zero : Value)
    (entry : Value * Value) : M ((Value * Value) * option error) :=
  '(newValue, err) ← hydrateValue rt scope ReadWrite zero;
  match err with
  | Some e => ret (entry, Some e)
  | None => if readOnly ro then panic else ret ((entry.1, newValue), None)
  end.

(** [hydrateValue] after the resolution of the slot's own type failed
    with [ErrNoProvider] (lines 395-439). *)
Definition hydrateInside (rt : Runtime) (scope : Scope) (ro : Access) (inner : Value)
    : M (Value * option error) :=
  match inner with
  | VSlice t (Some elems) =>
      '(elems', err) ← forEach (hydrateValue rt scope (indexAccess ro)) elems;
      ret (VSlice t (Some elems'), err)
  | VArray t elems =>
      '(elems', err) ← forEach (hydrateValue rt scope (indexAccess ro)) elems;
      ret (VArray t elems', err)
  | VStruct t fields =>
      '(fields', err) ← forEach (hydrateField rt scope ro) fields;
      ret (VStruct t fields', err)
  | VMap t zero entries =>
      '(entries', err) ← forEach (hydrateEntry rt scope ro zero) entries;
      ret (VMap t zero entries', err)
  | _ => ret (inner, None)
  end.

(** The slots [hydrateValue] does not look into: the kinds of neither
    [switch], and the nil slice. *)
Definition isLeaf (inner : Value) : bool :=
  match inner with
  | VBasic _ _ | VPointer _ _ | VNilable _ _ _ | VSlice _ None => true
  | _ => false
  end.

(** Every user callback that a request on [scope] can reach, on
    [scope] or on an ancestor, leaves the instance map of the scope
    [x] alone. *)
Fixpoint quietFor (x : positive) (scope : Scope) : Prop :=
  (∀ k l, providers scope !! k = Some l →
     (∀ create s, Create (provider l) = Some create → leavesScope x (create s)) ∧
     (∀ after s value, AfterPointerUse (provider l) = Some after →
                       leavesScope x (after s value)) ∧
     (∀ free s value, Free (provider l) = Some free → leavesScope x (free s value))) ∧
  (∀ f k s, Dynamic scope = Some f → leavesScope x (f k s)) ∧
  match parent scope with
  | Some p => quietFor x p
  | None => True
  end.

(** No scope from [scope] up to the root is the scope [x]. *)
Fixpoint apart (x : positive) (scope : Scope) : Prop :=
  sid scope ≠ x ∧
  match parent scope with
  | Some p => apart x p
  | None => True
  end.

(** The [ProvideDynamic] methods leave the instance map of [x] alone. *)
Definition provideDynamicQuietFor (x : positive) (rt : Runtime) : Prop :=
  ∀ t method s a, provideDynamic rt t = Some method → leavesScope x (method s a).

(** From [w] to [w1] the engine made no call of [Free] for the key [T]
    on the scope [x], and either made no call of [Create] for it and
    left its entry as it was, or made exactly one and the entry,
    absent before, is present now. *)
Definition tracks (x : positive) (T : rtype) (w w1 : World) : Prop :=
  ∃ evs, calls w1 = calls w ++ evs ∧
         List.filter (isFreeOf x T) evs = [] ∧
         ((inst (store w1) x !! T = inst (store w) x !! T ∧
           List.filter (isCreateOf x T) evs = []) ∨
          (inst (store w) x !! T = None ∧ is_Some (inst (store w1) x !! T) ∧
           length (List.filter (isCreateOf x T) evs) = 1)).

(** A computation that [tracks] from every state. *)
Definition tracking {A} (x : positive) (T : rtype) (m : M A) : Prop :=
  ∀ w, tracks x T w (m w).2.

(** The assumptions on a provider of [T] with lifetime [Once]
    registered on [scope] itself: its [Create] always succeeds, the
    scope occurs once on its parent chain, and the user callbacks in
    reach leave the instance map of [scope] alone. *)
Record onceProvider (rt : Runtime) (scope : Scope) (T : rtype) (l : link)
    (create : positive → Store → (ptr * option error) * Store) : Prop := {
  once_keyed : keyed scope;
  once_quiet : quietFor (sid scope) scope;
  once_dynamic_quiet : provideDynamicQuietFor (sid scope) rt;
  once_apart : match parent scope with
               | Some p => apart (sid scope) p
               | None => True
               end;
  once_link : providers scope !! T = Some l;
  once_lifetime : lifetime l = LifetimeOnce;
  once_create : Create (provider l) = Some create;
  once_succeeds : ∀ s st, (create s st).1.2 = None
}.

(** A parameter type whose resolution asks for [T] itself: [*T], or
    [T] when [T] is not a pointer type. *)
Definition requests (rt : Runtime) (T : rtype) (t : rtype) : Prop :=
  t = PointerTo T ∨ (t = T ∧ (∃ id, T = Named id) ∧ typeOf (zeroValue rt T) = T).

(** ** Concrete scopes for the examples *)

Module Demo.

Definition Port : rtype := Named 1.
Definition Env : rtype := Named 2.
Definition Database : rtype := Named 3.
Definition Config : rtype := Named 4.
Definition Name : rtype := Named 5.
Definition Wrapper : rtype := Named 6.

(** [type Port int], [type Env struct { Port Port; secret Port }],
    [type Database struct {}], [type Name string] and
    [type Config struct { Name Name; DB Database; Port Port }] and
    [type Wrapper struct { Env Env }]; no type implements [Dynamic]. *)
Definition env (port secret : Z) : Value :=
  VStruct Env [(Exported, VBasic Port (AInt port));
               (Unexported, VBasic Port (AInt secret))].

Definition wrapper (port secret : Z) : Value :=
  VStruct Wrapper [(Exported, env port secret)].

Definition config (name : string) (port : Z) : Value :=
  VStruct Config [(Exported, VBasic Name (AString name));
                  (Exported, VStruct Database []);
                  (Exported, VBasic Port (AInt port))].

Definition rt : Runtime :=
  {| zeroValue := λ t,
       match t with
       | PointerTo e => VPointer e None
       | Named 2 => env 0 0
       | Named 3 => VStruct Database []
       | Named 4 => config "" 0
       | Named 5 => VBasic Name (AString "")
       | Named 6 => wrapper 0 0
       | Named _ => VBasic t (AInt 0)
       end;
     provideDynamic := λ _, None;
     implements := λ _ _, false;
     rangeOrder := λ m, (map_to_list m).*1;
     rangeOrder_perm := λ m, reflexivity _ |}.

Definition w0 : World :=
  {| store := {| instances := ∅; heap := ∅ |}; calls := [] |}.

(** A state whose heap holds one [Port] cell, at address 9. *)
Definition wCell : World :=
  {| store := {| instances := ∅; heap := {[ 9%positive := VBasic Port (AInt 0) ]} |};
     calls := [] |}.

(** The global scope and a child of it, as [New()] returns. *)
Definition global : Scope := new 1 None.
Definition child : Scope := new 2 (Some global).

(** A [Create] that returns a pointer to a fresh [Port(8080)]. *)
Definition createPort (scope : positive) (st : Store) : (ptr * option error) * Store :=
  let '(a, st') := alloc (VBasic Port (AInt 8080)) st in ((Some a, None), st').

Definition failing (msg : string) (scope : positive) (st : Store)
    : (ptr * option error) * Store :=
  ((None, Some (UserError msg)), st).

Definition freeOk (scope : positive) (value : ptr) (st : Store) : option error * Store :=
  (None, st).

Definition freeFails (scope : positive) (value : ptr) (st : Store) : option error * Store :=
  (Some (UserError "free failed"), st).

Definition portProvider (life : Lifetime) : Provider :=
  {| Lifetime_ := life; Create := Some createPort;
     AfterPointerUse := None; Free := Some freeOk |}.

(** The provider of [Database] of the README, with lifetime [Scope],
    registered on the global scope, and a child of that scope. *)
Definition createDatabase (scope : positive) (st : Store)
    : (ptr * option error) * Store :=
  let '(a, st') := alloc (VStruct Database []) st in ((Some a, None), st').

Definition databaseProvider : Provider :=
  {| Lifetime_ := LifetimeScope; Create := Some createDatabase;
     AfterPointerUse := None; Free := Some freeOk |}.

Definition dbGlobal : Scope := ProvideScoped global Database databaseProvider.
Definition dbChild : Scope := new 2 (Some dbGlobal).

(** Providers of [Port] with lifetime [Once], registered on a child of
    the global scope: one whose [Free] succeeds, next to a provider of
    [Database] whose [Create] fails; one whose [Free] fails; one whose
    [AfterPointerUse] fails. *)
Definition onceChild : Scope := ProvideScoped child Port (portProvider LifetimeOnce).

Definition onceAndFailingChild : Scope :=
  ProvideScoped onceChild Database
    {| Lifetime_ := LifetimeForever; Create := Some (failing "no database");
       AfterPointerUse := None; Free := None |}.

Definition onceFreeFailsChild : Scope :=
  ProvideScoped child Port
    {| Lifetime_ := LifetimeOnce; Create := Some createPort;
       AfterPointerUse := None; Free := Some freeFails |}.

Definition onceAfterFailsChild : Scope :=
  ProvideScoped child Port
    {| Lifetime_ := LifetimeOnce; Create := Some createPort;
       AfterPointerUse := Some (λ scope value st, (Some (UserError "after failed"), st));
       Free := Some freeOk |}.

(** [func(p *Port) { *p = Port(4040) }] of [TestSetInvokePointer]. *)
Definition writePort : Callable :=
  Func_ [PointerTo Port]
    (λ args st,
       match args with
       | [VPointer _ (Some a)] =>
           ([], {| instances := instances st;
                   heap := <[a := VBasic Port (AInt 4040)]> (heap st) |})
       | _ => ([], st)
       end).

(** A function that returns its arguments and touches nothing. *)
Definition identity (ins : list rtype) : Callable :=
  Func_ ins (λ args st, (args, st)).

(** A child whose [Dynamic] callback answers [Port] with the value 42,
    as in [TestDynamic]. *)
Definition dynamicChild : Scope :=
  {| sid := 2;
     Dynamic := Some (λ typ scope st,
       if decide (typ = Port) then ((Some (VBasic Port (AInt 42)), None), st)
       else ((None, None), st));
     parent := Some global;
     providers := ∅ |}.

End Demo.

(** ** Notions used by the further properties *)

(** Going up from [scope], the first scope that caches an instance for
    [k] caches [p], and no scope before it has a provider for [k]. *)
Fixpoint cachedAbove (scope : Scope) (k : rtype) (p : ptr) (st : Store) : Prop :=
  inst st (sid scope) !! k = Some p ∨
  (inst st (sid scope) !! k = None ∧ providers scope !! k = None ∧
   match parent scope with
   | Some par => cachedAbove par k p st
   | None => False
   end).

(** The scope on which [getLink] finds the link for [k]. *)
Fixpoint linkOwner (scope : Scope) (k : rtype) : option Scope :=
  match providers scope !! k with
  | Some _ => Some scope
  | None =>
      match parent scope with
      | Some p => linkOwner p k
      | None => None
      end
  end.

(** No scope from [scope] up to the root has a provider for [k] or a
    [Dynamic] callback. *)
Fixpoint barren (scope : Scope) (k : rtype) : Prop :=
  providers scope !! k = None ∧ Dynamic scope = None ∧
  match parent scope with
  | Some p => barren p k
  | None => True
  end.

(** ** The calls an engine function makes *)

(** Calls made while resolving a type. *)
Definition isResolutionCall (ev : Event) : bool :=
  match ev with
  | EvCreate _ _ | EvProvideDynamic _ _ _ | EvDynamic _ _ => true
  | _ => false
  end.

(** Calls of [AfterPointerUse]. *)
Definition isNotification (ev : Event) : bool :=
  match ev with
  | EvAfterPointerUse _ _ _ => true
  | _ => false
  end.

(** Calls of [Free]. *)
Definition isFreeCall (ev : Event) : bool :=
  match ev with
  | EvFree _ _ _ => true
  | _ => false
  end.

(** From every state, the calls [m] makes are added at the end of the
    log and all satisfy [P]. *)
Definition emits {A} (P : Event → bool) (m : M A) : Prop :=
  ∀ w, ∃ evs, calls (m w).2 = calls w ++ evs ∧ Forall (λ ev, P ev = true) evs.


(** No map inside [v] has an entry, however deep, short of pointers. *)
Fixpoint noEntries (v : Value) : bool :=
  match v with
  | VSlice _ (Some elems) => forallb noEntries elems
  | VArray _ elems => forallb noEntries elems
  | VStruct _ fields => forallb (λ field : FieldKind * Value, noEntries field.2) fields
  | VMap _ _ entries => match entries with [] => true | _ => false end
  | _ => true
  end.

(** ** Further concrete scopes for the examples *)

Module More.

(** A provider of [Port] with lifetime [Forever] registered on the
    global scope, and a child of that scope. *)
Definition foreverGlobal : Scope :=
  ProvideScoped Demo.global Demo.Port (Demo.portProvider LifetimeForever).
Definition foreverChild : Scope := new 2 (Some foreverGlobal).
Definition foreverSibling : Scope := new 3 (Some foreverGlobal).

(** A provider of [Port] whose [Create] fails, registered on the
    global scope, and a child of that scope. *)
Definition failingGlobal : Scope :=
  ProvideScoped Demo.global Demo.Port
    {| Lifetime_ := LifetimeForever; Create := Some (Demo.failing "no port");
       AfterPointerUse := None; Free := None |}.
Definition failingChild : Scope := new 2 (Some failingGlobal).

(** [type Ports map[Name]Port],
    [type inner struct { Port Port; secret Port }] and
    [type Outer struct { inner }], where [inner] is embedded. *)
Definition Ports : rtype := Named 7.
Definition Inner : rtype := Named 8.
Definition Outer : rtype := Named 9.

Definition ports (entries : list (Value * Value)) : Value :=
  VMap Ports (VBasic Demo.Port (AInt 0)) entries.

Definition inner (port secret : Z) : Value :=
  VStruct Inner [(Exported, VBasic Demo.Port (AInt port));
                 (Unexported, VBasic Demo.Port (AInt secret))].

Definition outer (port secret : Z) : Value :=
  VStruct Outer [(EmbeddedUnexported, inner port secret)].

(** The run time of [Demo] with these three types. *)
Definition rt : Runtime :=
  {| zeroValue := λ t,
       match t with
       | Named 7 => ports []
       | Named 8 => inner 0 0
       | Named 9 => outer 0 0
       | _ => zeroValue Demo.rt t
       end;
     provideDynamic := provideDynamic Demo.rt;
     implements := implements Demo.rt;
     rangeOrder := rangeOrder Demo.rt;
     rangeOrder_perm := rangeOrder_perm Demo.rt |}.

(** A [Free] that zeroes the port it releases. *)
Definition closePort (scope : positive) (value : ptr) (st : Store) : option error * Store :=
  match value with
  | Some a =>
      (None, {| instances := instances st;
                heap := <[a := VBasic Demo.Port (AInt 0)]> (heap st) |})
  | None => (None, st)
  end.

Definition closingProvider (life : Lifetime) : Provider :=
  {| Lifetime_ := life; Create := Some Demo.createPort;
     AfterPointerUse := None; Free := Some closePort |}.

(** That provider with lifetime [Scope] on the global scope, and a
    child of that scope; and with lifetime [Once] on a child of the
    global scope. *)
Definition closingGlobal : Scope :=
  ProvideScoped Demo.global Demo.Port (closingProvider LifetimeScope).
Definition closingChild : Scope := new 2 (Some closingGlobal).
Definition closingOnceChild : Scope :=
  ProvideScoped Demo.child Demo.Port (closingProvider LifetimeOnce).

(** Below the global scope with the [Scope]-lifetime provider of
    [Database], a scope with a [Forever]-lifetime provider of
    [Database] of its own, and a child of that scope. *)
Definition shadowingMid : Scope :=
  ProvideScoped (new 2 (Some Demo.dbGlobal)) Demo.Database
    {| Lifetime_ := LifetimeForever; Create := Some Demo.createDatabase;
       AfterPointerUse := None; Free := Some Demo.freeOk |}.
Definition shadowedLeaf : Scope := new 3 (Some shadowingMid).

End More.


(** ** Lemmas on the store *)

Lemma inst_setInstance s s' k p st :
  inst (setInstance s k p st) s' =
  if decide (s = s') then <[k := p]> (inst st s) else inst st s'.
Proof.
  unfold inst, setInstance; simpl. rewrite lookup_insert.
  case_decide; [subst; reflexivity | reflexivity].
Qed.

Lemma inst_deleteInstance s s' k st :
  inst (deleteInstance s k st) s' =
  if decide (s = s') then delete k (inst st s) else inst st s'.
Proof.
  unfold inst, deleteInstance; simpl. rewrite lookup_insert.
  case_decide; [subst; reflexivity | reflexivity].
Qed.

Lemma inst_alloc v st s : inst (alloc v st).2 s = inst st s.
Proof. reflexivity. Qed.

Lemma alloc_fresh v st : heap st !! (alloc v st).1 = None.
Proof.
  unfold alloc; simpl. apply not_elem_of_dom. apply is_fresh.
Qed.

Lemma alloc_lookup v st : heap (alloc v st).2 !! (alloc v st).1 = Some v.
Proof. unfold alloc; simpl. apply lookup_insert_eq. Qed.

(** Induction along the parent chain. *)
Lemma Scope_chain_ind (P : Scope → Prop) :
  (∀ s, parent s = None → P s) →
  (∀ s p, parent s = Some p → P p → P s) →
  ∀ s, P s.
Proof.
  intros Hroot Hchild. fix IH 1. intros [id dyn [p|] provs].
  - apply (Hchild _ p); [reflexivity | apply IH].
  - apply Hroot. reflexivity.
Qed.

Lemma getLink_key scope k l :
  keyed scope → getLink scope k = Some l → key l = k.
Proof.
  revert scope. refine (Scope_chain_ind _ _ _).
  - intros s Hp. destruct s as [id dyn par provs]; simpl in *.
    intros [Hk _]. destruct (provs !! k) eqn:E; [intros [= <-]; eauto | by rewrite Hp].
  - intros s p Hp IH. destruct s as [id dyn par provs]; simpl in *.
    subst par. intros [Hk Hkp].
    destruct (provs !! k) eqn:E; [intros [= <-]; eauto | eauto].
Qed.

Lemma getLink_local scope k l :
  providers scope !! k = Some l → getLink scope k = Some l.
Proof. intros H. destruct scope; simpl in *. by rewrite H. Qed.



(** [Get] past the cache test and the [deepLink] test. *)
Lemma Get_rest rt scope k w :
  inst (store w) (sid scope) !! k = None →
  (∀ deep, getLink scope k = Some deep → lifetime deep ≠ LifetimeScope) →
  Get rt scope k w =
  match providers scope !! k with
  | Some l => link_get l scope w
  | None =>
      match parent scope with
      | Some p =>
          match Get rt p k w with
          | (Done (par, err), w1) =>
              if isNoProvider err then Get_dynamic rt scope k w1
              else (Done (par, err), w1)
          | (Crash, w1) => (Crash, w1)
          end
      | None => Get_dynamic rt scope k w
      end
  end.
Proof.
  intros Hc Hd. destruct scope as [id dyn par provs]; simpl in *.
  rewrite Hc. destruct (provs !! k) as [l|] eqn:El.
  - case_decide as Hl; [by apply (Hd l) in Hl | reflexivity].
  - destruct par as [p|]; [|reflexivity].
    destruct (getLink p k) as [deep|] eqn:Ed; [|reflexivity].
    case_decide as Hl; [by apply (Hd deep) in Hl | reflexivity].
Qed.

(** ** Registration: [Scope.Set] *)

(** C7 (as amended): [Scope.Set] never fails.  Given a pointer [*T] it
    stores that pointer under the key [T]; given a value of any other
    kind it stores, under the value's type, a pointer to a fresh cell
    that holds the value; the error it returns is nil in both cases. *)
Theorem Scope_Set_boxes_values (scope : Scope) (v : Value) (w : World) :
  ∃ w', Scope_Set scope (Some v) w = (Done None, w') ∧
        calls w' = calls w ∧
        match v with
        | VPointer elem p => inst (store w') (sid scope) !! elem = Some p
        | _ => ∃ a, heap (store w) !! a = None ∧
                    heap (store w') !! a = Some v ∧
                    inst (store w') (sid scope) !! typeOf v = Some (Some a)
        end.
Proof.
  destruct v; simpl;
    try (eexists; split; [reflexivity | split; [reflexivity |]];
         eexists; split; [apply alloc_fresh | split; [apply alloc_lookup |]];
         simpl; rewrite inst_setInstance, decide_True by reflexivity;
         apply lookup_insert_eq).
  eexists; split; [reflexivity | split; [reflexivity |]]. simpl.
  rewrite inst_setInstance, decide_True by reflexivity. apply lookup_insert_eq.
Qed.

(** C7 as stated fails: [Set(Port(8080))], the call of [TestArray],
    is given a value that is not a pointer and returns a nil error, not
    [ErrNotPointer]. *)
Lemma Scope_Set_value_not_refused :
  kindOf (VBasic Demo.Port (AInt 8080)) ≠ Pointer ∧
  (Scope_Set Demo.child (Some (VBasic Demo.Port (AInt 8080))) Demo.w0).1
    ≠ Done (Some ErrNotPointer).
Proof. split; [discriminate | vm_compute; discriminate]. Qed.

(** ** Resolution: [Scope.Get] and [GetScoped] *)

(** C8: for a provider registered on the scope with a nil [Create] and
    no cached instance, [Scope.Get] reports [ErrMissingCreate], but
    [GetScoped] calls the nil function and panics. *)
Theorem missing_Create_Get_reports_GetScoped_panics
    (rt : Runtime) (scope : Scope) (V : rtype) (l : link) (w : World) :
  inst (store w) (sid scope) !! V = None →
  providers scope !! V = Some l →
  key l = V →
  Create (provider l) = None →
  Get rt scope V w = (Done (None, Some ErrMissingCreate), w) ∧
  GetScoped rt V scope w = (Crash, w).
Proof.
  intros Hc Hl Hk Hn. split.
  - destruct scope as [id dyn par provs]; simpl in *.
    rewrite Hc, Hl. unfold link_get; simpl. rewrite Hk, Hc, Hn.
    by case_decide.
  - destruct scope as [id dyn par provs]; simpl in *.
    by rewrite Hc, Hl, Hn.
Qed.

Lemma missing_Create_witness :
  let scope := ProvideScoped Demo.child Demo.Port
                 {| Lifetime_ := LifetimeForever; Create := None;
                    AfterPointerUse := None; Free := None |} in
  Get Demo.rt scope Demo.Port Demo.w0 = (Done (None, Some ErrMissingCreate), Demo.w0) ∧
  GetScoped Demo.rt Demo.Port scope Demo.w0 = (Crash, Demo.w0).
Proof.
  intros scope.
  apply (missing_Create_Get_reports_GetScoped_panics Demo.rt scope Demo.Port
           {| provider := {| Lifetime_ := LifetimeForever; Create := None;
                             AfterPointerUse := None; Free := None |};
              key := Demo.Port |} Demo.w0); reflexivity.
Defined.




(** *** The dynamic fallback and the instance maps *)




Lemma GetDynamic_spec rt k w :
  ∃ st, (GetDynamic rt k w).2 = {| store := st; calls := calls w |} ∧
        instances st = instances (store w) ∧
        ∀ d, (GetDynamic rt k w).1 = Done (Some d) →
             is_Some (provideDynamic rt d.1).
Proof.
  unfold GetDynamic. destruct (provideDynamic rt (Named (rtype_base k))) eqn:E; simpl.
  - eexists; split; [reflexivity|]. split; [reflexivity|].
    intros d [= <-]; simpl. by rewrite E.
  - exists (store w). destruct w; simpl. split; [reflexivity|]. split; [done|].
    intros d [=].
Qed.


Lemma uncached_here scope k st : uncached scope k st → inst st (sid scope) !! k = None.
Proof. destruct scope; simpl. by intros [H _]. Qed.

Lemma uncached_parent scope p k st :
  parent scope = Some p → uncached scope k st → uncached p k st.
Proof. destruct scope; simpl. intros ->. by intros [_ H]. Qed.





Arguments asPointerTo : simpl never.

Lemma asPointerTo_spec rt V dyn w :
  ∃ val st, asPointerTo rt V dyn w = (Done val, {| store := st; calls := calls w |}) ∧
            instances st = instances (store w).
Proof.
  destruct w as [st0 cs]. unfold asPointerTo.
  destruct dyn as [v|]; [|by eexists _, _].
  destruct v; cbn; repeat case_decide; try destruct (implements rt _ V);
    by eexists _, _.
Qed.






(** ** Teardown: [Scope.Free] and [Scope.FreeOnce] *)

Lemma link_free_spec scope l k value w :
  key l = k →
  inst (store w) (sid scope) !! k = Some value →
  (∀ free, Free (provider l) = Some free →
           leavesScope (sid scope) (free (sid scope) value)) →
  ∃ err w', link_free l scope w = (Done err, w') ∧
            inst (store w') (sid scope) = delete k (inst (store w) (sid scope)) ∧
            calls w' = calls w ++ freeCall scope k l value.
Proof.
  intros Hk Hv Hfree. unfold link_free, freeCall, mbind, M_bind, bind.
  rewrite Hk. destruct (Free (provider l)) as [free|] eqn:Ef.
  - rewrite Hv. unfold call, update; simpl.
    pose proof (Hfree free eq_refl (store w)) as Hl.
    destruct (free (sid scope) value (store w)) as [err st'] eqn:E; simpl in *.
    eexists _, _. split; [reflexivity|]. simpl. split; [|reflexivity].
    rewrite inst_deleteInstance, decide_True by reflexivity. by rewrite Hl.
  - unfold update; simpl. eexists _, _. split; [reflexivity|]. simpl.
    split; [|by rewrite app_nil_r].
    by rewrite inst_deleteInstance, decide_True by reflexivity.
Qed.

Lemma filter_freeCall_eq scope k l value :
  List.filter (isFreeOf (sid scope) k) (freeCall scope k l value) = freeCall scope k l value.
Proof.
  unfold freeCall. destruct (Free (provider l)); [|reflexivity]. simpl.
  by rewrite bool_decide_true.
Qed.

Lemma filter_freeCall_ne scope k k' l value :
  k ≠ k' → List.filter (isFreeOf (sid scope) k') (freeCall scope k l value) = [].
Proof.
  intros Hne. unfold freeCall. destruct (Free (provider l)); [|reflexivity]. simpl.
  rewrite bool_decide_false; [reflexivity | by intros [_ ?]].
Qed.

Lemma FreeOnce_range_spec scope :
  keyed scope → freeLeavesScope scope →
  ∀ keys multi w,
  ∃ multi' w' evs,
    FreeOnce_range scope keys multi w = (Done multi', w') ∧
    calls w' = calls w ++ evs ∧
    (∀ k, inst (store w') (sid scope) !! k =
          if decide (k ∈ keys ∧ freedOnce scope k = true) then None
          else inst (store w) (sid scope) !! k) ∧
    (∀ k, List.filter (isFreeOf (sid scope) k) evs =
          if decide (k ∈ keys)
          then freeOnceCall scope k (inst (store w) (sid scope) !! k) else []).
Proof.
  intros Hkeyed Hleaves. induction keys as [|key rest IH]; intros multi w.
  { exists multi, w, []. simpl. rewrite app_nil_r.
    split; [done|]. split; [done|].
    split; intros k; done. }
  (* one iteration, summarised *)
  assert (∃ multi1 w1,
    FreeOnce_range scope (key :: rest) multi w = FreeOnce_range scope rest multi1 w1 ∧
    calls w1 = calls w ++ freeOnceCall scope key (inst (store w) (sid scope) !! key) ∧
    inst (store w1) (sid scope) =
      if freedOnce scope key then delete key (inst (store w) (sid scope))
      else inst (store w) (sid scope)) as (multi1 & w1 & Hstep & Hcalls1 & Hinst1).
  { simpl. unfold freeOnceCall, freedOnce.
    destruct (inst (store w) (sid scope) !! key) as [value|] eqn:Ev.
    - destruct (getLink scope key) as [l|] eqn:El.
      + case_decide as Hl.
        * destruct (link_free_spec scope l key value w) as (err & w1 & Hf & Hi & Hc).
          { by eapply getLink_key. } { done. }
          { intros free Hfree. by eapply Hleaves. }
          unfold mbind, M_bind, bind. rewrite Hf. eexists _, w1.
          split; [reflexivity|]. split; [done|]. by rewrite bool_decide_true.
        * exists multi, w. rewrite app_nil_r, bool_decide_false by done. done.
      + unfold mbind, M_bind, bind, update; simpl. eexists multi, _.
        split; [reflexivity|]. simpl. rewrite app_nil_r. split; [done|].
        by rewrite inst_deleteInstance, decide_True by reflexivity.
    - exists multi, w. rewrite app_nil_r. split; [done|]. split; [done|].
      destruct (match getLink scope key with
                | Some l => bool_decide (lifetime l = LifetimeOnce)
                | None => true
                end); [|done].
      by rewrite delete_id. }
  destruct (IH multi1 w1) as (multi' & w' & evs & Hrun & Hcalls & Hmap & Hevs).
  exists multi', w', (freeOnceCall scope key (inst (store w) (sid scope) !! key) ++ evs).
  split; [by rewrite Hstep|]. split; [by rewrite Hcalls, Hcalls1, <-app_assoc|].
  split.
  - intros k. rewrite Hmap, Hinst1. destruct (decide (k = key)) as [->|Hne].
    + destruct (freedOnce scope key) eqn:Efo.
      * rewrite lookup_delete_eq. rewrite (decide_True (P := key ∈ key :: rest ∧ _));
          [by case_decide | split; [by left | done]].
      * rewrite !decide_False; [done | | ]; intros [_ ?]; congruence.
    + assert (inst (store w1) (sid scope) !! k = inst (store w) (sid scope) !! k) as Hk.
      { rewrite Hinst1. destruct (freedOnce scope key); [|done].
        by rewrite lookup_delete_ne. }
      rewrite <-Hinst1, Hk.
      destruct (decide (k ∈ rest ∧ freedOnce scope k = true)) as [[Hin Hf]|Hn].
      * rewrite decide_True; [done | split; [by right | done]].
      * rewrite decide_False; [done|]. intros [Hin Hf]. apply Hn. split; [|done].
        by apply elem_of_cons in Hin as [?|?].
  - intros k. rewrite List.filter_app, Hevs. destruct (decide (k = key)) as [->|Hne].
    + rewrite (decide_True (P := key ∈ key :: rest)) by (by left).
      assert (freeOnceCall scope key (inst (store w1) (sid scope) !! key) = []) as ->.
      { rewrite Hinst1. unfold freeOnceCall, freedOnce.
        destruct (getLink scope key) as [l|] eqn:El.
        - case_bool_decide as Hl.
          + by rewrite lookup_delete_eq.
          + destruct (inst (store w) (sid scope) !! key); [|done]. by rewrite decide_False.
        - by rewrite lookup_delete_eq. }
      assert (List.filter (isFreeOf (sid scope) key)
                (freeOnceCall scope key (inst (store w) (sid scope) !! key)) =
              freeOnceCall scope key (inst (store w) (sid scope) !! key)) as ->.
      { unfold freeOnceCall. destruct (inst (store w) (sid scope) !! key); [|done].
        destruct (getLink scope key); [|done]. case_decide; [|done].
        apply filter_freeCall_eq. }
      case_decide; by rewrite app_nil_r.
    + assert (List.filter (isFreeOf (sid scope) k)
                (freeOnceCall scope key (inst (store w) (sid scope) !! key)) = []) as ->.
      { unfold freeOnceCall. destruct (inst (store w) (sid scope) !! key); [|done].
        destruct (getLink scope key); [|done]. case_decide; [|done].
        by apply filter_freeCall_ne. }
      assert (inst (store w1) (sid scope) !! k = inst (store w) (sid scope) !! k) as ->.
      { rewrite Hinst1. destruct (freedOnce scope key); [|done].
        by rewrite lookup_delete_ne. }
      simpl. destruct (decide (k ∈ rest)) as [Hin|Hn].
      * rewrite decide_True; [done | by right].
      * rewrite decide_False; [done|]. intros Hin. by apply elem_of_cons in Hin as [?|?].
Qed.

Lemma Free_range_spec scope :
  keyed scope → freeLeavesScope scope →
  ∀ keys multi w,
  ∃ multi' w' evs,
    Free_range scope keys multi w = (Done multi', w') ∧
    calls w' = calls w ++ evs ∧
    (∀ k, inst (store w') (sid scope) !! k =
          if decide (k ∈ keys) then None else inst (store w) (sid scope) !! k) ∧
    (∀ k, List.filter (isFreeOf (sid scope) k) evs =
          if decide (k ∈ keys)
          then freeAllCall scope k (inst (store w) (sid scope) !! k) else []).
Proof.
  intros Hkeyed Hleaves. induction keys as [|key rest IH]; intros multi w.
  { exists multi, w, []. simpl. rewrite app_nil_r.
    split; [done|]. split; [done|]. split; intros k; done. }
  assert (∃ multi1 w1,
    Free_range scope (key :: rest) multi w = Free_range scope rest multi1 w1 ∧
    calls w1 = calls w ++ freeAllCall scope key (inst (store w) (sid scope) !! key) ∧
    inst (store w1) (sid scope) = delete key (inst (store w) (sid scope)))
    as (multi1 & w1 & Hstep & Hcalls1 & Hinst1).
  { simpl. unfold freeAllCall.
    destruct (inst (store w) (sid scope) !! key) as [value|] eqn:Ev.
    - destruct (getLink scope key) as [l|] eqn:El.
      + destruct (link_free_spec scope l key value w) as (err & w1 & Hf & Hi & Hc).
        { by eapply getLink_key. } { done. }
        { intros free Hfree. by eapply Hleaves. }
        unfold mbind, M_bind, bind. rewrite Hf. by eexists _, w1.
      + unfold mbind, M_bind, bind, update; simpl. eexists multi, _.
        split; [reflexivity|]. simpl. rewrite app_nil_r. split; [done|].
        by rewrite inst_deleteInstance, decide_True by reflexivity.
    - exists multi, w. rewrite app_nil_r. split; [done|]. split; [done|].
      by rewrite delete_id. }
  destruct (IH multi1 w1) as (multi' & w' & evs & Hrun & Hcalls & Hmap & Hevs).
  exists multi', w', (freeAllCall scope key (inst (store w) (sid scope) !! key) ++ evs).
  split; [by rewrite Hstep|]. split; [by rewrite Hcalls, Hcalls1, <-app_assoc|].
  split.
  - intros k. rewrite Hmap, Hinst1. destruct (decide (k = key)) as [->|Hne].
    + rewrite lookup_delete_eq, (decide_True (P := key ∈ key :: rest)) by (by left).
      by case_decide.
    + rewrite lookup_delete_ne by done. destruct (decide (k ∈ rest)) as [Hin|Hn].
      * rewrite decide_True; [done | by right].
      * rewrite decide_False; [done|]. intros Hin. by apply elem_of_cons in Hin as [?|?].
  - intros k. rewrite List.filter_app, Hevs, Hinst1.
    destruct (decide (k = key)) as [->|Hne].
    + rewrite (decide_True (P := key ∈ key :: rest)) by (by left).
      rewrite lookup_delete_eq.
      assert (List.filter (isFreeOf (sid scope) key)
                (freeAllCall scope key (inst (store w) (sid scope) !! key)) =
              freeAllCall scope key (inst (store w) (sid scope) !! key)) as ->.
      { unfold freeAllCall. destruct (inst (store w) (sid scope) !! key); [|done].
        destruct (getLink scope key); [|done]. apply filter_freeCall_eq. }
      case_decide; by rewrite app_nil_r.
    + assert (List.filter (isFreeOf (sid scope) k)
                (freeAllCall scope key (inst (store w) (sid scope) !! key)) = []) as ->.
      { unfold freeAllCall. destruct (inst (store w) (sid scope) !! key); [|done].
        destruct (getLink scope key); [|done]. by apply filter_freeCall_ne. }
      rewrite lookup_delete_ne by done.
      simpl. destruct (decide (k ∈ rest)) as [Hin|Hn].
      * rewrite decide_True; [done | by right].
      * rewrite decide_False; [done|]. intros Hin. by apply elem_of_cons in Hin as [?|?].
Qed.

Lemma elem_of_rangeOrder rt (m : gmap rtype ptr) k :
  k ∈ rangeOrder rt m ↔ is_Some (m !! k).
Proof.
  rewrite (rangeOrder_perm rt m), list_elem_of_fmap. split.
  - intros ([k' v] & -> & Hin). apply elem_of_map_to_list in Hin. by exists v.
  - intros [v Hv]. exists (k, v). split; [done|]. by apply elem_of_map_to_list.
Qed.

(** [FreeOnce] as a whole: the entries of [Once]-lifetime links and
    those without a link are gone, the others are as they were, and
    the calls made are one call of [Free] for each entry of a
    [Once]-lifetime link that has one. *)
Lemma FreeOnce_spec rt scope w :
  keyed scope → freeLeavesScope scope →
  ∃ err w' evs,
    FreeOnce rt scope w = (Done err, w') ∧
    calls w' = calls w ++ evs ∧
    (∀ k, inst (store w') (sid scope) !! k =
          if freedOnce scope k then None else inst (store w) (sid scope) !! k) ∧
    (∀ k, List.filter (isFreeOf (sid scope) k) evs =
          freeOnceCall scope k (inst (store w) (sid scope) !! k)).
Proof.
  intros Hkeyed Hleaves. unfold FreeOnce, mbind, M_bind, bind.
  destruct (FreeOnce_range_spec scope Hkeyed Hleaves
              (rangeOrder rt (inst (store w) (sid scope))) [] w)
    as (multi' & w' & evs & -> & Hcalls & Hmap & Hevs).
  exists (match multi' with [] => None | _ => Some (multiError multi') end), w', evs.
  split; [by destruct multi'|]. split; [done|]. split.
  - intros k. rewrite Hmap. destruct (freedOnce scope k) eqn:Ef.
    + case_decide as Hd; [done|].
      destruct (inst (store w) (sid scope) !! k) eqn:Ek; [|done].
      exfalso. apply Hd. split; [|done]. apply elem_of_rangeOrder. by rewrite Ek.
    + rewrite decide_False; [done | by intros [_ ?]].
  - intros k. rewrite Hevs. case_decide as Hd; [done|].
    destruct (inst (store w) (sid scope) !! k) eqn:Ek; [|done].
    exfalso. apply Hd. apply elem_of_rangeOrder. by rewrite Ek.
Qed.

(** [Free] as a whole: the instance map of the scope is empty
    afterwards, and the calls made are one call of [Free] for each
    entry whose link has one. *)
Lemma Scope_Free_spec rt scope w :
  keyed scope → freeLeavesScope scope →
  ∃ err w' evs,
    Scope_Free rt scope w = (Done err, w') ∧
    calls w' = calls w ++ evs ∧
    inst (store w') (sid scope) = ∅ ∧
    (∀ k, List.filter (isFreeOf (sid scope) k) evs =
          freeAllCall scope k (inst (store w) (sid scope) !! k)).
Proof.
  intros Hkeyed Hleaves. unfold Scope_Free, mbind, M_bind, bind.
  destruct (Free_range_spec scope Hkeyed Hleaves
              (rangeOrder rt (inst (store w) (sid scope))) [] w)
    as (multi' & w' & evs & -> & Hcalls & Hmap & Hevs).
  exists (match multi' with [] => None | _ => Some (multiError multi') end), w', evs.
  split; [by destruct multi'|]. split; [done|]. split.
  - apply map_eq. intros k. rewrite Hmap, lookup_empty. case_decide as Hd; [done|].
    destruct (inst (store w) (sid scope) !! k) eqn:Ek; [|done].
    exfalso. apply Hd. apply elem_of_rangeOrder. by rewrite Ek.
  - intros k. rewrite Hevs. case_decide as Hd; [done|].
    destruct (inst (store w) (sid scope) !! k) eqn:Ek; [|done].
    exfalso. apply Hd. apply elem_of_rangeOrder. by rewrite Ek.
Qed.

(** ** Lifetime [Scope]: placement and release *)

Lemma keyed_new id par :
  match par with Some p => keyed p | None => True end → keyed (new id par).
Proof. intros H. simpl. split; [|done]. intros k l. by rewrite lookup_empty. Qed.

Lemma keyed_ProvideScoped scope k p : keyed scope → keyed (ProvideScoped scope k p).
Proof.
  destruct scope as [id dyn par provs]; simpl. intros [Hk Hp]. split; [|done].
  intros k' l. rewrite lookup_insert. case_decide; [by intros [= <-] | apply Hk].
Qed.

Lemma link_free_run l scope w err w' :
  link_free l scope w = (Done err, w') →
  (Free (provider l) = None ∧ err = None ∧
   store w' = deleteInstance (sid scope) (key l) (store w)) ∨
  (∃ free value,
     Free (provider l) = Some free ∧
     inst (store w) (sid scope) !! key l = Some value ∧
     err = (free (sid scope) value (store w)).1 ∧
     store w' = deleteInstance (sid scope) (key l) (free (sid scope) value (store w)).2).
Proof.
  unfold link_free, mbind, M_bind, bind.
  destruct (Free (provider l)) as [free|].
  - destruct (inst (store w) (sid scope) !! key l) as [value|]; [|done].
    unfold call. destruct (free (sid scope) value (store w)) as [err0 st] eqn:Ef.
    simpl. intros [= <- <-]. right. exists free, value. by rewrite Ef.
  - simpl. intros [= <- <-]. by left.
Qed.

Lemma Free_range_errors scope :
  keyed scope → freeLeavesScope scope →
  ∀ keys multi w multi' w',
    Free_range scope keys multi w = (Done multi', w') →
    ∃ es, multi' = multi ++ es ∧
          Forall (freeError scope) es ∧
          ∀ k value l free e,
            k ∈ keys → inst (store w) (sid scope) !! k = Some value →
            getLink scope k = Some l → Free (provider l) = Some free →
            (∀ st, (free (sid scope) value st).1 = Some e) →
            e ∈ es.
Proof.
  intros Hkeyed Hleaves.
  induction keys as [|key rest IH]; intros multi w multi' w'; simpl.
  { intros [= <- <-]. exists []. rewrite app_nil_r. split; [done|]. split; [done|].
    intros k value l free e Hin. by apply elem_of_nil in Hin. }
  destruct (inst (store w) (sid scope) !! key) as [value0|] eqn:Ekey.
  2: { intros Hrun. destruct (IH _ _ _ _ Hrun) as (es & -> & Hes & Hall).
       exists es. split; [done|]. split; [done|].
       intros k value l free e Hin Hk. apply elem_of_cons in Hin as [->|Hin]; [congruence|].
       by apply Hall. }
  destruct (getLink scope key) as [l0|] eqn:El0.
  - unfold mbind, M_bind, bind.
    destruct (link_free l0 scope w) as [[err|] w1] eqn:Efree; [|done].
    pose proof (getLink_key _ _ _ Hkeyed El0) as Hk0.
    intros Hrun. destruct (IH _ _ _ _ Hrun) as (es & -> & Hes & Hall).
    assert (∀ k, k ≠ key → inst (store w1) (sid scope) !! k = inst (store w) (sid scope) !! k)
      as Hother.
    { intros k Hne. destruct (link_free_run _ _ _ _ _ Efree)
        as [(_ & _ & ->)|(free & value & Hf & _ & _ & ->)];
        rewrite inst_deleteInstance, decide_True, Hk0 by done;
        rewrite lookup_delete_ne by done; [done|].
      by rewrite (Hleaves key l0 free value El0 Hf (store w)). }
    destruct (link_free_run _ _ _ _ _ Efree)
      as [(Hnone & -> & _)|(free0 & value' & Hf0 & Hv' & -> & _)].
    + exists es. split; [done|]. split; [done|].
      intros k value l free e Hin Hk Hl Hf He.
      apply elem_of_cons in Hin as [->|Hin]; [congruence|].
      destruct (decide (k = key)) as [->|Hne]; [congruence|].
      eapply Hall; try done. by rewrite Hother.
    + rewrite Hk0, Ekey in Hv'. injection Hv' as <-.
      destruct (free0 (sid scope) value0 (store w)).1 as [e0|] eqn:Ee0.
      * exists (e0 :: es). split; [by rewrite <-app_assoc|]. split.
        { constructor; [|done]. by exists key, l0, free0, value0, (store w). }
        intros k value l free e Hin Hk Hl Hf He.
        destruct (decide (k = key)) as [->|Hne].
        { rewrite El0 in Hl. injection Hl as <-. rewrite Hf0 in Hf. injection Hf as <-.
          rewrite Ekey in Hk. injection Hk as <-. rewrite He in Ee0. injection Ee0 as <-.
          by left. }
        apply elem_of_cons in Hin as [->|Hin]; [done|]. right.
        eapply Hall; try done. by rewrite Hother.
      * exists es. split; [done|]. split; [done|].
        intros k value l free e Hin Hk Hl Hf He.
        destruct (decide (k = key)) as [->|Hne].
        { rewrite El0 in Hl. injection Hl as <-. rewrite Hf0 in Hf. injection Hf as <-.
          rewrite Ekey in Hk. injection Hk as <-. by rewrite He in Ee0. }
        apply elem_of_cons in Hin as [->|Hin]; [done|].
        eapply Hall; try done. by rewrite Hother.
  - unfold mbind, M_bind, bind, update. simpl.
    intros Hrun. destruct (IH _ _ _ _ Hrun) as (es & -> & Hes & Hall).
    exists es. split; [done|]. split; [done|].
    intros k value l free e Hin Hk Hl Hf He.
    apply elem_of_cons in Hin as [->|Hin]; [congruence|].
    destruct (decide (k = key)) as [->|Hne]; [congruence|].
    eapply Hall; try done. simpl.
    rewrite inst_deleteInstance, decide_True by done. by rewrite lookup_delete_ne.
Qed.

(** What the teardown loops run: each [Free] callback they reach is
    run on the cached instance, so that what it establishes and the
    rest of the teardown keeps holds at the end. *)
Lemma link_free_keeps scope P l w err w' :
  teardownKeeps scope P →
  getLink scope (key l) = Some l →
  link_free l scope w = (Done err, w') →
  P (store w) → P (store w').
Proof.
  intros [Hdel Hfree] Hl Hrun HP.
  destruct (link_free_run _ _ _ _ _ Hrun)
    as [(_ & _ & ->)|(free & value & Hf & _ & _ & ->)]; apply Hdel; [done|].
  by eapply Hfree.
Qed.

Lemma Free_range_runs scope P :
  keyed scope → freeLeavesScope scope → teardownKeeps scope P →
  ∀ keys multi w multi' w',
    Free_range scope keys multi w = (Done multi', w') →
    (P (store w) → P (store w')) ∧
    ∀ k value l free,
      k ∈ keys → inst (store w) (sid scope) !! k = Some value →
      getLink scope k = Some l → Free (provider l) = Some free →
      (∀ st, P (free (sid scope) value st).2) →
      P (store w').
Proof.
  intros Hkeyed Hleaves HP.
  induction keys as [|key rest IH]; intros multi w multi' w'; simpl.
  { intros [= <- <-]. split; [done|]. intros k value l free Hin.
    by apply elem_of_nil in Hin. }
  destruct (inst (store w) (sid scope) !! key) as [value0|] eqn:Ekey.
  2: { intros Hrun. destruct (IH _ _ _ _ Hrun) as [Hkeep Hall]. split; [done|].
       intros k value l free Hin Hk. apply elem_of_cons in Hin as [->|Hin]; [congruence|].
       by apply Hall. }
  destruct (getLink scope key) as [l0|] eqn:El0.
  - unfold mbind, M_bind, bind.
    destruct (link_free l0 scope w) as [[err|] w1] eqn:Efree; [|done].
    pose proof (getLink_key _ _ _ Hkeyed El0) as Hk0.
    intros Hrun. destruct (IH _ _ _ _ Hrun) as [Hkeep Hall].
    assert (P (store w) → P (store w1)) as Hstep.
    { apply (link_free_keeps scope P l0 w err w1 HP); [|done]. by rewrite Hk0. }
    split; [by intros ?; apply Hkeep, Hstep|].
    intros k value l free Hin Hk Hl Hf Hest.
    destruct (decide (k = key)) as [->|Hne].
    + apply Hkeep. rewrite El0 in Hl. injection Hl as <-.
      rewrite Ekey in Hk. injection Hk as <-.
      destruct (link_free_run _ _ _ _ _ Efree)
        as [(Hnone & _ & _)|(free0 & value' & Hf0 & Hv' & _ & ->)]; [congruence|].
      rewrite Hf in Hf0. injection Hf0 as <-.
      rewrite Hk0, Ekey in Hv'. injection Hv' as <-.
      by apply (proj1 HP).
    + apply elem_of_cons in Hin as [->|Hin]; [done|].
      eapply Hall; try done.
      destruct (link_free_run _ _ _ _ _ Efree)
        as [(_ & _ & ->)|(free0 & value' & Hf0 & _ & _ & ->)];
        rewrite inst_deleteInstance, (decide_True (P := sid scope = sid scope)), Hk0 by done;
        rewrite lookup_delete_ne by done; [done|].
      by rewrite (Hleaves key l0 free0 value' El0 Hf0 (store w)).
  - unfold mbind, M_bind, bind, update. simpl.
    intros Hrun. destruct (IH _ _ _ _ Hrun) as [Hkeep Hall]. split.
    + intros Hw. apply Hkeep. simpl. by apply (proj1 HP).
    + intros k value l free Hin Hk Hl Hf Hest.
      apply elem_of_cons in Hin as [->|Hin]; [congruence|].
      destruct (decide (k = key)) as [->|Hne]; [congruence|].
      eapply Hall; try done. simpl.
      rewrite inst_deleteInstance, (decide_True (P := sid scope = sid scope)) by done.
      by rewrite lookup_delete_ne.
Qed.

Lemma FreeOnce_range_runs scope P :
  keyed scope → freeLeavesScope scope → teardownKeeps scope P →
  ∀ keys multi w multi' w',
    FreeOnce_range scope keys multi w = (Done multi', w') →
    (P (store w) → P (store w')) ∧
    ∀ k value l free,
      k ∈ keys → inst (store w) (sid scope) !! k = Some value →
      getLink scope k = Some l → lifetime l = LifetimeOnce →
      Free (provider l) = Some free →
      (∀ st, P (free (sid scope) value st).2) →
      P (store w').
Proof.
  intros Hkeyed Hleaves HP.
  induction keys as [|key rest IH]; intros multi w multi' w'; simpl.
  { intros [= <- <-]. split; [done|]. intros k value l free Hin.
    by apply elem_of_nil in Hin. }
  destruct (inst (store w) (sid scope) !! key) as [value0|] eqn:Ekey.
  2: { intros Hrun. destruct (IH _ _ _ _ Hrun) as [Hkeep Hall]. split; [done|].
       intros k value l free Hin Hk. apply elem_of_cons in Hin as [->|Hin]; [congruence|].
       by apply Hall. }
  destruct (getLink scope key) as [l0|] eqn:El0.
  - case_decide as Hlife0.
    + unfold mbind, M_bind, bind.
      destruct (link_free l0 scope w) as [[err|] w1] eqn:Efree; [|done].
      pose proof (getLink_key _ _ _ Hkeyed El0) as Hk0.
      intros Hrun. destruct (IH _ _ _ _ Hrun) as [Hkeep Hall].
      assert (P (store w) → P (store w1)) as Hstep.
      { apply (link_free_keeps scope P l0 w err w1 HP); [|done]. by rewrite Hk0. }
      split; [by intros ?; apply Hkeep, Hstep|].
      intros k value l free Hin Hk Hl Hlife Hf Hest.
      destruct (decide (k = key)) as [->|Hne].
      * apply Hkeep. rewrite El0 in Hl. injection Hl as <-.
        rewrite Ekey in Hk. injection Hk as <-.
        destruct (link_free_run _ _ _ _ _ Efree)
          as [(Hnone & _ & _)|(free0 & value' & Hf0 & Hv' & _ & ->)]; [congruence|].
        rewrite Hf in Hf0. injection Hf0 as <-.
        rewrite Hk0, Ekey in Hv'. injection Hv' as <-.
        by apply (proj1 HP).
      * apply elem_of_cons in Hin as [->|Hin]; [done|].
        eapply Hall; try done.
        destruct (link_free_run _ _ _ _ _ Efree)
          as [(_ & _ & ->)|(free0 & value' & Hf0 & _ & _ & ->)];
          rewrite inst_deleteInstance, (decide_True (P := sid scope = sid scope)), Hk0
            by done;
          rewrite lookup_delete_ne by done; [done|].
        by rewrite (Hleaves key l0 free0 value' El0 Hf0 (store w)).
    + intros Hrun. destruct (IH _ _ _ _ Hrun) as [Hkeep Hall]. split; [done|].
      intros k value l free Hin Hk Hl Hlife Hf Hest.
      apply elem_of_cons in Hin as [->|Hin]; [congruence|]. by eapply Hall.
  - unfold mbind, M_bind, bind, update. simpl.
    intros Hrun. destruct (IH _ _ _ _ Hrun) as [Hkeep Hall]. split.
    + intros Hw. apply Hkeep. simpl. by apply (proj1 HP).
    + intros k value l free Hin Hk Hl Hlife Hf Hest.
      apply elem_of_cons in Hin as [->|Hin]; [congruence|].
      destruct (decide (k = key)) as [->|Hne]; [congruence|].
      eapply Hall; try done. simpl.
      rewrite inst_deleteInstance, (decide_True (P := sid scope = sid scope)) by done.
      by rewrite lookup_delete_ne.
Qed.

Lemma Scope_Free_runs rt scope P w err w' :
  keyed scope → freeLeavesScope scope → teardownKeeps scope P →
  Scope_Free rt scope w = (Done err, w') →
  ∀ k value l free,
    inst (store w) (sid scope) !! k = Some value →
    getLink scope k = Some l → Free (provider l) = Some free →
    (∀ st, P (free (sid scope) value st).2) →
    P (store w').
Proof.
  intros Hkeyed Hleaves HP. unfold Scope_Free, mbind, M_bind, bind.
  destruct (Free_range scope (rangeOrder rt (inst (store w) (sid scope))) [] w)
    as [[multi|] w1] eqn:Erange; [|done].
  destruct (Free_range_runs scope P Hkeyed Hleaves HP _ _ _ _ _ Erange) as [_ Hall].
  intros Hret k value l free Hk Hl Hf Hest.
  assert (w1 = w') as <- by (destruct multi; by inversion Hret).
  eapply Hall; try done. apply elem_of_rangeOrder. by rewrite Hk.
Qed.

Lemma FreeOnce_runs rt scope P w err w' :
  keyed scope → freeLeavesScope scope → teardownKeeps scope P →
  FreeOnce rt scope w = (Done err, w') →
  ∀ k value l free,
    inst (store w) (sid scope) !! k = Some value →
    getLink scope k = Some l → lifetime l = LifetimeOnce →
    Free (provider l) = Some free →
    (∀ st, P (free (sid scope) value st).2) →
    P (store w').
Proof.
  intros Hkeyed Hleaves HP. unfold FreeOnce, mbind, M_bind, bind.
  destruct (FreeOnce_range scope (rangeOrder rt (inst (store w) (sid scope))) [] w)
    as [[multi|] w1] eqn:Erange; [|done].
  destruct (FreeOnce_range_runs scope P Hkeyed Hleaves HP _ _ _ _ _ Erange) as [_ Hall].
  intros Hret k value l free Hk Hl Hlife Hf Hest.
  assert (w1 = w') as <- by (destruct multi; by inversion Hret).
  eapply Hall; try done. apply elem_of_rangeOrder. by rewrite Hk.
Qed.

Lemma Scope_Free_errors rt scope w err w' :
  keyed scope → freeLeavesScope scope →
  Scope_Free rt scope w = (Done err, w') →
  (err = None ∨
   ∃ es, err = Some (multiError es) ∧ es ≠ [] ∧ Forall (freeError scope) es) ∧
  ∀ k value l free e,
    inst (store w) (sid scope) !! k = Some value →
    getLink scope k = Some l → Free (provider l) = Some free →
    (∀ st, (free (sid scope) value st).1 = Some e) →
    ∃ es, err = Some (multiError es) ∧ e ∈ es.
Proof.
  intros Hkeyed Hleaves. unfold Scope_Free, mbind, M_bind, bind.
  destruct (Free_range scope (rangeOrder rt (inst (store w) (sid scope))) [] w)
    as [[multi|] w1] eqn:Erange; [|done].
  destruct (Free_range_errors scope Hkeyed Hleaves _ _ _ _ _ Erange) as (es & -> & Hes & Hall).
  simpl. intros Hret.
  assert (err = match es with [] => None | _ => Some (multiError es) end) as ->.
  { destruct es; by inversion Hret. }
  split.
  - destruct es as [|e0 es']; [by left|]. right. by exists (e0 :: es').
  - intros k value l free e Hk Hl Hf He.
    assert (e ∈ es) as Hin.
    { eapply Hall; try done. apply elem_of_rangeOrder. by rewrite Hk. }
    destruct es as [|e0 es']; [by apply elem_of_nil in Hin|]. by exists (e0 :: es').
Qed.

(** C1 (as amended): let the nearest provider link for [k] seen from
    [scope], on an ancestor or on [scope] itself, have lifetime
    [Scope], let [scope] cache no instance for [k], and let the
    provider's [Create] succeed with [created].  Then [Get] on [scope]
    calls [Create] once, with [scope], caches [created] in the instance
    map of [scope] and returns it; the instance map of every other
    scope, its ancestors included, is what [Create] itself left.
    [Free] on [scope] then runs the provider's [Free] on [created]: it
    calls it exactly once for the key, with [created]; an error that
    this [Free] returns on [created] is among the errors that [Free] on
    the scope returns; whatever this [Free] establishes in the store,
    and the rest of the teardown keeps, holds when [Free] on the scope
    returns; and the instance map of [scope] is then empty. *)
Theorem scope_lifetime_lives_on_requester
    (rt : Runtime) (scope : Scope) (k : rtype) (deep : link)
    (create : positive → Store → (ptr * option error) * Store)
    (free : positive → ptr → Store → option error * Store)
    (created : ptr) (st' : Store) (w : World) :
  keyed scope →
  freeLeavesScope scope →
  getLink scope k = Some deep →
  lifetime deep = LifetimeScope →
  inst (store w) (sid scope) !! k = None →
  Create (provider deep) = Some create →
  Free (provider deep) = Some free →
  create (sid scope) (store w) = ((created, None), st') →
  ∃ w1,
    Get rt scope k w = (Done (Some (VPointer k created), None), w1) ∧
    calls w1 = calls w ++ [EvCreate (sid scope) k] ∧
    inst (store w1) (sid scope) = <[k := created]> (inst st' (sid scope)) ∧
    (∀ x, x ≠ sid scope → inst (store w1) x = inst st' x) ∧
    ∃ err w2 evs,
      Scope_Free rt scope w1 = (Done err, w2) ∧
      calls w2 = calls w1 ++ evs ∧
      List.filter (isFreeOf (sid scope) k) evs = [EvFree (sid scope) k created] ∧
      inst (store w2) (sid scope) = ∅ ∧
      (∀ e, (∀ st, (free (sid scope) created st).1 = Some e) →
            ∃ es, err = Some (multiError es) ∧ e ∈ es) ∧
      (∀ P : Store → Prop,
         teardownKeeps scope P →
         (∀ st, P (free (sid scope) created st).2) →
         P (store w2)).
Proof.
  intros Hkeyed Hleaves Hdeep Hlife Hc Hcreate Hfree Hrun.
  pose proof (getLink_key _ _ _ Hkeyed Hdeep) as Hk.
  set (w1 := {| store := setInstance (sid scope) k created st';
                calls := calls w ++ [EvCreate (sid scope) k] |}).
  assert (inst (store w1) (sid scope) !! k = Some created) as Hcached.
  { simpl. rewrite inst_setInstance, decide_True by done. apply lookup_insert_eq. }
  exists w1. split; [|split; [done|split; [|split]]].
  - destruct scope as [id dyn par provs]; simpl in *. rewrite Hc, Hdeep.
    rewrite decide_True by done. unfold link_get; simpl.
    rewrite Hk, Hc, Hcreate. unfold mbind, M_bind, bind, call, update; simpl.
    by rewrite Hrun.
  - simpl. by rewrite inst_setInstance, decide_True.
  - intros x Hx. simpl. by rewrite inst_setInstance, decide_False.
  - destruct (Scope_Free_spec rt scope w1 Hkeyed Hleaves)
      as (err & w2 & evs & Hf & Hcalls & Hempty & Hevs).
    exists err, w2, evs. split; [done|]. split; [done|]. split; [|split; [done|split]].
    + rewrite Hevs, Hcached. unfold freeAllCall, freeCall. by rewrite Hdeep, Hfree.
    + intros e He.
      by apply (proj2 (Scope_Free_errors rt scope w1 err w2 Hkeyed Hleaves Hf)
                  k created deep free e).
    + intros P HP Hest.
      by apply (Scope_Free_runs rt scope P w1 err w2 Hkeyed Hleaves HP Hf k created deep free).
Qed.

(** With a provider of [Port] of lifetime [Scope] on the global scope
    whose [Free] zeroes the port: [Get] on a child creates the port
    8080 in the cell 1 and caches it on the child, not on the global
    scope; [Free] on the child then leaves the cell zeroed, which is
    the doing of the provider's [Free], and the child's map empty. *)
Lemma scope_lifetime_witness :
  ∃ w1 err w2,
    Get Demo.rt More.closingChild Demo.Port Demo.w0
      = (Done (Some (VPointer Demo.Port (Some 1%positive)), None), w1) ∧
    inst (store w1) (sid More.closingChild) !! Demo.Port = Some (Some 1%positive) ∧
    inst (store w1) (sid More.closingGlobal) = ∅ ∧
    heap (store w1) !! 1%positive = Some (VBasic Demo.Port (AInt 8080)) ∧
    Scope_Free Demo.rt More.closingChild w1 = (Done err, w2) ∧
    heap (store w2) !! 1%positive = Some (VBasic Demo.Port (AInt 0)) ∧
    inst (store w2) (sid More.closingChild) = ∅.
Proof.
  destruct (scope_lifetime_lives_on_requester Demo.rt More.closingChild Demo.Port
              {| provider := More.closingProvider LifetimeScope; key := Demo.Port |}
              Demo.createPort More.closePort (Some 1%positive)
              (alloc (VBasic Demo.Port (AInt 8080)) (store Demo.w0)).2 Demo.w0)
    as (w1 & HGet & _ & Hhere & Hthere & err & w2 & evs & HFree & _ & _ & Hempty & _ & Hruns).
  - apply keyed_new, keyed_ProvideScoped. simpl. split; [|done].
    intros k l. by rewrite lookup_empty.
  - intros k l free value Hl Hfree st. simpl in Hl.
    rewrite lookup_empty, lookup_insert in Hl. case_decide; [|done].
    injection Hl as <-. injection Hfree as <-. by destruct value.
  - reflexivity.
  - reflexivity.
  - reflexivity.
  - reflexivity.
  - reflexivity.
  - reflexivity.
  - exists w1, err, w2. split; [exact HGet|]. split; [|split; [|split; [|split; [|split]]]].
    + rewrite Hhere. apply lookup_insert_eq.
    + rewrite Hthere; [reflexivity | discriminate].
    + injection HGet as <-. reflexivity.
    + exact HFree.
    + apply (Hruns (λ st, heap st !! 1%positive = Some (VBasic Demo.Port (AInt 0)))).
      * split; [done|]. intros k l free value st Hl Hfree HP. simpl in Hl.
        rewrite lookup_empty, lookup_insert in Hl. case_decide; [|done].
        injection Hl as <-. injection Hfree as <-. destruct value as [a|]; [|done].
        simpl. destruct (decide (a = 1%positive)) as [->|Hne];
          [apply lookup_insert_eq | by rewrite lookup_insert_ne].
      * intros st. simpl. apply lookup_insert_eq.
    + exact Hempty.
Defined.

(** C1 as stated fails when a scope nearer to the descendant registers
    a provider for the same key: the global scope has a provider of
    [Database] with lifetime [Scope], a scope below it has one with
    lifetime [Forever], and a child of that scope caches nothing.
    [Get] on the child calls the [Create] of the nearer provider, with
    the scope in between, and the instance is cached on that scope:
    the map of the requesting scope stays without it. *)
Lemma Scope_lifetime_shadowed_by_nearer_provider :
  let r := Get Demo.rt More.shadowedLeaf Demo.Database Demo.w0 in
  getLink Demo.dbGlobal Demo.Database
    = Some {| provider := Demo.databaseProvider; key := Demo.Database |} ∧
  Lifetime_ Demo.databaseProvider = LifetimeScope ∧
  parent More.shadowedLeaf = Some More.shadowingMid ∧
  parent More.shadowingMid = Some Demo.dbGlobal ∧
  inst (store Demo.w0) (sid More.shadowedLeaf) !! Demo.Database = None ∧
  r.1 = Done (Some (VPointer Demo.Database (Some 1%positive)), None) ∧
  calls r.2 = [EvCreate (sid More.shadowingMid) Demo.Database] ∧
  inst (store r.2) (sid More.shadowedLeaf) !! Demo.Database = None ∧
  inst (store r.2) (sid More.shadowingMid) !! Demo.Database = Some (Some 1%positive).
Proof. vm_compute. repeat split. Qed.

(** ** [Invoke] and the teardown at its end *)

Arguments FreeOnce : simpl never.

(** An [Invoke] that returns without an error has run [FreeOnce] on the
    invoking scope as its last step. *)
Lemma Invoke_ends_with_FreeOnce rt scope fn w r w' :
  Invoke rt scope fn w = (Done (r, None), w') →
  ∃ w3 err, FreeOnce rt scope w3 = (Done err, w').
Proof.
  unfold Invoke. destruct fn as [|v|ins body]; [done | done |].
  unfold mbind, M_bind, bind.
  destruct (Invoke_args rt scope ins w) as [[[args [e|]]|] w1]; [done| |done].
  destruct (Call rt ins body args w1) as [[results|] w2]; [|done].
  destruct (Invoke_after scope args w2) as [[[e|]|] w3]; [done| |done].
  destruct (FreeOnce rt scope w3) as [[err|] w4] eqn:E; [|done].
  intros [= <- <-]. by exists w3, err.
Qed.

Lemma Invoke_drops_linkless rt scope fn w r w' k :
  keyed scope → freeLeavesScope scope →
  Invoke rt scope fn w = (Done (r, None), w') →
  getLink scope k = None →
  inst (store w') (sid scope) !! k = None.
Proof.
  intros Hkeyed Hleaves Hrun Hk.
  destruct (Invoke_ends_with_FreeOnce _ _ _ _ _ _ Hrun) as (w3 & err & Hfree).
  destruct (FreeOnce_spec rt scope w3 Hkeyed Hleaves)
    as (err' & w'' & evs & Hrun' & _ & Hmap & _).
  rewrite Hfree in Hrun'. injection Hrun' as _ <-.
  rewrite Hmap. unfold freedOnce. by rewrite Hk.
Qed.

(** C10 (as amended): [FreeOnce] removes from the instance map of the
    scope every entry whose key has no provider link on the scope or on
    an ancestor, constants stored with [Set] included, and calls no
    [Free] callback for them; so after every [Invoke] that returns
    without an error, which is when [Invoke] gets to its [FreeOnce],
    no such entry is cached on the invoking scope.  The [Free]
    callbacks that run are taken to leave the instance map of the scope
    alone. *)
Theorem FreeOnce_drops_linkless_instances
    (rt : Runtime) (scope : Scope) (w : World) :
  keyed scope →
  freeLeavesScope scope →
  (∃ err w' evs,
     FreeOnce rt scope w = (Done err, w') ∧
     calls w' = calls w ++ evs ∧
     ∀ k, getLink scope k = None →
          inst (store w') (sid scope) !! k = None ∧
          List.filter (isFreeOf (sid scope) k) evs = []) ∧
  (∀ fn r w', Invoke rt scope fn w = (Done (r, None), w') →
     ∀ k, getLink scope k = None → inst (store w') (sid scope) !! k = None).
Proof.
  intros Hkeyed Hleaves. split.
  - destruct (FreeOnce_spec rt scope w Hkeyed Hleaves)
      as (err & w' & evs & Hrun & Hcalls & Hmap & Hevs).
    exists err, w', evs. split; [done|]. split; [done|]. intros k Hk. split.
    + rewrite Hmap. unfold freedOnce. by rewrite Hk.
    + rewrite Hevs. unfold freeOnceCall. rewrite Hk.
      by destruct (inst (store w) (sid scope) !! k).
  - intros fn r w' Hrun k Hk. by eapply Invoke_drops_linkless.
Qed.

Lemma keyed_root id dyn provs :
  (∀ k l, provs !! k = Some l → key l = k) →
  keyed {| sid := id; Dynamic := dyn; parent := None; providers := provs |}.
Proof. by split. Qed.

Lemma keyed_global : keyed Demo.global.
Proof. by apply keyed_new. Qed.

Lemma keyed_child : keyed Demo.child.
Proof. apply keyed_new, keyed_global. Qed.

Lemma freeLeavesScope_no_links scope :
  (∀ k, getLink scope k = None) → freeLeavesScope scope.
Proof. intros Hn k l free value Hl. by rewrite Hn in Hl. Qed.

Lemma FreeOnce_drops_witness :
  inst (store (Invoke Demo.rt Demo.child (Demo.identity [])
                 (SetScoped Demo.child Demo.Port (Some 7%positive) Demo.w0).2).2)
       (sid Demo.child) !! Demo.Port = None.
Proof.
  pose proof (FreeOnce_drops_linkless_instances Demo.rt Demo.child
                (SetScoped Demo.child Demo.Port (Some 7%positive) Demo.w0).2
                keyed_child (freeLeavesScope_no_links Demo.child (λ k, eq_refl)))
    as [_ H].
  apply (H (Demo.identity []) (Some [])); [vm_compute | ]; reflexivity.
Defined.

(** C10 as stated fails for an [Invoke] that returns early: invoking
    something that is not a function fails with [ErrNotFunc] before
    any teardown, and the constant set on the scope, whose type has no
    provider link, is still cached. *)
Lemma Invoke_not_func_keeps_constant :
  let w1 := (SetScoped Demo.child Demo.Port (Some 7%positive) Demo.w0).2 in
  let r := Invoke Demo.rt Demo.child (NotCallable (VBasic Demo.Port (AInt 1))) w1 in
  getLink Demo.child Demo.Port = None ∧
  r.1 = Done (None, Some ErrNotFunc) ∧
  inst (store r.2) (sid Demo.child) !! Demo.Port = Some (Some 7%positive).
Proof. repeat split. Qed.

(** C3: a constant set with [SetScoped] is returned, the very pointer,
    by [Get] and [GetScoped], and is the argument that [Invoke] resolves
    for a parameter of type [*V], as long as nothing else happens; but
    one [Invoke] on the scope, of a function without parameters, is
    enough to remove it from the instance map when the type has no
    provider link, so that later requests no longer find it. *)
Theorem constant_lost_after_Invoke
    (rt : Runtime) (scope : Scope) (V : rtype) (value : ptr)
    (body : list Value → Store → list Value * Store) (w : World) :
  keyed scope →
  freeLeavesScope scope →
  getLink scope V = None →
  ∃ w1, SetScoped scope V value w = (Done tt, w1) ∧
        Get rt scope V w1 = (Done (Some (VPointer V value), None), w1) ∧
        GetScoped rt V scope w1 = (Done (value, None), w1) ∧
        Invoke_args rt scope [PointerTo V] w1 = (Done ([VPointer V value], None), w1) ∧
        ∃ results w2,
          Invoke rt scope (Func_ [] body) w1 = (Done (Some results, None), w2) ∧
          inst (store w2) (sid scope) !! V = None.
Proof.
  intros Hkeyed Hleaves Hlink. eexists. split; [reflexivity|].
  assert (inst (setInstance (sid scope) V value (store w)) (sid scope) !! V = Some value)
    as Hset.
  { rewrite inst_setInstance, decide_True by done. apply lookup_insert_eq. }
  split; [|split; [|split]].
  - destruct scope as [id dyn par provs]; simpl in *. by rewrite Hset.
  - destruct scope as [id dyn par provs]; simpl in *. by rewrite Hset.
  - unfold Invoke_args, hydrateType, mbind, M_bind, bind.
    destruct scope as [id dyn par provs]; simpl in *. by rewrite Hset.
  - set (w1 := {| store := setInstance (sid scope) V value (store w); calls := calls w |}).
    assert (∃ results w2, Invoke rt scope (Func_ [] body) w1 = (Done (Some results, None), w2))
      as (results & w2 & Hrun).
    { unfold Invoke, mbind, M_bind, bind, Call; simpl. unfold call; simpl.
      destruct (body [] (setInstance (sid scope) V value (store w)))
        as [results st2]; simpl.
      destruct (FreeOnce_spec rt scope {| store := st2; calls := calls w ++ [EvCall []] |}
                  Hkeyed Hleaves) as (err & w' & evs & -> & _).
      by eexists _, _. }
    exists results, w2. split; [done|].
    by eapply Invoke_drops_linkless.
Qed.

Lemma constant_lost_witness :
  inst (store (Invoke Demo.rt Demo.child (Demo.identity [])
                 (SetScoped Demo.child Demo.Port (Some 7%positive) Demo.w0).2).2)
       (sid Demo.child) !! Demo.Port = None.
Proof.
  destruct (constant_lost_after_Invoke Demo.rt Demo.child Demo.Port (Some 7%positive)
              (λ args st, (args, st)) Demo.w0 keyed_child
              (freeLeavesScope_no_links Demo.child (λ k, eq_refl)) eq_refl)
    as (w1 & Hset & _ & _ & _ & results & w2 & Hrun & Hgone).
  rewrite Hset. cbn [snd]. unfold Demo.identity. rewrite Hrun. exact Hgone.
Defined.

(** The run of C3 in full: the constant is found before the [Invoke]
    and [GetScoped] fails with [ErrNoProvider] after it. *)
Example constant_lost_run :
  let w1 := (SetScoped Demo.child Demo.Port (Some 7%positive) Demo.w0).2 in
  let w2 := (Invoke Demo.rt Demo.child (Demo.identity []) w1).2 in
  (GetScoped Demo.rt Demo.Port Demo.child w1).1 = Done (Some 7%positive, None) ∧
  (Invoke Demo.rt Demo.child (Demo.identity []) w1).1 = Done (Some [], None) ∧
  (GetScoped Demo.rt Demo.Port Demo.child w2).1 = Done (None, Some ErrNoProvider) ∧
  (Get Demo.rt Demo.child Demo.Port w2).1 = Done (None, Some ErrNoProvider).
Proof. vm_compute. repeat split. Qed.

(** C5: [Invoke] does not release the [Once]-lifetime instances, nor
    report the failures of the release, on these three runs.
    - The function takes a [Port], whose [Once]-lifetime provider
      succeeds, and a [Database], whose provider fails: [Invoke] returns
      the failure, has called no [Free], and the [Port] is still
      cached.
    - The function takes a [*Port] and the provider's [AfterPointerUse]
      fails: the same.
    - The function takes a [Port] and the provider's [Free] fails:
      [Free] is called, [FreeOnce] on its own reports the failure, but
      [Invoke] returns a nil error. *)
Theorem Invoke_skips_or_silences_teardown :
  (let r := Invoke Demo.rt Demo.onceAndFailingChild
              (Demo.identity [Demo.Port; Demo.Database]) Demo.w0 in
   r.1 = Done (None, Some (UserError "no database")) ∧
   calls r.2 = [EvCreate 2 Demo.Port; EvCreate 2 Demo.Database] ∧
   inst (store r.2) 2 !! Demo.Port = Some (Some 1%positive)) ∧
  (let r := Invoke Demo.rt Demo.onceAfterFailsChild
              (Demo.identity [PointerTo Demo.Port]) Demo.w0 in
   r.1 = Done (None, Some (UserError "after failed")) ∧
   calls r.2 = [EvCreate 2 Demo.Port;
                EvCall [VPointer Demo.Port (Some 1%positive)];
                EvAfterPointerUse 2 Demo.Port (Some 1%positive)] ∧
   inst (store r.2) 2 !! Demo.Port = Some (Some 1%positive)) ∧
  (let r := Invoke Demo.rt Demo.onceFreeFailsChild (Demo.identity [Demo.Port]) Demo.w0 in
   let w1 := (Get Demo.rt Demo.onceFreeFailsChild Demo.Port Demo.w0).2 in
   r.1 = Done (Some [VBasic Demo.Port (AInt 8080)], None) ∧
   calls r.2 = [EvCreate 2 Demo.Port;
                EvCall [VBasic Demo.Port (AInt 8080)];
                EvFree 2 Demo.Port (Some 1%positive)] ∧
   (FreeOnce Demo.rt Demo.onceFreeFailsChild w1).1 =
     Done (Some (multiError [UserError "free failed"]))).
Proof. vm_compute. repeat split. Qed.

(** ** The hydrator *)

Lemma hydrateValue_unfold rt scope ro inner w :
  hydrateValue rt scope ro inner w =
  match Get rt scope (typeOf inner) w with
  | (Done (val, err), w0) =>
      if negb (isNoProvider err) then
        match err with
        | None =>
            if negb (readOnly ro)
            then (x ← setFrom rt val (typeOf inner); ret (x, None)) w0
            else (Done (inner, None), w0)
        | Some e => (Done (inner, Some e), w0)
        end
      else hydrateInside rt scope ro inner w0
  | (Crash, w0) => (Crash, w0)
  end.
Proof.
  destruct inner as [| | |t [elems|]| | |]; simpl; unfold mbind, M_bind, bind;
    destruct (Get rt scope _ w) as [[[val err]|] w0]; try reflexivity;
    destruct (isNoProvider err); simpl; try reflexivity;
    destruct err; try reflexivity; destruct ro; reflexivity.
Qed.

Lemma Value_nested_ind (P : Value → Prop) :
  (∀ t a, P (VBasic t a)) →
  (∀ elem target, P (VPointer elem target)) →
  (∀ k t isNil, P (VNilable k t isNil)) →
  (∀ t, P (VSlice t None)) →
  (∀ t elems, Forall P elems → P (VSlice t (Some elems))) →
  (∀ t elems, Forall P elems → P (VArray t elems)) →
  (∀ t fields, Forall (λ field, P field.2) fields → P (VStruct t fields)) →
  (∀ t zero entries, P zero → P (VMap t zero entries)) →
  ∀ v, P v.
Proof.
  intros Hbasic Hptr Hnil Hslice0 Hslice Harray Hstruct Hmap. fix IH 1.
  intros [t a|elem target|k t isNil|t [elems|]|t elems|t fields|t zero entries].
  - apply Hbasic.
  - apply Hptr.
  - apply Hnil.
  - apply Hslice. induction elems as [|x xs IHxs]; constructor; [apply IH | exact IHxs].
  - apply Hslice0.
  - apply Harray. induction elems as [|x xs IHxs]; constructor; [apply IH | exact IHxs].
  - apply Hstruct. induction fields as [|x xs IHxs]; constructor; [apply IH | exact IHxs].
  - apply Hmap. apply IH.
Qed.

Lemma forEach_nil {A} (f : A → M (A * option error)) w :
  forEach f [] w = (Done ([], None), w).
Proof. reflexivity. Qed.

Lemma forEach_cons {A} (f : A → M (A * option error)) item rest w :
  forEach f (item :: rest) w =
  match f item w with
  | (Done (item', Some e), w1) => (Done (item' :: rest, Some e), w1)
  | (Done (item', None), w1) =>
      match forEach f rest w1 with
      | (Done (rest', err), w2) => (Done (item' :: rest', err), w2)
      | (Crash, w2) => (Crash, w2)
      end
  | (Crash, w1) => (Crash, w1)
  end.
Proof.
  simpl. unfold mbind, M_bind, bind.
  destruct (f item w) as [[[item' [e|]]|] w1]; try reflexivity.
  by destruct (forEach f rest w1) as [[[rest' err]|] w2].
Qed.

(** The loop stops at the first sub-slot that fails: the sub-slots
    after it are as they were and nothing more runs. *)
Lemma forEach_abort {A} (f : A → M (A * option error)) pre x post pre' x' e w0 w1 w2 :
  forEach f pre w0 = (Done (pre', None), w1) →
  f x w1 = (Done (x', Some e), w2) →
  forEach f (pre ++ x :: post) w0 = (Done (pre' ++ x' :: post, Some e), w2).
Proof.
  revert pre' w0. induction pre as [|y pre IH]; intros pre' w0.
  - rewrite forEach_nil. intros [= <- <-] Hx. simpl app. by rewrite forEach_cons, Hx.
  - rewrite forEach_cons. simpl app. rewrite forEach_cons.
    destruct (f y w0) as [[[y' [e'|]]|] wy]; [done| |done].
    destruct (forEach f pre wy) as [[[pre1 err]|] wp] eqn:E; [|done].
    intros [= <- -> <-] Hx. by rewrite (IH pre1 wy E Hx).
Qed.

(** The loop goes on after a sub-slot that does not fail. *)
Lemma forEach_continue {A} (f : A → M (A * option error)) pre x post pre' x' w0 w1 w2 :
  forEach f pre w0 = (Done (pre', None), w1) →
  f x w1 = (Done (x', None), w2) →
  forEach f (pre ++ x :: post) w0 =
  match forEach f post w2 with
  | (Done (post', err), w3) => (Done (pre' ++ x' :: post', err), w3)
  | (Crash, w3) => (Crash, w3)
  end.
Proof.
  revert pre' w0. induction pre as [|y pre IH]; intros pre' w0.
  - rewrite forEach_nil. intros [= <- <-] Hx. simpl app. by rewrite forEach_cons, Hx.
  - rewrite forEach_cons. simpl app. rewrite forEach_cons.
    destruct (f y w0) as [[[y' [e'|]]|] wy]; [done| |done].
    destruct (forEach f pre wy) as [[[pre1 err]|] wp] eqn:E; [|done].
    intros [= <- -> <-] Hx. rewrite (IH pre1 wy E Hx).
    by destruct (forEach f post w2) as [[[post' err]|] w3].
Qed.

Lemma forEach_error {A} (f : A → M (A * option error)) (Q : error → Prop) items :
  Forall (λ x, ∀ w x' e w', f x w = (Done (x', Some e), w') → Q e) items →
  ∀ w items' e w', forEach f items w = (Done (items', Some e), w') → Q e.
Proof.
  induction 1 as [|x xs Hx Hxs IH]; intros w items' e w'.
  - by rewrite forEach_nil.
  - rewrite forEach_cons. destruct (f x w) as [[[x' [e'|]]|] w1] eqn:Ex; [| |done].
    + intros [= <- <- <-]. by eapply Hx.
    + destruct (forEach f xs w1) as [[[xs' err]|] w2] eqn:Exs; [|done].
      intros [= <- -> <-]. by eapply IH.
Qed.

(** No failure of [hydrateValue] is [ErrNoProvider]. *)
Lemma hydrateValue_never_NoProvider rt scope inner :
  ∀ ro w v' e w',
    hydrateValue rt scope ro inner w = (Done (v', Some e), w') → e ≠ ErrNoProvider.
Proof.
  induction inner as [t a|elem target|k t isNil|t|t elems IH|t elems IH|t fields IH
                     |t zero entries IH] using Value_nested_ind;
    intros ro w v' e w'; rewrite hydrateValue_unfold;
    destruct (Get rt scope _ w) as [[[val err]|] w0]; try done;
    (destruct (isNoProvider err) eqn:En; simpl;
     [|destruct err as [e0|];
       [intros [= <- <- <-]; by destruct e0
       |destruct ro; simpl; try done;
        unfold mbind, M_bind, bind; by destruct (setFrom rt val _ w0) as [[x|] wx]]]);
    try done; unfold mbind, M_bind, bind.
  - destruct (forEach _ elems w0) as [[[elems' err']|] w1] eqn:E; [|done].
    intros [= <- -> <-]. revert E. apply (forEach_error _ (λ e, e ≠ ErrNoProvider)).
    eapply Forall_impl; [exact IH|]. intros x Hx w2 x' e2 w3. apply Hx.
  - destruct (forEach _ elems w0) as [[[elems' err']|] w1] eqn:E; [|done].
    intros [= <- -> <-]. revert E. apply (forEach_error _ (λ e, e ≠ ErrNoProvider)).
    eapply Forall_impl; [exact IH|]. intros x Hx w2 x' e2 w3. apply Hx.
  - destruct (forEach _ fields w0) as [[[fields' err']|] w1] eqn:E; [|done].
    intros [= <- -> <-]. revert E. apply (forEach_error _ (λ e, e ≠ ErrNoProvider)).
    eapply Forall_impl; [exact IH|]. intros x Hx w2 x' e2 w3.
    unfold hydrateField, mbind, M_bind, bind.
    destruct (hydrateValue rt scope (fieldAccess ro x.1) x.2 w2)
      as [[[v1 err1]|] w4] eqn:E1; [|done].
    intros [= <- -> <-]. by eapply Hx.
  - destruct (forEach _ entries w0) as [[[entries' err']|] w1] eqn:E; [|done].
    intros [= <- -> <-]. revert E. apply (forEach_error _ (λ e, e ≠ ErrNoProvider)).
    apply Forall_forall. intros x _ w2 x' e2 w3.
    unfold hydrateEntry, mbind, M_bind, bind.
    destruct (hydrateValue rt scope ReadWrite zero w2) as [[[v1 [e1|]]|] w4] eqn:E1;
      [| |done].
    + intros [= <- <- <-]. by eapply IH.
    + by destruct ro.
Qed.

Lemma hydrateValue_unresolved rt scope ro inner w val w0 :
  Get rt scope (typeOf inner) w = (Done (val, Some ErrNoProvider), w0) →
  hydrateValue rt scope ro inner w = hydrateInside rt scope ro inner w0.
Proof. intros H. by rewrite hydrateValue_unfold, H. Qed.

Lemma hydrateValue_leaf rt scope ro inner w val w0 :
  Get rt scope (typeOf inner) w = (Done (val, Some ErrNoProvider), w0) →
  isLeaf inner = true →
  hydrateValue rt scope ro inner w = (Done (inner, None), w0).
Proof.
  intros H Hleaf. rewrite (hydrateValue_unresolved _ _ _ _ _ _ _ H).
  by destruct inner as [| | |t [elems|]| | |].
Qed.

Lemma hydrateValue_fails rt scope ro inner w val e w0 :
  Get rt scope (typeOf inner) w = (Done (val, Some e), w0) →
  e ≠ ErrNoProvider →
  hydrateValue rt scope ro inner w = (Done (inner, Some e), w0).
Proof. intros H He. rewrite hydrateValue_unfold, H. by destruct e. Qed.

(** C6 (as amended): [Hydrate] fails with [ErrNotPointer] on anything
    but a pointer, and otherwise returns what [hydrateValue] returns
    for the cell pointed to.  In [hydrateValue]:
    - a slot of a kind that is not traversed (anything but a struct,
      an array, a non-nil slice or a map) whose type resolves with
      [ErrNoProvider] is left as it is, without an error;
    - a slot whose type resolves with any other error is left as it is
      and that error is returned at once, in the state the resolution
      left;
    - a struct, array or slice whose own type resolves with
      [ErrNoProvider] is traversed: once the sub-slots [pre] are
      hydrated without an error, if hydrating the next sub-slot gives
      no error (as for an unresolved leaf, by the first item) the loop
      goes on with the sub-slots after it, and if it gives an error (as
      for a failed resolution, by the second item) that error is the
      result, the sub-slots after it are as they were, and the state is
      the one that sub-slot left;
    - no failure is ever [ErrNoProvider]. *)
Theorem Hydrate_leaves_unresolved_and_stops_on_failure (rt : Runtime) (scope : Scope) :
  (∀ value w,
     (∀ elem target, value ≠ Some (VPointer elem target)) →
     Hydrate rt scope value w = (Done (Some ErrNotPointer), w)) ∧
  (∀ elem a inner w inner' err w1,
     heap (store w) !! a = Some inner →
     hydrateValue rt scope ReadWrite inner w = (Done (inner', err), w1) →
     (Hydrate rt scope (Some (VPointer elem (Some a))) w).1 = Done err) ∧
  (∀ ro inner w val w0,
     Get rt scope (typeOf inner) w = (Done (val, Some ErrNoProvider), w0) →
     isLeaf inner = true →
     hydrateValue rt scope ro inner w = (Done (inner, None), w0)) ∧
  (∀ ro inner w val e w0,
     Get rt scope (typeOf inner) w = (Done (val, Some e), w0) →
     e ≠ ErrNoProvider →
     hydrateValue rt scope ro inner w = (Done (inner, Some e), w0)) ∧
  (∀ ro t pre kind x post w val w0 pre' w1 x' w2,
     Get rt scope t w = (Done (val, Some ErrNoProvider), w0) →
     forEach (hydrateField rt scope ro) pre w0 = (Done (pre', None), w1) →
     (hydrateValue rt scope (fieldAccess ro kind) x w1 = (Done (x', None), w2) →
      hydrateValue rt scope ro (VStruct t (pre ++ (kind, x) :: post)) w =
      match forEach (hydrateField rt scope ro) post w2 with
      | (Done (post', err), w3) =>
          (Done (VStruct t (pre' ++ (kind, x') :: post'), err), w3)
      | (Crash, w3) => (Crash, w3)
      end) ∧
     (∀ e, hydrateValue rt scope (fieldAccess ro kind) x w1 = (Done (x', Some e), w2) →
           hydrateValue rt scope ro (VStruct t (pre ++ (kind, x) :: post)) w =
           (Done (VStruct t (pre' ++ (kind, x') :: post), Some e), w2))) ∧
  (∀ ro t (wrap : list Value → Value) pre x post w val w0 pre' w1 x' w2,
     wrap = VArray t ∨ wrap = (λ elems, VSlice t (Some elems)) →
     Get rt scope t w = (Done (val, Some ErrNoProvider), w0) →
     forEach (hydrateValue rt scope (indexAccess ro)) pre w0 = (Done (pre', None), w1) →
     (hydrateValue rt scope (indexAccess ro) x w1 = (Done (x', None), w2) →
      hydrateValue rt scope ro (wrap (pre ++ x :: post)) w =
      match forEach (hydrateValue rt scope (indexAccess ro)) post w2 with
      | (Done (post', err), w3) => (Done (wrap (pre' ++ x' :: post'), err), w3)
      | (Crash, w3) => (Crash, w3)
      end) ∧
     (∀ e, hydrateValue rt scope (indexAccess ro) x w1 = (Done (x', Some e), w2) →
           hydrateValue rt scope ro (wrap (pre ++ x :: post)) w =
           (Done (wrap (pre' ++ x' :: post), Some e), w2))) ∧
  (∀ ro inner w inner' e w',
     hydrateValue rt scope ro inner w = (Done (inner', Some e), w') →
     e ≠ ErrNoProvider).
Proof.
  split; [|split; [|split; [|split; [|split; [|split]]]]].
  - intros value w Hv. destruct value as [[| elem target| | | | |]|]; try reflexivity.
    by destruct (Hv elem target).
  - intros elem a inner w inner' err w1 Ha Hrun. unfold Hydrate.
    rewrite Ha. unfold mbind, M_bind, bind. by rewrite Hrun.
  - intros ro inner w val w0. apply hydrateValue_leaf.
  - intros ro inner w val e w0. apply hydrateValue_fails.
  - intros ro t pre kind x post w val w0 pre' w1 x' w2 Ht Hpre. split.
    + intros Hx.
      rewrite (hydrateValue_unresolved rt scope ro (VStruct t _) w val w0 Ht).
      unfold hydrateInside, mbind, M_bind, bind.
      rewrite (forEach_continue _ pre (kind, x) post pre' (kind, x') w0 w1 w2 Hpre).
      * by destruct (forEach (hydrateField rt scope ro) post w2) as [[[post' err]|] w3].
      * unfold hydrateField, mbind, M_bind, bind. simpl. by rewrite Hx.
    + intros e Hx.
      rewrite (hydrateValue_unresolved rt scope ro (VStruct t _) w val w0 Ht).
      unfold hydrateInside, mbind, M_bind, bind.
      rewrite (forEach_abort _ pre (kind, x) post pre' (kind, x') e w0 w1 w2 Hpre);
        [done|].
      unfold hydrateField, mbind, M_bind, bind. simpl. by rewrite Hx.
  - intros ro t wrap pre x post w val w0 pre' w1 x' w2 Hwrap Ht Hpre. split.
    + intros Hx.
      assert (typeOf (wrap (pre ++ x :: post)) = t) as Hty by (by destruct Hwrap as [->| ->]).
      rewrite (hydrateValue_unresolved rt scope ro _ w val w0); [|by rewrite Hty].
      pose proof (forEach_continue (hydrateValue rt scope (indexAccess ro)) pre x post pre' x' w0 w1 w2
                    Hpre Hx) as Hloop.
      destruct Hwrap as [->| ->]; unfold hydrateInside, mbind, M_bind, bind;
        rewrite Hloop;
        by destruct (forEach (hydrateValue rt scope (indexAccess ro)) post w2) as [[[post' err]|] w3].
    + intros e Hx.
      assert (typeOf (wrap (pre ++ x :: post)) = t) as Hty by (by destruct Hwrap as [->| ->]).
      rewrite (hydrateValue_unresolved rt scope ro _ w val w0); [|by rewrite Hty].
      pose proof (forEach_abort (hydrateValue rt scope (indexAccess ro)) pre x post pre' x' e w0 w1 w2
                    Hpre Hx) as Hloop.
      destruct Hwrap as [->| ->]; unfold hydrateInside, mbind, M_bind, bind;
        by rewrite Hloop.
  - intros ro inner. apply hydrateValue_never_NoProvider.
Qed.

Lemma Hydrate_witness :
  Hydrate Demo.rt Demo.child (Some (VBasic Demo.Port (AInt 1))) Demo.w0
    = (Done (Some ErrNotPointer), Demo.w0) ∧
  hydrateValue Demo.rt Demo.child ReadWrite (VBasic Demo.Port (AInt 5)) Demo.w0
    = (Done (VBasic Demo.Port (AInt 5), None), Demo.w0) ∧
  hydrateValue Demo.rt Demo.onceAndFailingChild ReadWrite (Demo.config "n" 7) Demo.w0
    = (Done (Demo.config "n" 7, Some (UserError "no database")),
       {| store := store Demo.w0; calls := [EvCreate 2 Demo.Database] |}).
Proof.
  destruct (Hydrate_leaves_unresolved_and_stops_on_failure Demo.rt Demo.child)
    as (HnotPointer & _ & Hleaf & _).
  destruct (Hydrate_leaves_unresolved_and_stops_on_failure Demo.rt Demo.onceAndFailingChild)
    as (_ & _ & _ & Hfails & Hstruct & _).
  split; [|split].
  - apply HnotPointer. intros elem target. discriminate.
  - apply (Hleaf ReadWrite (VBasic Demo.Port (AInt 5)) Demo.w0 None Demo.w0); reflexivity.
  - apply (Hstruct ReadWrite Demo.Config [(Exported, VBasic Demo.Name (AString "n"))]
             Exported (VStruct Demo.Database []) [(Exported, VBasic Demo.Port (AInt 7))]
             Demo.w0 None Demo.w0 [(Exported, VBasic Demo.Name (AString "n"))] Demo.w0
             (VStruct Demo.Database [])
             {| store := store Demo.w0; calls := [EvCreate 2 Demo.Database] |}).
    + reflexivity.
    + reflexivity.
    + apply (Hfails ReadWrite (VStruct Demo.Database []) Demo.w0
               (Some (VPointer Demo.Database None))); [reflexivity | discriminate].
Defined.

(** C6 as stated fails for a sub-slot that is itself a struct: with a
    constant for [Port] and nothing for [Env], the field [Env] of a
    [Wrapper] is addressable and its type resolves with
    [ErrNoProvider], yet it is not left at its zero value: its own
    field [Port] is filled. *)
Lemma Hydrate_fills_inside_unresolved_struct :
  let w1 := (Scope_Set Demo.child (Some (VBasic Demo.Port (AInt 8080))) Demo.w0).2 in
  (Get Demo.rt Demo.child Demo.Env w1).1 = Done (None, Some ErrNoProvider) ∧
  (hydrateValue Demo.rt Demo.child ReadWrite (Demo.wrapper 0 0) w1).1 =
    Done (Demo.wrapper 8080 0, None) ∧
  Demo.env 8080 0 ≠ Demo.env 0 0.
Proof. vm_compute. repeat split. discriminate. Qed.

(** [TestSetInvokeValue], [TestProvideInvokeValue] and
    [TestSetInvokePointer] on the model: the function is called with
    the port that was set or provided, and a write through the pointer
    argument reaches the cell of the constant. *)
Example Invoke_tests_run :
  let w1 := (Scope_Set Demo.child (Some (VBasic Demo.Port (AInt 8080))) Demo.w0).2 in
  (Invoke Demo.rt Demo.child (Demo.identity [Demo.Port]) w1).1 =
    Done (Some [VBasic Demo.Port (AInt 8080)], None) ∧
  (Invoke Demo.rt (ProvideScoped Demo.child Demo.Port (Demo.portProvider LifetimeForever))
     (Demo.identity [Demo.Port]) Demo.w0).1 =
    Done (Some [VBasic Demo.Port (AInt 8080)], None) ∧
  heap (store (Invoke Demo.rt Demo.child Demo.writePort w1).2) !! 1%positive =
    Some (VBasic Demo.Port (AInt 4040)).
Proof. vm_compute. repeat split. Qed.

(** [TestDynamic] on the model: [GetScoped[int]] on a child whose
    [Dynamic] callback answers 42 returns a pointer to a fresh 42. *)
Example GetScoped_dynamic_run :
  let r := GetScoped Demo.rt Demo.Port Demo.dynamicChild Demo.w0 in
  r.1 = Done (Some 1%positive, None) ∧
  heap (store r.2) !! 1%positive = Some (VBasic Demo.Port (AInt 42)) ∧
  instances (store r.2) = ∅.
Proof. vm_compute. repeat split. Qed.

(** [TestStructValue]: the exported field whose type has a constant is
    filled, the unexported one is left; and with no constant both stay
    at their zero value, without an error. *)
Example Hydrate_struct_run :
  let w1 := (Scope_Set Demo.child (Some (VBasic Demo.Port (AInt 8080))) Demo.w0).2 in
  (hydrateValue Demo.rt Demo.child ReadWrite (zeroValue Demo.rt Demo.Env) w1).1 =
    Done (VStruct Demo.Env [(Exported, VBasic Demo.Port (AInt 8080));
                            (Unexported, VBasic Demo.Port (AInt 0))], None) ∧
  (hydrateValue Demo.rt Demo.child ReadWrite (zeroValue Demo.rt Demo.Env) Demo.w0).1 =
    Done (zeroValue Demo.rt Demo.Env, None).
Proof. vm_compute. split; reflexivity. Qed.

(** ** Lifetime [Once] *)

Lemma tracks_refl x T w : tracks x T w w.
Proof. exists []. rewrite app_nil_r. split; [done|]. split; [done|]. by left. Qed.

Lemma tracks_trans x T w w1 w2 : tracks x T w w1 → tracks x T w1 w2 → tracks x T w w2.
Proof.
  intros (evs1 & Hc1 & Hf1 & H1) (evs2 & Hc2 & Hf2 & H2). exists (evs1 ++ evs2).
  split; [by rewrite Hc2, Hc1, <-app_assoc|].
  split; [by rewrite List.filter_app, Hf1, Hf2|].
  rewrite List.filter_app, length_app.
  destruct H1 as [[Hi1 Hn1]|(Hb1 & Ha1 & Hn1)], H2 as [[Hi2 Hn2]|(Hb2 & Ha2 & Hn2)].
  - left. split; [congruence | by rewrite Hn1, Hn2].
  - right. split; [congruence|]. split; [done|]. by rewrite Hn1, Hn2.
  - right. split; [done|]. split; [by rewrite Hi2|]. by rewrite Hn1, Hn2.
  - rewrite Hb2 in Ha1. by destruct Ha1.
Qed.

Lemma tracks_cached x T w w1 :
  tracks x T w w1 → is_Some (inst (store w) x !! T) → is_Some (inst (store w1) x !! T).
Proof.
  intros (evs & _ & _ & [[Hi _]|(Hb & Ha & _)]) Hs; [by rewrite Hi | done].
Qed.

Lemma tracking_ret {A} x T (a : A) : tracking x T (ret a).
Proof. intros w. apply tracks_refl. Qed.

Lemma tracking_panic {A} x T : tracking x T (@panic A).
Proof. intros w. apply tracks_refl. Qed.

Lemma tracking_bind {A B} x T (m : M A) (k : A → M B) :
  tracking x T m → (∀ a, tracking x T (k a)) → tracking x T (bind m k).
Proof.
  intros Hm Hk w. unfold bind. specialize (Hm w).
  destruct (m w) as [[a|] w1]; [|exact Hm].
  eapply tracks_trans; [exact Hm | apply Hk].
Qed.

Lemma tracking_call {A} x T (ev : Event) (cb : Store → A * Store) :
  leavesScope x cb → isFreeOf x T ev = false → isCreateOf x T ev = false →
  tracking x T (call ev cb).
Proof.
  intros Hl Hf Hc w. unfold call. specialize (Hl (store w)).
  destruct (cb (store w)) as [a st]; simpl in *. exists [ev]. split; [done|].
  simpl. rewrite Hf, Hc. split; [done|]. left. by rewrite Hl.
Qed.

Lemma tracking_update x T (f : Store → Store) :
  (∀ st, inst (f st) x !! T = inst st x !! T) → tracking x T (update f).
Proof.
  intros Hf w. exists []. simpl. rewrite app_nil_r. split; [done|]. split; [done|].
  left. by rewrite Hf.
Qed.

Lemma tracking_silent {A} x T (m : M A) :
  (∀ w, ∃ st, (m w).2 = {| store := st; calls := calls w |} ∧
              inst st x = inst (store w) x) →
  tracking x T m.
Proof.
  intros Hm w. destruct (Hm w) as (st & -> & Hi). exists []. simpl.
  rewrite app_nil_r. split; [done|]. split; [done|]. left. by rewrite Hi.
Qed.

Lemma quietFor_here x scope k l :
  quietFor x scope → providers scope !! k = Some l →
  (∀ create s, Create (provider l) = Some create → leavesScope x (create s)) ∧
  (∀ after s value, AfterPointerUse (provider l) = Some after →
                    leavesScope x (after s value)) ∧
  (∀ free s value, Free (provider l) = Some free → leavesScope x (free s value)).
Proof. destruct scope; simpl. intros [H _]. apply H. Qed.

Lemma quietFor_dynamic x scope f k s :
  quietFor x scope → Dynamic scope = Some f → leavesScope x (f k s).
Proof. destruct scope; simpl. intros (_ & H & _). apply H. Qed.

Lemma quietFor_parent x scope p :
  parent scope = Some p → quietFor x scope → quietFor x p.
Proof. destruct scope; simpl. intros ->. by intros (_ & _ & H). Qed.

Lemma quietFor_getLink x scope k l :
  quietFor x scope → getLink scope k = Some l →
  (∀ create s, Create (provider l) = Some create → leavesScope x (create s)) ∧
  (∀ after s value, AfterPointerUse (provider l) = Some after →
                    leavesScope x (after s value)) ∧
  (∀ free s value, Free (provider l) = Some free → leavesScope x (free s value)).
Proof.
  revert scope. refine (Scope_chain_ind _ _ _).
  - intros s Hroot Hq. pose proof (quietFor_here x s k) as Hh.
    destruct s as [id dyn par provs]; simpl in *.
    destruct (provs !! k) as [l'|] eqn:E; [intros [= <-]; by apply Hh | by rewrite Hroot].
  - intros s p Hp IH Hq. pose proof (quietFor_here x s k) as Hh.
    pose proof (quietFor_parent x s p Hp Hq) as Hqp.
    destruct s as [id dyn par provs]; simpl in *. subst par.
    destruct (provs !! k) as [l'|] eqn:E; [intros [= <-]; by apply Hh | by apply IH].
Qed.

Lemma quietFor_freeLeavesScope scope : quietFor (sid scope) scope → freeLeavesScope scope.
Proof.
  intros Hq k l free value Hl Hfree.
  destruct (quietFor_getLink _ _ _ _ Hq Hl) as (_ & _ & H). by eapply H.
Qed.

Lemma apart_here x scope : apart x scope → sid scope ≠ x.
Proof. destruct scope; simpl. by intros [H _]. Qed.

Lemma apart_parent x scope p : parent scope = Some p → apart x scope → apart x p.
Proof. destruct scope; simpl. intros ->. by intros [_ H]. Qed.

(** [link.get] for a key other than [T], or on a scope other than
    [x]. *)
Lemma link_get_tracking_other x T l scope :
  (∀ create s, Create (provider l) = Some create → leavesScope x (create s)) →
  sid scope ≠ x ∨ key l ≠ T →
  tracking x T (link_get l scope).
Proof.
  intros Hq Hother w. unfold link_get.
  destruct (inst (store w) (sid scope) !! key l); [apply tracks_refl|].
  destruct (Create (provider l)) as [create|] eqn:Ec; [|apply tracks_refl].
  apply tracking_bind.
  - apply tracking_call; [by eapply Hq | done |]. simpl.
    apply bool_decide_eq_false. intros [? ?]. by destruct Hother.
  - intros [created [e|]]; [apply tracking_ret|].
    apply tracking_bind; [|intros; apply tracking_ret].
    apply tracking_update. intros st. rewrite inst_setInstance.
    case_decide as Hs; [|done]. subst x.
    destruct Hother as [?|?]; [done|]. by rewrite lookup_insert_ne.
Qed.

Lemma GetDynamic_tracking rt x T k : tracking x T (GetDynamic rt k).
Proof.
  apply tracking_silent. intros w. destruct (GetDynamic_spec rt k w) as (st & -> & Hi & _).
  exists st. split; [done|]. unfold inst. by rewrite Hi.
Qed.

Lemma Get_dynamic_tracking rt x T scope k :
  provideDynamicQuietFor x rt →
  (∀ f k s, Dynamic scope = Some f → leavesScope x (f k s)) →
  tracking x T (Get_dynamic rt scope k).
Proof.
  intros Hpd Hd. unfold Get_dynamic. apply tracking_bind; [apply GetDynamic_tracking|].
  intros [d|].
  - apply tracking_bind.
    + unfold ProvideDynamic. destruct (provideDynamic rt d.1) as [method|] eqn:Em;
        [|apply tracking_panic].
      apply tracking_call; [by eapply Hpd | done | done].
    + intros [e|]; apply tracking_ret.
  - destruct (Dynamic scope) as [f|] eqn:Ef; [|apply tracking_ret].
    apply tracking_bind.
    + apply tracking_call; [by eapply Hd | done | done].
    + intros [dyn [e|]]; [apply tracking_ret|]. destruct dyn; apply tracking_ret.
Qed.

(** [Get] on a scope whose chain does not contain [x]. *)
Lemma Get_tracking_apart rt x T k :
  provideDynamicQuietFor x rt →
  ∀ scope, apart x scope → quietFor x scope → tracking x T (λ w, Get rt scope k w).
Proof.
  intros Hpd. refine (Scope_chain_ind _ _ _).
  - intros s Hroot Ha Hq w.
    pose proof (apart_here _ _ Ha) as Hsid.
    pose proof (quietFor_here x s k) as Hlocal.
    pose proof (λ f k' s', quietFor_dynamic x s f k' s' Hq) as Hdyn.
    destruct s as [id dyn par provs]; simpl in *. subst par.
    destruct (inst (store w) id !! k); [apply tracks_refl|].
    destruct (provs !! k) as [l|] eqn:El.
    + assert (tracks x T w (link_get l {| sid := id; Dynamic := dyn; parent := None;
                                          providers := provs |} w).2) as Hl.
      { apply link_get_tracking_other; [|by left]. by apply (Hlocal l Hq). }
      by case_decide.
    + by apply Get_dynamic_tracking.
  - intros s p Hp IH Ha Hq w.
    pose proof (apart_here _ _ Ha) as Hsid.
    pose proof (quietFor_here x s k) as Hlocal.
    pose proof (quietFor_getLink x s k) as Hdeep.
    pose proof (λ f k' s', quietFor_dynamic x s f k' s' Hq) as Hdyn.
    specialize (IH (apart_parent _ _ _ Hp Ha) (quietFor_parent _ _ _ Hp Hq)).
    destruct s as [id dyn par provs]; simpl in *. subst par.
    destruct (inst (store w) id !! k); [apply tracks_refl|].
    assert (∀ l, (∀ create s, Create (provider l) = Some create → leavesScope x (create s)) →
                 tracks x T w (link_get l {| sid := id; Dynamic := dyn; parent := Some p;
                                             providers := provs |} w).2) as Hlink.
    { intros l Hl. apply link_get_tracking_other; [done | by left]. }
    assert (tracks x T w
              (match Get rt p k w with
               | (Done (par, err), w1) =>
                   if isNoProvider err
                   then Get_dynamic rt {| sid := id; Dynamic := dyn; parent := Some p;
                                          providers := provs |} k w1
                   else (Done (par, err), w1)
               | (Crash, w1) => (Crash, w1)
               end).2) as Hup.
    { specialize (IH w). destruct (Get rt p k w) as [[[par err]|] w1]; [|exact IH].
      destruct (isNoProvider err); [|exact IH].
      eapply tracks_trans; [exact IH|]. by apply Get_dynamic_tracking. }
    destruct (provs !! k) as [l|] eqn:El.
    + specialize (Hlink l (proj1 (Hlocal l Hq eq_refl))). by case_decide.
    + destruct (getLink p k) as [deep|] eqn:Ed; [|exact Hup].
      case_decide; [|exact Hup]. apply Hlink. by apply (Hdeep deep Hq).
Qed.

Lemma link_get_once rt scope T l create w :
  onceProvider rt scope T l create →
  inst (store w) (sid scope) !! T = None →
  ∃ created st',
    create (sid scope) (store w) = ((created, None), st') ∧
    link_get l scope w =
      (Done (Some (VPointer T created), None),
       {| store := setInstance (sid scope) T created st';
          calls := calls w ++ [EvCreate (sid scope) T] |}).
Proof.
  intros H Hc. pose proof (once_keyed _ _ _ _ _ H) as Hkeyed.
  assert (key l = T) as Hk.
  { eapply getLink_key; [exact Hkeyed|]. apply getLink_local, (once_link _ _ _ _ _ H). }
  unfold link_get. rewrite Hk, Hc, (once_create _ _ _ _ _ H).
  unfold mbind, M_bind, bind, call, update.
  pose proof (once_succeeds _ _ _ _ _ H (sid scope) (store w)) as Hok.
  destruct (create (sid scope) (store w)) as [[created err] st']; simpl in *. subst err.
  by exists created, st'.
Qed.

Lemma link_get_once_tracking rt scope T l create :
  onceProvider rt scope T l create → tracking (sid scope) T (link_get l scope).
Proof.
  intros H w. destruct (inst (store w) (sid scope) !! T) as [p|] eqn:Ec.
  - assert (key l = T) as Hk.
    { eapply getLink_key; [exact (once_keyed _ _ _ _ _ H)|].
      apply getLink_local, (once_link _ _ _ _ _ H). }
    unfold link_get. rewrite Hk, Ec. apply tracks_refl.
  - destruct (link_get_once rt scope T l create w H Ec) as (created & st' & Hrun & ->).
    exists [EvCreate (sid scope) T]. simpl. split; [done|].
    rewrite bool_decide_true by done. split; [done|]. right. split; [done|].
    split; [|done]. rewrite inst_setInstance, decide_True by done.
    by rewrite lookup_insert_eq.
Qed.

(** [Get] on the scope that owns the [Once]-lifetime provider. *)
Lemma Get_once_tracking rt scope T l create k :
  onceProvider rt scope T l create → tracking (sid scope) T (λ w, Get rt scope k w).
Proof.
  intros H w.
  pose proof (once_keyed _ _ _ _ _ H) as Hkeyed.
  pose proof (once_quiet _ _ _ _ _ H) as Hq.
  pose proof (once_dynamic_quiet _ _ _ _ _ H) as Hpd.
  pose proof (once_apart _ _ _ _ _ H) as Ha.
  pose proof (once_link _ _ _ _ _ H) as Hl.
  pose proof (once_lifetime _ _ _ _ _ H) as Hlife.
  pose proof (link_get_once_tracking rt scope T l create H w) as Hself.
  pose proof (quietFor_here (sid scope) scope k) as Hlocal.
  pose proof (quietFor_getLink (sid scope) scope k) as Hdeep.
  pose proof (λ f k' s', quietFor_dynamic (sid scope) scope f k' s' Hq) as Hdyn.
  pose proof (getLink_key scope k) as Hkey.
  pose proof (getLink_local scope k) as Hgl.
  assert (∀ l', key l' = k → k ≠ T →
            (∀ create s, Create (provider l') = Some create →
                         leavesScope (sid scope) (create s)) →
            tracks (sid scope) T w (link_get l' scope w).2) as Hother.
  { intros l' Hk Hne Hc. apply link_get_tracking_other; [done|]. right. congruence. }
  assert (tracks (sid scope) T w
            (match parent scope with
             | Some p =>
                 match Get rt p k w with
                 | (Done (par, err), w1) =>
                     if isNoProvider err then Get_dynamic rt scope k w1
                     else (Done (par, err), w1)
                 | (Crash, w1) => (Crash, w1)
                 end
             | None => Get_dynamic rt scope k w
             end).2) as Hup.
  { destruct (parent scope) as [p|] eqn:Hp; [|by apply Get_dynamic_tracking].
    pose proof (Get_tracking_apart rt (sid scope) T k Hpd p Ha
                  (quietFor_parent _ _ _ Hp Hq) w) as Hparent. simpl in Hparent.
    destruct (Get rt p k w) as [[[par err]|] w1]; [|exact Hparent].
    destruct (isNoProvider err); [|exact Hparent].
    eapply tracks_trans; [exact Hparent|]. by apply Get_dynamic_tracking. }
  destruct scope as [id dyn par provs]; simpl in *.
  destruct (inst (store w) id !! k) eqn:Ec; [apply tracks_refl|].
  destruct (decide (k = T)) as [->|Hne].
  - rewrite Hl. rewrite decide_False by (unfold lifetime in *; congruence). exact Hself.
  - destruct (provs !! k) as [l'|] eqn:El.
    + assert (tracks (sid {| sid := id; Dynamic := dyn; parent := par; providers := provs |}) T w
                (link_get l' {| sid := id; Dynamic := dyn; parent := par;
                                providers := provs |} w).2) as Hl'.
      { apply Hother; [by apply Hkey|done|]. by apply (Hlocal l' Hq). }
      by case_decide.
    + destruct par as [p|]; [|exact Hup].
      destruct (getLink p k) as [deep|] eqn:Ed; [|exact Hup].
      case_decide; [|exact Hup].
      apply Hother; [by apply Hkey | done | by apply (Hdeep deep Hq)].
Qed.

(** A request for [T] itself always succeeds and leaves [T] cached. *)
Lemma Get_once_caches rt scope T l create w :
  onceProvider rt scope T l create →
  ∃ p w1, Get rt scope T w = (Done (Some (VPointer T p), None), w1) ∧
          inst (store w1) (sid scope) !! T = Some p.
Proof.
  intros H. pose proof (once_link _ _ _ _ _ H) as Hl.
  pose proof (once_lifetime _ _ _ _ _ H) as Hlife.
  destruct (inst (store w) (sid scope) !! T) as [p|] eqn:Ec.
  - exists p, w. split; [|done]. destruct scope as [id dyn par provs]; simpl in *.
    by rewrite Ec.
  - destruct (link_get_once rt scope T l create w H Ec) as (created & st' & Hrun & Hget).
    exists created, {| store := setInstance (sid scope) T created st';
                       calls := calls w ++ [EvCreate (sid scope) T] |}.
    split.
    + rewrite <-Hget. destruct scope as [id dyn par provs]; simpl in *.
      rewrite Ec, Hl. rewrite decide_False by (unfold lifetime in *; congruence). done.
    + simpl. rewrite inst_setInstance, decide_True by done. by rewrite lookup_insert_eq.
Qed.

Lemma forEach_tracking {A} x T (f : A → M (A * option error)) items :
  Forall (λ item, tracking x T (f item)) items → tracking x T (forEach f items).
Proof.
  induction 1 as [|item rest Hitem Hrest IH]; [apply tracking_ret|].
  simpl. apply tracking_bind; [done|]. intros [item' [e|]]; [apply tracking_ret|].
  apply tracking_bind; [done|]. intros [rest' err]. apply tracking_ret.
Qed.

Lemma setFrom_tracking rt x T val t : tracking x T (setFrom rt val t).
Proof.
  apply tracking_silent. intros w. exists (store w). split; [|done].
  unfold setFrom. destruct w as [st cs]; simpl.
  destruct val as [[| elem [a|]| | | | |]|]; try done.
  destruct (heap st !! a) as [v|]; [|done]. by destruct (assignTo rt v t).
Qed.

Lemma hydrateValue_tracking rt scope T l create inner :
  onceProvider rt scope T l create →
  ∀ ro, tracking (sid scope) T (hydrateValue rt scope ro inner).
Proof.
  intros H.
  assert (∀ inner ro,
            tracking (sid scope) T (hydrateInside rt scope ro inner) →
            tracking (sid scope) T (hydrateValue rt scope ro inner)) as Hstep.
  { intros v ro Hin w. rewrite hydrateValue_unfold.
    pose proof (Get_once_tracking rt scope T l create (typeOf v) H w) as HG.
    simpl in HG. destruct (Get rt scope (typeOf v) w) as [[[val err]|] w0]; [|exact HG].
    destruct (isNoProvider err); simpl.
    - eapply tracks_trans; [exact HG | apply Hin].
    - destruct err as [e|]; [exact HG|]. destruct ro; simpl; try exact HG.
      eapply tracks_trans; [exact HG|].
      apply (tracking_bind _ _ (setFrom rt val (typeOf v)));
        [apply setFrom_tracking | intros; apply tracking_ret]. }
  induction inner as [t a|elem target|k t isNil|t|t elems IH|t elems IH|t fields IH
                     |t zero entries IH] using Value_nested_ind;
    intros ro; apply Hstep; simpl; try apply tracking_ret.
  - apply tracking_bind; [|intros [? ?]; apply tracking_ret].
    apply forEach_tracking. eapply Forall_impl; [exact IH|]. intros v Hv. apply Hv.
  - apply tracking_bind; [|intros [? ?]; apply tracking_ret].
    apply forEach_tracking. eapply Forall_impl; [exact IH|]. intros v Hv. apply Hv.
  - apply tracking_bind; [|intros [? ?]; apply tracking_ret].
    apply forEach_tracking. eapply Forall_impl; [exact IH|]. intros field Hv.
    unfold hydrateField. apply tracking_bind; [apply Hv|].
    intros [? ?]. apply tracking_ret.
  - apply tracking_bind; [|intros [? ?]; apply tracking_ret].
    apply forEach_tracking. apply Forall_forall. intros entry _.
    unfold hydrateEntry. apply tracking_bind; [apply IH|].
    intros [newValue [e|]]; [apply tracking_ret|].
    destruct ro; [apply tracking_ret | apply tracking_panic | apply tracking_panic].
Qed.

Lemma hydrateType_tracking rt scope T l create t :
  onceProvider rt scope T l create → tracking (sid scope) T (hydrateType rt scope t).
Proof.
  intros H. unfold hydrateType.
  assert (tracking (sid scope) T
            ('(val, err) ← hydrateValue rt scope ReadWrite (zeroValue rt t);
             ret (Some val, err))) as Hfresh.
  { apply tracking_bind; [by eapply hydrateValue_tracking|].
    intros [? ?]. apply tracking_ret. }
  destruct t as [id|elem]; [exact Hfresh|].
  apply (tracking_bind _ _ (λ w, Get rt scope elem w)); [by eapply Get_once_tracking|].
  intros [val err]. destruct (negb (isNoProvider err)); [apply tracking_ret | exact Hfresh].
Qed.

Lemma Invoke_args_tracking rt scope T l create ins :
  onceProvider rt scope T l create → tracking (sid scope) T (Invoke_args rt scope ins).
Proof.
  intros H. induction ins as [|t rest IH]; [apply tracking_ret|]. simpl.
  apply tracking_bind; [by eapply hydrateType_tracking|].
  intros [argValue [e|]]; [apply tracking_ret|].
  destruct argValue as [v|]; [|apply tracking_ret].
  apply tracking_bind; [exact IH|]. intros [? ?]. apply tracking_ret.
Qed.

Lemma Call_tracking rt x T ins body args :
  (∀ args, leavesScope x (body args)) → tracking x T (Call rt ins body args).
Proof.
  intros Hbody. unfold Call.
  destruct (forallb _ _); [|apply tracking_panic]. by apply tracking_call.
Qed.

Lemma Invoke_after_tracking x T scope args :
  quietFor x scope → tracking x T (Invoke_after scope args).
Proof.
  intros Hq. induction args as [|argValue rest IH]; [apply tracking_ret|]. simpl.
  destruct argValue as [| k target| | | | |]; try exact IH.
  destruct (providers scope !! k) as [l|] eqn:El; [|exact IH].
  apply tracking_bind.
  - intros w. unfold link_afterPointerUse.
    destruct (AfterPointerUse (provider l)) as [after|] eqn:Ea; [|apply tracks_refl].
    destruct (inst (store w) (sid scope) !! key l) as [value|]; [|apply tracks_refl].
    apply tracking_call; [|done|done].
    destruct (quietFor_here x scope k l Hq El) as (_ & Hafter & _). by apply Hafter.
  - intros [e|]; [apply tracking_ret | exact IH].
Qed.

Lemma Hydrate_tracking rt scope T l create value :
  onceProvider rt scope T l create → tracking (sid scope) T (Hydrate rt scope value).
Proof.
  intros H. unfold Hydrate.
  destruct value as [[| elem [a|]| | | | |]|]; try apply tracking_ret.
  - intros w. destruct (heap (store w) !! a) as [inner|]; [|apply tracks_refl].
    apply tracking_bind; [by eapply hydrateValue_tracking|].
    intros [inner' err]. apply tracking_bind; [|intros; apply tracking_ret].
    by apply tracking_update.
  - apply (tracking_bind _ _ (λ w, Get rt scope elem w)); [by eapply Get_once_tracking|].
    intros [val err]. destruct (negb (isNoProvider err)); apply tracking_ret.
Qed.

Lemma hydrateValue_once_caches rt scope T l create inner ro w v err w1 :
  onceProvider rt scope T l create →
  typeOf inner = T →
  hydrateValue rt scope ro inner w = (Done (v, err), w1) →
  err = None ∧ is_Some (inst (store w1) (sid scope) !! T).
Proof.
  intros H Hty. rewrite hydrateValue_unfold, Hty.
  destruct (Get_once_caches rt scope T l create w H) as (p & w0 & -> & Hc). simpl.
  destruct ro; simpl; try (intros [= <- <- <-]; by rewrite Hc).
  unfold mbind, M_bind, bind.
  pose proof (setFrom_tracking rt (sid scope) T (Some (VPointer T p)) T w0) as Hs.
  destruct (setFrom rt (Some (VPointer T p)) T w0) as [[x|] wx]; [|done].
  intros [= <- <- <-]. split; [done|].
  eapply tracks_cached; [exact Hs | by rewrite Hc].
Qed.

Lemma hydrateType_once_caches rt scope T l create t w v w1 :
  onceProvider rt scope T l create →
  requests rt T t →
  hydrateType rt scope t w = (Done (v, None), w1) →
  is_Some (inst (store w1) (sid scope) !! T).
Proof.
  intros H [->|(-> & [id ->] & Hzero)]; unfold hydrateType, mbind, M_bind, bind.
  - destruct (Get_once_caches rt scope T l create w H) as (p & w0 & -> & Hc). simpl.
    intros [= <- <-]. by rewrite Hc.
  - destruct (hydrateValue rt scope ReadWrite (zeroValue rt (Named id)) w)
      as [[[v0 err]|] w0] eqn:E; [|done].
    intros [= <- -> <-]. by eapply (hydrateValue_once_caches rt scope (Named id)).
Qed.

Lemma Invoke_args_once_caches rt scope T l create ins :
  onceProvider rt scope T l create →
  Exists (requests rt T) ins →
  ∀ w args w1, Invoke_args rt scope ins w = (Done (args, None), w1) →
               is_Some (inst (store w1) (sid scope) !! T).
Proof.
  intros H. induction ins as [|t rest IH]; intros Hex w args w1.
  { by apply Exists_nil in Hex. }
  simpl. unfold mbind, M_bind, bind.
  destruct (hydrateType rt scope t w) as [[[argValue [e|]]|] w0] eqn:Et; [done| |done].
  destruct argValue as [v|]; [|done].
  pose proof (Invoke_args_tracking rt scope T l create rest H w0) as Hrest.
  destruct (Invoke_args rt scope rest w0) as [[[args' err']|] w2] eqn:Er; [|done].
  intros [= <- -> <-]. apply Exists_cons in Hex as [Hreq|Hex].
  - eapply tracks_cached; [exact Hrest|]. by eapply hydrateType_once_caches.
  - by eapply IH.
Qed.

Lemma no_Create_in_freeCall scope k l value s' k' :
  List.filter (isCreateOf s' k') (freeCall scope k l value) = [].
Proof. unfold freeCall. by destruct (Free (provider l)). Qed.

Lemma link_free_only_frees l scope w :
  ∃ evs, calls (link_free l scope w).2 = calls w ++ evs ∧
         ∀ s k, List.filter (isCreateOf s k) evs = [].
Proof.
  unfold link_free, mbind, M_bind, bind.
  destruct (Free (provider l)) as [free|].
  - destruct (inst (store w) (sid scope) !! key l) as [value|].
    + unfold call. destruct (free (sid scope) value (store w)) as [err st]; simpl.
      by exists [EvFree (sid scope) (key l) value].
    + exists []. by rewrite app_nil_r.
  - exists []. simpl. by rewrite app_nil_r.
Qed.

Lemma FreeOnce_range_only_frees scope keys :
  ∀ multi w, ∃ evs, calls (FreeOnce_range scope keys multi w).2 = calls w ++ evs ∧
                    ∀ s k, List.filter (isCreateOf s k) evs = [].
Proof.
  induction keys as [|key rest IH]; intros multi w.
  { exists []. by rewrite app_nil_r. }
  simpl. destruct (inst (store w) (sid scope) !! key); [|apply IH].
  destruct (getLink scope key) as [l|].
  - case_decide; [|apply IH]. unfold mbind, M_bind, bind.
    destruct (link_free_only_frees l scope w) as (evs1 & Hc1 & Hn1).
    destruct (link_free l scope w) as [[err|] w1]; simpl in *; [|by exists evs1].
    destruct (IH (match err with Some e => multi ++ [e] | None => multi end) w1)
      as (evs2 & Hc2 & Hn2).
    exists (evs1 ++ evs2). split; [by rewrite Hc2, Hc1, <-app_assoc|].
    intros s k. by rewrite List.filter_app, Hn1, Hn2.
  - unfold mbind, M_bind, bind, update; simpl.
    destruct (IH multi {| store := deleteInstance (sid scope) key (store w);
                          calls := calls w |}) as (evs2 & Hc2 & Hn2).
    by exists evs2.
Qed.

Lemma FreeOnce_only_frees rt scope w :
  ∃ evs, calls (FreeOnce rt scope w).2 = calls w ++ evs ∧
         ∀ s k, List.filter (isCreateOf s k) evs = [].
Proof.
  unfold FreeOnce, mbind, M_bind, bind.
  destruct (FreeOnce_range_only_frees scope (rangeOrder rt (inst (store w) (sid scope)))
              [] w) as (evs & Hc & Hn).
  destruct (FreeOnce_range scope _ [] w) as [[multi|] w1]; simpl in *; [|by exists evs].
  exists evs. by destruct multi.
Qed.

Lemma tracks_keeps x T w w1 p :
  tracks x T w w1 → inst (store w) x !! T = Some p → inst (store w1) x !! T = Some p.
Proof.
  intros (evs & _ & _ & [[Hi _]|(Hb & _)]) Hp; [by rewrite Hi | congruence].
Qed.

Lemma Invoke_args_once_pointer rt scope T l create ins :
  onceProvider rt scope T l create →
  ∀ w args w1,
    Invoke_args rt scope ins w = (Done (args, None), w1) →
    ∀ i, ins !! i = Some (PointerTo T) →
         ∃ p, args !! i = Some (VPointer T p) ∧
              inst (store w1) (sid scope) !! T = Some p.
Proof.
  intros H. induction ins as [|t rest IH]; intros w args w1; [by intros _ []|].
  simpl. unfold mbind, M_bind, bind.
  destruct (hydrateType rt scope t w) as [[[argValue [e|]]|] w0] eqn:Et; [done| |done].
  destruct argValue as [v|]; [|done].
  pose proof (Invoke_args_tracking rt scope T l create rest H w0) as Hrest.
  destruct (Invoke_args rt scope rest w0) as [[[args' err']|] w2] eqn:Er; [|done].
  intros [= <- -> <-] [|i]; simpl.
  - intros [= ->]. unfold hydrateType, mbind, M_bind, bind in Et.
    destruct (Get_once_caches rt scope T l create w H) as (p & w0' & HGet & Hc).
    rewrite HGet in Et. simpl in Et. injection Et as <- <-.
    exists p. split; [done|]. by eapply tracks_keeps.
  - by apply (IH w0 args' w2).
Qed.

(** C4 (as amended): for a provider of [T] with lifetime [Once]
    registered on the invoking scope itself, with a [Create] that
    always succeeds and a [Free], no instance of [T] cached on the
    scope beforehand, and user callbacks that leave the scope's instance
    map alone:
    - an [Invoke] on the scope that returns without an error has called
      [Create] for [T] as often as [Free] for [T], at most once each and
      exactly once each when a parameter has type [*T] (or [T], for a
      [T] that is not a pointer type), and leaves no instance of [T]
      cached, so that the next invocation starts as this one did.  The
      [Free] is that of the resolved instance: when the resolution of
      the parameters left the pointer [p] cached for [T], which it does
      when a parameter asks for [T], and which is then the argument of
      every parameter of type [*T], the one call of [Free] for [T] is
      made with [p], and it is run: whatever [Free] on [p] establishes
      in the store, and the rest of the teardown keeps, holds when
      [Invoke] returns;
    - a [Hydrate] on the scope calls [Create] for [T] at most once,
      exactly once when it is given a pointer to a [T], and never calls
      [Free]: the instance it created is still cached on the scope when
      it returns. *)
Theorem once_released_by_Invoke_kept_by_Hydrate
    (rt : Runtime) (scope : Scope) (T : rtype) (l : link)
    (create : positive → Store → (ptr * option error) * Store)
    (free : positive → ptr → Store → option error * Store) :
  onceProvider rt scope T l create →
  Free (provider l) = Some free →
  (∀ ins body w r w',
     (∀ args, leavesScope (sid scope) (body args)) →
     inst (store w) (sid scope) !! T = None →
     Invoke rt scope (Func_ ins body) w = (Done (r, None), w') →
     ∃ evs, calls w' = calls w ++ evs ∧
            length (List.filter (isCreateOf (sid scope) T) evs) =
              length (List.filter (isFreeOf (sid scope) T) evs) ∧
            length (List.filter (isCreateOf (sid scope) T) evs) ≤ 1 ∧
            (Exists (requests rt T) ins →
             length (List.filter (isCreateOf (sid scope) T) evs) = 1) ∧
            inst (store w') (sid scope) !! T = None ∧
            ∃ args w1,
              Invoke_args rt scope ins w = (Done (args, None), w1) ∧
              (Exists (requests rt T) ins →
               is_Some (inst (store w1) (sid scope) !! T)) ∧
              (∀ i, ins !! i = Some (PointerTo T) →
                    ∃ p, args !! i = Some (VPointer T p) ∧
                         inst (store w1) (sid scope) !! T = Some p) ∧
              (∀ p, inst (store w1) (sid scope) !! T = Some p →
                    List.filter (isFreeOf (sid scope) T) evs
                      = [EvFree (sid scope) T p] ∧
                    ∀ P : Store → Prop,
                      teardownKeeps scope P →
                      (∀ st, P (free (sid scope) p st).2) →
                      P (store w'))) ∧
  (∀ value w,
     inst (store w) (sid scope) !! T = None →
     ∃ evs, calls (Hydrate rt scope value w).2 = calls w ++ evs ∧
            List.filter (isFreeOf (sid scope) T) evs = [] ∧
            length (List.filter (isCreateOf (sid scope) T) evs) ≤ 1 ∧
            (length (List.filter (isCreateOf (sid scope) T) evs) = 1 ↔
             is_Some (inst (store (Hydrate rt scope value w).2) (sid scope) !! T)) ∧
            (∀ a inner err w',
               value = Some (VPointer T (Some a)) →
               heap (store w) !! a = Some inner → typeOf inner = T →
               Hydrate rt scope value w = (Done err, w') →
               length (List.filter (isCreateOf (sid scope) T) evs) = 1)).
Proof.
  intros H Hfree.
  pose proof (once_keyed _ _ _ _ _ H) as Hkeyed.
  pose proof (once_quiet _ _ _ _ _ H) as Hq.
  pose proof (quietFor_freeLeavesScope _ Hq) as Hleaves.
  pose proof (getLink_local _ _ _ (once_link _ _ _ _ _ H)) as Hlink.
  pose proof (once_lifetime _ _ _ _ _ H) as Hlife.
  split.
  - intros ins body w r w' Hbody Hc. unfold Invoke, mbind, M_bind, bind.
    pose proof (Invoke_args_tracking rt scope T l create ins H w) as H1.
    pose proof (Invoke_args_once_caches rt scope T l create ins H) as Hreq.
    pose proof (Invoke_args_once_pointer rt scope T l create ins H w) as Hptr.
    destruct (Invoke_args rt scope ins w) as [[[args [e|]]|] w1] eqn:Eargs; [done| |done].
    pose proof (Call_tracking rt (sid scope) T ins body args Hbody w1) as H2.
    destruct (Call rt ins body args w1) as [[results|] w2]; [|done].
    pose proof (Invoke_after_tracking (sid scope) T scope args Hq w2) as H3.
    destruct (Invoke_after scope args w2) as [[[e|]|] w3]; [done| |done].
    simpl in H1, H2, H3.
    pose proof (tracks_trans _ _ _ _ _ (tracks_trans _ _ _ _ _ H1 H2) H3)
      as (evs0 & Hcalls0 & Hfree0 & Hcase).
    pose proof (tracks_cached _ _ _ _ (tracks_trans _ _ _ _ _ H2 H3)) as Hkeep.
    pose proof (λ p, tracks_keeps _ _ _ _ p (tracks_trans _ _ _ _ _ H2 H3)) as Hsame13.
    destruct (FreeOnce_spec rt scope w3 Hkeyed Hleaves)
      as (err & w4 & evs & Hrun & Hcalls & Hmap & Hevs).
    destruct (FreeOnce_only_frees rt scope w3) as (evs' & Hcalls' & Hnone).
    rewrite Hrun in Hcalls' |- *. simpl in Hcalls'.
    rewrite Hcalls in Hcalls'. apply app_inv_head in Hcalls'. subst evs'.
    intros [= <- <-]. exists (evs0 ++ evs).
    split; [by rewrite Hcalls, Hcalls0, <-app_assoc|].
    assert (inst (store w4) (sid scope) !! T = None) as Hgone.
    { rewrite Hmap. unfold freedOnce. rewrite Hlink. by rewrite bool_decide_true. }
    assert (∃ args0 w0,
              ((Done (args, None), w1) : res (list Value * option error) * World)
                = (Done (args0, None), w0) ∧
              (Exists (requests rt T) ins →
               is_Some (inst (store w0) (sid scope) !! T)) ∧
              (∀ i, ins !! i = Some (PointerTo T) →
                    ∃ p, args0 !! i = Some (VPointer T p) ∧
                         inst (store w0) (sid scope) !! T = Some p) ∧
              (∀ p, inst (store w0) (sid scope) !! T = Some p →
                    List.filter (isFreeOf (sid scope) T) (evs0 ++ evs)
                      = [EvFree (sid scope) T p] ∧
                    ∀ P : Store → Prop,
                      teardownKeeps scope P →
                      (∀ st, P (free (sid scope) p st).2) →
                      P (store w4))) as Hresolved.
    { exists args, w1. split; [done|]. split; [|split].
      - intros Hex. by apply (Hreq Hex w args w1).
      - by apply Hptr.
      - intros p Hp. pose proof (Hsame13 p Hp) as Hp3. split.
        + rewrite List.filter_app, Hfree0, Hevs, Hp3. simpl.
          unfold freeOnceCall, freeCall. rewrite Hlink, Hfree.
          by rewrite decide_True.
        + intros P HP Hest.
          by apply (FreeOnce_runs rt scope P w3 err w4 Hkeyed Hleaves HP Hrun T p l free). }
    assert (length (List.filter (isCreateOf (sid scope) T) (evs0 ++ evs)) =
              length (List.filter (isFreeOf (sid scope) T) (evs0 ++ evs)) ∧
            length (List.filter (isCreateOf (sid scope) T) (evs0 ++ evs)) ≤ 1 ∧
            (Exists (requests rt T) ins →
             length (List.filter (isCreateOf (sid scope) T) (evs0 ++ evs)) = 1))
      as (Hcount & Hmost & Hexact).
    { rewrite !List.filter_app, !length_app, Hfree0, Hnone, Hevs. simpl.
      rewrite Nat.add_0_r. unfold freeOnceCall, freeCall. rewrite Hlink, Hfree.
      destruct Hcase as [[Hsame Hzero]|(_ & [p Hp] & Hone)].
      + rewrite Hsame, Hc, Hzero. simpl. split; [done|]. split; [lia|].
        intros Hex. specialize (Hreq Hex w args w1 Eargs). apply Hkeep in Hreq.
        rewrite Hsame, Hc in Hreq. by destruct Hreq.
      + rewrite Hp, Hone. rewrite decide_True by done. simpl.
        split; [done|]. split; [lia|]. done. }
    split; [exact Hcount|]. split; [exact Hmost|]. split; [exact Hexact|].
    split; [exact Hgone | exact Hresolved].
  - intros value w Hc.
    destruct (Hydrate_tracking rt scope T l create value H w)
      as (evs & Hcalls & Hnofree & Hcase).
    exists evs. split; [done|]. split; [done|].
    destruct Hcase as [[Hsame Hzero]|(_ & Hp & Hone)].
    + rewrite Hzero, Hsame, Hc. simpl. split; [lia|]. split.
      * split; [done | by intros [? ?]].
      * intros a inner err w' -> Ha Hty. unfold Hydrate in Hsame |- *. rewrite Ha in *.
        unfold mbind, M_bind, bind in *.
        destruct (hydrateValue rt scope ReadWrite inner w) as [[[inner' err']|] w1] eqn:E;
          [|done].
        destruct (hydrateValue_once_caches rt scope T l create inner ReadWrite w inner' err' w1
                    H Hty E) as [_ Hcached].
        simpl in Hsame. rewrite Hc in Hsame.
        change (inst (store w1) (sid scope) !! T = None) in Hsame.
        rewrite Hsame in Hcached. by destruct Hcached.
    + rewrite Hone. split; [lia|]. split; [done|]. done.
Qed.

Lemma onceChild_onceProvider :
  onceProvider Demo.rt Demo.onceChild Demo.Port
    {| provider := Demo.portProvider LifetimeOnce; key := Demo.Port |} Demo.createPort.
Proof.
  split; try reflexivity.
  - apply keyed_ProvideScoped, keyed_child.
  - simpl. split; [|split; [discriminate | split; [|split; [discriminate | done]]]].
    + intros k l. rewrite lookup_insert. case_decide; [|by rewrite lookup_empty].
      intros [= <-]; simpl. split; [|split].
      * by intros create s [= <-] st.
      * discriminate.
      * by intros free s value [= <-] st.
    + intros k l. by rewrite lookup_empty.
  - discriminate.
  - simpl. split; [discriminate | done].
Qed.

Lemma closingOnceChild_onceProvider :
  onceProvider Demo.rt More.closingOnceChild Demo.Port
    {| provider := More.closingProvider LifetimeOnce; key := Demo.Port |} Demo.createPort.
Proof.
  split; try reflexivity.
  - apply keyed_ProvideScoped, keyed_child.
  - simpl. split; [|split; [discriminate | split; [|split; [discriminate | done]]]].
    + intros k l. rewrite lookup_insert. case_decide; [|by rewrite lookup_empty].
      intros [= <-]; simpl. split; [|split].
      * by intros create s [= <-] st.
      * discriminate.
      * intros free s value [= <-] st. by destruct value.
    + intros k l. by rewrite lookup_empty.
  - discriminate.
  - simpl. split; [discriminate | done].
Qed.

Lemma teardownKeeps_closing (a : addr) :
  teardownKeeps More.closingOnceChild
    (λ st, heap st !! a = Some (VBasic Demo.Port (AInt 0))).
Proof.
  split; [done|]. intros k l free value st Hl Hfree HP. simpl in Hl.
  rewrite lookup_insert in Hl. case_decide; [|by rewrite lookup_empty in Hl].
  injection Hl as <-. injection Hfree as <-. destruct value as [b|]; [|done].
  simpl. destruct (decide (b = a)) as [->|Hne];
    [apply lookup_insert_eq | by rewrite lookup_insert_ne].
Qed.

(** With a [Once]-lifetime provider of [Port] whose [Free] zeroes the
    port: an [Invoke] of a function that takes a [*Port] calls [Create]
    once, hands the function the pointer to the cell 1, calls [Free]
    once, with that pointer, and leaves the cell zeroed. *)
Lemma once_released_witness :
  ∃ evs,
    calls (Invoke Demo.rt More.closingOnceChild
             (Demo.identity [PointerTo Demo.Port]) Demo.w0).2 = calls Demo.w0 ++ evs ∧
    length (List.filter (isCreateOf (sid More.closingOnceChild) Demo.Port) evs) = 1 ∧
    (Invoke Demo.rt More.closingOnceChild (Demo.identity [PointerTo Demo.Port]) Demo.w0).1
      = Done (Some [VPointer Demo.Port (Some 1%positive)], None) ∧
    List.filter (isFreeOf (sid More.closingOnceChild) Demo.Port) evs
      = [EvFree (sid More.closingOnceChild) Demo.Port (Some 1%positive)] ∧
    heap (store (Invoke Demo.rt More.closingOnceChild
                   (Demo.identity [PointerTo Demo.Port]) Demo.w0).2) !! 1%positive
      = Some (VBasic Demo.Port (AInt 0)).
Proof.
  destruct (once_released_by_Invoke_kept_by_Hydrate Demo.rt More.closingOnceChild Demo.Port
              {| provider := More.closingProvider LifetimeOnce; key := Demo.Port |}
              Demo.createPort More.closePort closingOnceChild_onceProvider eq_refl)
    as [HInvoke _].
  destruct (HInvoke [PointerTo Demo.Port] (λ args st, (args, st)) Demo.w0
              (Some [VPointer Demo.Port (Some 1%positive)])
              (Invoke Demo.rt More.closingOnceChild
                 (Demo.identity [PointerTo Demo.Port]) Demo.w0).2)
    as (evs & Hcalls & _ & _ & Hone & _ & args & w1 & Hargs & _ & Hptr & Hfreed).
  - intros args st. reflexivity.
  - reflexivity.
  - vm_compute. reflexivity.
  - destruct (Hptr 0 eq_refl) as (p & Harg & Hcached).
    assert (p = Some 1%positive) as ->.
    { injection Hargs as <- _. by injection Harg as <-. }
    destruct (Hfreed _ Hcached) as [Hfree Hruns].
    exists evs. split; [exact Hcalls|]. split; [|split; [reflexivity|split; [exact Hfree|]]].
    + apply Hone. constructor. by left.
    + apply (Hruns (λ st, heap st !! 1%positive = Some (VBasic Demo.Port (AInt 0)))
               (teardownKeeps_closing 1%positive)).
      intros st. simpl. apply lookup_insert_eq.
Defined.

(** C4 as stated fails for [Hydrate]: with a [Once]-lifetime provider
    of [Port] on the scope, hydrating a [Port] calls [Create] and no
    [Free], the instance is still cached afterwards, and a second
    [Hydrate] is served that same instance without a new [Create]. *)
Lemma Hydrate_does_not_free_once :
  let target := Some (VPointer Demo.Port (Some 9%positive)) in
  let r1 := Hydrate Demo.rt Demo.onceChild target Demo.wCell in
  let r2 := Hydrate Demo.rt Demo.onceChild target r1.2 in
  lifetime {| provider := Demo.portProvider LifetimeOnce; key := Demo.Port |}
    = LifetimeOnce ∧
  r1.1 = Done None ∧
  calls r1.2 = [EvCreate 2 Demo.Port] ∧
  inst (store r1.2) 2 !! Demo.Port = Some (Some 10%positive) ∧
  r2.1 = Done None ∧
  calls r2.2 = [EvCreate 2 Demo.Port] ∧
  heap (store r2.2) !! 9%positive = Some (VBasic Demo.Port (AInt 8080)).
Proof. vm_compute. repeat split. Qed.

(** * Further properties of the engine *)

(** ** Where resolution finds and places instances *)

Lemma getLink_step scope k :
  providers scope !! k = None →
  getLink scope k = match parent scope with Some p => getLink p k | None => None end.
Proof. destruct scope as [id dyn par provs]; simpl. by intros ->. Qed.

Lemma link_get_creates l scope k create created st' w :
  key l = k →
  inst (store w) (sid scope) !! k = None →
  Create (provider l) = Some create →
  create (sid scope) (store w) = ((created, None), st') →
  link_get l scope w =
    (Done (Some (VPointer k created), None),
     {| store := setInstance (sid scope) k created st';
        calls := calls w ++ [EvCreate (sid scope) k] |}).
Proof.
  intros Hk Hc Hcreate Hrun. unfold link_get. rewrite Hk, Hc, Hcreate.
  unfold mbind, M_bind, bind, call, update. by rewrite Hrun.
Qed.

Lemma cachedAbove_resolves
    (rt : Runtime) (k : rtype) (p : ptr) (scope : Scope) (w : World) :
  cachedAbove scope k p (store w) →
  GetScoped rt k scope w = (Done (p, None), w) ∧
  ((∀ deep, getLink scope k = Some deep → lifetime deep ≠ LifetimeScope) →
   Get rt scope k w = (Done (Some (VPointer k p), None), w)).
Proof.
  revert scope. refine (Scope_chain_ind _ _ _).
  - intros s Hroot Hc. destruct s as [id dyn par provs]; simpl in *. subst par.
    destruct Hc as [Hc|(_ & _ & [])]. rewrite Hc. by split.
  - intros s p0 Hp IH Hc. destruct s as [id dyn par provs]; simpl in *. subst par.
    destruct Hc as [Hc|(Hn & Hl & Hc)]; [rewrite Hc; by split|].
    destruct (IH Hc) as [IHs IHg]. rewrite Hn, Hl. split.
    + by rewrite IHs.
    + intros Hd. rewrite IHg; [|exact Hd]. simpl.
      destruct (getLink p0 k) as [deep|]; [|done].
      case_decide as Hlife; [by apply (Hd deep) in Hlife | done].
Qed.

(** X1: an instance cached on an ancestor (a constant set there, or a
    value a provider materialized there) is what [GetScoped] returns
    from a descendant when no scope in between has a cached instance
    or a provider for the key, and what [Get] returns when moreover
    the nearest link is not of lifetime [Scope]; nothing is called and
    nothing changes: the descendant does not cache it. *)
Theorem cached_instance_is_inherited
    (rt : Runtime) (k : rtype) (p : ptr) (scope : Scope) (w : World) :
  cachedAbove scope k p (store w) →
  GetScoped rt k scope w = (Done (p, None), w) ∧
  ((∀ deep, getLink scope k = Some deep → lifetime deep ≠ LifetimeScope) →
   Get rt scope k w = (Done (Some (VPointer k p), None), w)).
Proof. apply cachedAbove_resolves. Qed.

Lemma cached_instance_witness :
  GetScoped Demo.rt Demo.Port Demo.child
    (SetScoped Demo.global Demo.Port (Some 7%positive) Demo.w0).2
  = (Done (Some 7%positive, None),
     (SetScoped Demo.global Demo.Port (Some 7%positive) Demo.w0).2).
Proof.
  apply (cached_instance_is_inherited Demo.rt Demo.Port (Some 7%positive) Demo.child
           (SetScoped Demo.global Demo.Port (Some 7%positive) Demo.w0).2).
  simpl. right. split; [reflexivity|]. split; [reflexivity|]. left. reflexivity.
Defined.

Lemma Get_creates_on_owner
    (rt : Runtime) (k : rtype) (l : link) (o : Scope)
    (create : positive → Store → (ptr * option error) * Store)
    (created : ptr) (st' : Store) (w : World) (scope : Scope) :
  keyed scope →
  linkOwner scope k = Some o →
  getLink scope k = Some l →
  lifetime l ≠ LifetimeScope →
  uncached scope k (store w) →
  Create (provider l) = Some create →
  create (sid o) (store w) = ((created, None), st') →
  Get rt scope k w =
    (Done (Some (VPointer k created), None),
     {| store := setInstance (sid o) k created st';
        calls := calls w ++ [EvCreate (sid o) k] |}).
Proof.
  intros Hkeyed Ho Hl Hlife Hu Hcreate Hrun. revert scope Hkeyed Ho Hl Hu.
  refine (Scope_chain_ind _ _ _).
  - intros s Hroot Hkeyed Ho Hl Hu.
    pose proof (getLink_key _ _ _ Hkeyed Hl) as Hk.
    rewrite Get_rest; [|by apply uncached_here | intros deep; rewrite Hl; by intros [= <-]].
    pose proof (uncached_here _ _ _ Hu) as Hc.
    destruct s as [id dyn par provs]; simpl in *. subst par.
    destruct (provs !! k) as [l'|] eqn:El; [|done].
    injection Hl as ->. injection Ho as <-. by eapply link_get_creates.
  - intros s p Hp IH Hkeyed Ho Hl Hu.
    pose proof (getLink_key _ _ _ Hkeyed Hl) as Hk.
    rewrite Get_rest; [|by apply uncached_here | intros deep; rewrite Hl; by intros [= <-]].
    pose proof (uncached_here _ _ _ Hu) as Hc.
    pose proof (uncached_parent _ _ _ _ Hp Hu) as Hup.
    destruct s as [id dyn par provs]; simpl in *. subst par.
    destruct Hkeyed as [_ Hkp].
    destruct (provs !! k) as [l'|] eqn:El.
    + injection Hl as ->. injection Ho as <-. by eapply link_get_creates.
    + by rewrite (IH Hkp Ho Hl Hup).
Qed.

(** X2: when the nearest link for [k] is not of lifetime [Scope], no
    scope from the requesting one up to the root caches an instance for
    [k], and the link's [Create] succeeds, [Get] from any descendant
    calls [Create] with the scope that owns the link and caches the
    value on that owner, not on the requesting scope. *)
Theorem Get_materializes_on_the_owner
    (rt : Runtime) (k : rtype) (l : link) (o : Scope)
    (create : positive → Store → (ptr * option error) * Store)
    (created : ptr) (st' : Store) (w : World) (scope : Scope) :
  keyed scope →
  linkOwner scope k = Some o →
  getLink scope k = Some l →
  lifetime l ≠ LifetimeScope →
  uncached scope k (store w) →
  Create (provider l) = Some create →
  create (sid o) (store w) = ((created, None), st') →
  Get rt scope k w =
    (Done (Some (VPointer k created), None),
     {| store := setInstance (sid o) k created st';
        calls := calls w ++ [EvCreate (sid o) k] |}).
Proof. apply Get_creates_on_owner. Qed.

(** X3: [GetScoped] places a new instance on the scope that owns the
    provider whatever the lifetime, [LifetimeScope] included, where
    [Get] would place it on the requesting scope. *)
Theorem GetScoped_materializes_on_the_owner
    (rt : Runtime) (V : rtype) (l : link) (o : Scope)
    (create : positive → Store → (ptr * option error) * Store)
    (created : ptr) (st' : Store) (w : World) (scope : Scope) :
  linkOwner scope V = Some o →
  getLink scope V = Some l →
  uncached scope V (store w) →
  Create (provider l) = Some create →
  create (sid o) (store w) = ((created, None), st') →
  GetScoped rt V scope w =
    (Done (created, None),
     {| store := setInstance (sid o) V created st';
        calls := calls w ++ [EvCreate (sid o) V] |}).
Proof.
  intros Ho Hl Hu Hcreate Hrun. revert scope Ho Hl Hu.
  assert (∀ s, providers s !! V = Some l → s = o →
               inst (store w) (sid s) !! V = None →
               GetScoped rt V s w =
               (Done (created, None),
                {| store := setInstance (sid o) V created st';
                   calls := calls w ++ [EvCreate (sid o) V] |})) as Hlocal.
  { intros s Hs -> Hc. destruct o as [id dyn par provs]; simpl in *.
    rewrite Hc, Hs, Hcreate. unfold mbind, M_bind, bind, call, update.
    by rewrite Hrun. }
  refine (Scope_chain_ind _ _ _).
  - intros s Hroot Ho Hl Hu. pose proof (uncached_here _ _ _ Hu) as Hc.
    apply Hlocal; [| |done]; destruct s as [id dyn par provs]; simpl in *; subst par;
      destruct (provs !! V) as [l'|] eqn:El; congruence.
  - intros s p Hp IH Ho Hl Hu. pose proof (uncached_here _ _ _ Hu) as Hc.
    pose proof (uncached_parent _ _ _ _ Hp Hu) as Hup.
    destruct (providers s !! V) as [l'|] eqn:El.
    + apply Hlocal; [|by destruct s; simpl in *; rewrite El in Ho; injection Ho|done].
      destruct s; simpl in *. rewrite El in Hl. congruence.
    + destruct s as [id dyn par provs]; simpl in *. subst par.
      rewrite El in *. by rewrite Hc, (IH Ho Hl Hup).
Qed.

Lemma Get_owner_witness :
  (Get Demo.rt More.foreverChild Demo.Port Demo.w0).1
    = Done (Some (VPointer Demo.Port (Some 1%positive)), None) ∧
  inst (store (Get Demo.rt More.foreverChild Demo.Port Demo.w0).2)
       (sid More.foreverGlobal) !! Demo.Port = Some (Some 1%positive) ∧
  inst (store (Get Demo.rt More.foreverChild Demo.Port Demo.w0).2)
       (sid More.foreverChild) !! Demo.Port = None.
Proof.
  rewrite (Get_materializes_on_the_owner Demo.rt Demo.Port
             {| provider := Demo.portProvider LifetimeForever; key := Demo.Port |}
             More.foreverGlobal Demo.createPort (Some 1%positive)
             (alloc (VBasic Demo.Port (AInt 8080)) (store Demo.w0)).2
             Demo.w0 More.foreverChild).
  - repeat split.
  - apply keyed_new, keyed_ProvideScoped, keyed_global.
  - reflexivity.
  - reflexivity.
  - discriminate.
  - repeat split.
  - reflexivity.
  - reflexivity.
Defined.

Lemma GetScoped_owner_witness :
  (GetScoped Demo.rt Demo.Database Demo.dbChild Demo.w0).1
    = Done (Some 1%positive, None) ∧
  inst (store (GetScoped Demo.rt Demo.Database Demo.dbChild Demo.w0).2)
       (sid Demo.dbGlobal) !! Demo.Database = Some (Some 1%positive) ∧
  inst (store (GetScoped Demo.rt Demo.Database Demo.dbChild Demo.w0).2)
       (sid Demo.dbChild) !! Demo.Database = None.
Proof.
  rewrite (GetScoped_materializes_on_the_owner Demo.rt Demo.Database
             {| provider := Demo.databaseProvider; key := Demo.Database |}
             Demo.dbGlobal Demo.createDatabase (Some 1%positive)
             (alloc (VStruct Demo.Database []) (store Demo.w0)).2
             Demo.w0 Demo.dbChild).
  - repeat split.
  - reflexivity.
  - reflexivity.
  - repeat split.
  - reflexivity.
  - reflexivity.
Defined.

Lemma barren_here scope k :
  barren scope k → providers scope !! k = None ∧ Dynamic scope = None.
Proof. destruct scope; simpl. by intros (? & ? & _). Qed.

Lemma barren_parent scope p k : parent scope = Some p → barren scope k → barren p k.
Proof. destruct scope; simpl. intros ->. by intros (_ & _ & ?). Qed.

Lemma barren_getLink scope k : barren scope k → getLink scope k = None.
Proof.
  revert scope. refine (Scope_chain_ind _ _ _).
  - intros s Hroot Hb. destruct (barren_here _ _ Hb) as [Hl _].
    by rewrite getLink_step, Hroot.
  - intros s p Hp IH Hb. destruct (barren_here _ _ Hb) as [Hl _].
    rewrite getLink_step, Hp by done. apply IH. by eapply barren_parent.
Qed.

Lemma Get_dynamic_barren rt scope k w :
  Dynamic scope = None → provideDynamic rt (Named (rtype_base k)) = None →
  Get_dynamic rt scope k w = (Done (None, Some ErrNoProvider), w).
Proof.
  intros Hd Hpd. unfold Get_dynamic, mbind, M_bind, bind, GetDynamic.
  by rewrite Hpd, Hd.
Qed.

Lemma GetScoped_dynamic_barren rt scope V w :
  Dynamic scope = None → provideDynamic rt (Named (rtype_base V)) = None →
  GetScoped_dynamic rt V scope w = (Done (None, Some ErrNoProvider), w).
Proof.
  intros Hd Hpd. unfold GetScoped_dynamic, GetScoped_callback, mbind, M_bind, bind, GetDynamic.
  by rewrite Hpd, Hd.
Qed.

Lemma Get_barren rt k :
  provideDynamic rt (Named (rtype_base k)) = None →
  ∀ scope w, barren scope k → uncached scope k (store w) →
             Get rt scope k w = (Done (None, Some ErrNoProvider), w).
Proof.
  intros Hpd. refine (Scope_chain_ind _ _ _).
  - intros s Hroot w Hb Hu. destruct (barren_here _ _ Hb) as [Hl Hd].
    rewrite Get_rest; [|by apply uncached_here|intros deep; by rewrite barren_getLink].
    rewrite Hl, Hroot. by apply Get_dynamic_barren.
  - intros s p Hp IH w Hb Hu. destruct (barren_here _ _ Hb) as [Hl Hd].
    rewrite Get_rest; [|by apply uncached_here|intros deep; by rewrite barren_getLink].
    rewrite Hl, Hp, (IH w (barren_parent _ _ _ Hp Hb) (uncached_parent _ _ _ _ Hp Hu)).
    simpl. by apply Get_dynamic_barren.
Qed.

(** X4: when no scope from the requesting one up to the root has a
    cached instance, a provider or a [Dynamic] callback for the key,
    and the type does not implement [Dynamic], [Get] and [GetScoped]
    fail with [ErrNoProvider], having called nothing and changed
    nothing. *)
Theorem nothing_to_resolve_is_NoProvider
    (rt : Runtime) (k : rtype) (scope : Scope) (w : World) :
  provideDynamic rt (Named (rtype_base k)) = None →
  barren scope k →
  uncached scope k (store w) →
  Get rt scope k w = (Done (None, Some ErrNoProvider), w) ∧
  GetScoped rt k scope w = (Done (None, Some ErrNoProvider), w).
Proof.
  intros Hpd Hb Hu. split; [by apply Get_barren|].
  revert scope Hb Hu. refine (Scope_chain_ind _ _ _).
  - intros s Hroot Hb Hu. destruct (barren_here _ _ Hb) as [Hl Hd].
    pose proof (uncached_here _ _ _ Hu) as Hc.
    pose proof (GetScoped_dynamic_barren rt s k w Hd Hpd) as Hdyn.
    destruct s as [id dyn par provs]; simpl in *. subst par. by rewrite Hc, Hl.
  - intros s p Hp IH Hb Hu. destruct (barren_here _ _ Hb) as [Hl Hd].
    pose proof (uncached_here _ _ _ Hu) as Hc.
    pose proof (GetScoped_dynamic_barren rt s k w Hd Hpd) as Hdyn.
    specialize (IH (barren_parent _ _ _ Hp Hb) (uncached_parent _ _ _ _ Hp Hu)).
    destruct s as [id dyn par provs]; simpl in *. subst par. by rewrite Hc, Hl, IH.
Qed.

Lemma nothing_to_resolve_witness :
  Get Demo.rt Demo.child Demo.Port Demo.w0 = (Done (None, Some ErrNoProvider), Demo.w0).
Proof.
  apply (nothing_to_resolve_is_NoProvider Demo.rt Demo.Port Demo.child Demo.w0);
    [reflexivity | repeat split | repeat split].
Defined.

(** ** The calls made by resolution, hydration and [Invoke] *)

Lemma emits_ret {A} P (a : A) : emits P (ret a).
Proof. intros w. exists []. by rewrite app_nil_r. Qed.

Lemma emits_panic {A} P : emits P (@panic A).
Proof. intros w. exists []. by rewrite app_nil_r. Qed.

Lemma emits_bind {A B} P (m : M A) (k : A → M B) :
  emits P m → (∀ a, emits P (k a)) → emits P (bind m k).
Proof.
  intros Hm Hk w. unfold bind. destruct (Hm w) as (evs1 & Hc1 & Hf1).
  destruct (m w) as [[a|] w1]; simpl in *; [|by exists evs1].
  destruct (Hk a w1) as (evs2 & Hc2 & Hf2). exists (evs1 ++ evs2).
  split; [by rewrite Hc2, Hc1, <-app_assoc | by apply Forall_app].
Qed.

Lemma emits_call {A} (P : Event → bool) ev (cb : Store → A * Store) :
  P ev = true → emits P (call ev cb).
Proof.
  intros Hev w. unfold call. destruct (cb (store w)) as [a st]. exists [ev].
  split; [done | by repeat constructor].
Qed.

Lemma emits_update P f : emits P (update f).
Proof. intros w. exists []. simpl. by rewrite app_nil_r. Qed.

Lemma emits_silent {A} P (m : M A) :
  (∀ w, calls (m w).2 = calls w) → emits P m.
Proof. intros Hm w. exists []. by rewrite app_nil_r. Qed.

Lemma emits_at {A} P (m : M A) w r w' :
  emits P m → m w = (r, w') →
  ∃ evs, calls w' = calls w ++ evs ∧ Forall (λ ev, P ev = true) evs.
Proof. intros Hm Hrun. specialize (Hm w). by rewrite Hrun in Hm. Qed.

Lemma link_get_emits l scope : emits isResolutionCall (link_get l scope).
Proof.
  intros w. unfold link_get.
  destruct (inst (store w) (sid scope) !! key l); [apply (emits_ret _ (_, _))|].
  destruct (Create (provider l)) as [create|]; [|apply (emits_ret _ (_, _))].
  apply emits_bind; [by apply emits_call|].
  intros [created [e|]]; [apply emits_ret|].
  apply emits_bind; [apply emits_update | intros; apply emits_ret].
Qed.

Lemma GetDynamic_emits rt P k : emits P (GetDynamic rt k).
Proof.
  apply emits_silent. intros w. by destruct (GetDynamic_spec rt k w) as (st & -> & _).
Qed.

Lemma asPointerTo_emits rt P V dyn : emits P (asPointerTo rt V dyn).
Proof.
  apply emits_silent. intros w.
  by destruct (asPointerTo_spec rt V dyn w) as (val & st & -> & _).
Qed.

Lemma ProvideDynamic_emits rt d s : emits isResolutionCall (ProvideDynamic rt d s).
Proof.
  unfold ProvideDynamic. destruct (provideDynamic rt d.1); [|apply emits_panic].
  by apply emits_call.
Qed.

Lemma Get_dynamic_emits rt scope k : emits isResolutionCall (Get_dynamic rt scope k).
Proof.
  unfold Get_dynamic. apply emits_bind; [apply GetDynamic_emits|]. intros [d|].
  - apply emits_bind; [apply ProvideDynamic_emits|]. intros [e|]; apply emits_ret.
  - destruct (Dynamic scope) as [f|]; [|apply emits_ret].
    apply emits_bind; [by apply emits_call|].
    intros [dyn [e|]]; [apply emits_ret|]. destruct dyn; apply emits_ret.
Qed.

Lemma Get_emits rt k scope : emits isResolutionCall (λ w, Get rt scope k w).
Proof.
  revert scope. fix IH 1. intros [id dyn par provs] w. simpl.
  destruct (inst (store w) id !! k); [apply (emits_ret _ (_, _))|].
  set (s := {| sid := id; Dynamic := dyn; parent := par; providers := provs |}).
  assert (∃ evs, calls (match par with
                        | Some p =>
                            match Get rt p k w with
                            | (Done (par', err), w1) =>
                                if isNoProvider err then Get_dynamic rt s k w1
                                else (Done (par', err), w1)
                            | (Crash, w1) => (Crash, w1)
                            end
                        | None => Get_dynamic rt s k w
                        end).2 = calls w ++ evs ∧
                 Forall (λ ev, isResolutionCall ev = true) evs) as Hup.
  { destruct par as [p|]; [|apply Get_dynamic_emits].
    destruct (IH p w) as (evs1 & Hc1 & Hf1).
    destruct (Get rt p k w) as [[[par' err]|] w1]; simpl in *; [|by exists evs1].
    destruct (isNoProvider err); [|by exists evs1].
    destruct (Get_dynamic_emits rt s k w1) as (evs2 & Hc2 & Hf2).
    exists (evs1 ++ evs2). split; [by rewrite Hc2, Hc1, <-app_assoc | by apply Forall_app]. }
  destruct (provs !! k) as [l|] eqn:El.
  - pose proof (link_get_emits l s w) as Hl. by case_decide.
  - destruct par as [p|]; [|exact Hup].
    destruct (getLink p k) as [deep|]; [|exact Hup].
    case_decide; [apply link_get_emits | exact Hup].
Qed.

Lemma forEach_emits {A} P (f : A → M (A * option error)) items :
  Forall (λ item, emits P (f item)) items → emits P (forEach f items).
Proof.
  induction 1 as [|item rest Hitem Hrest IH]; [apply emits_ret|].
  simpl. apply emits_bind; [done|]. intros [item' [e|]]; [apply emits_ret|].
  apply emits_bind; [done|]. intros [rest' err]. apply emits_ret.
Qed.

Lemma setFrom_emits rt P val t : emits P (setFrom rt val t).
Proof.
  apply emits_silent. intros w. unfold setFrom.
  destruct val as [[| elem [a|]| | | | |]|]; try done.
  destruct (heap (store w) !! a) as [v|]; [|done]. by destruct (assignTo rt v t).
Qed.

(** How a property of [M] computations that is closed under the monad
    is lifted along the recursion of [hydrateValue]. *)
Lemma hydrateValue_lift rt scope (Q : ∀ A, M A → Prop) :
  (∀ A (m m' : M A), (∀ w, m w = m' w) → Q A m → Q A m') →
  (∀ A a, Q A (ret a)) →
  (∀ A, Q A panic) →
  (∀ A B m k, Q A m → (∀ a, Q B (k a)) → Q B (bind m k)) →
  (∀ k, Q _ (λ w, Get rt scope k w)) →
  (∀ val t, Q _ (setFrom rt val t)) →
  ∀ inner ro, Q _ (hydrateValue rt scope ro inner).
Proof.
  intros Hext Hret Hpanic Hbind HGet Hset.
  assert (∀ A (f : A → M (A * option error)) items,
            Forall (λ item, Q _ (f item)) items → Q _ (forEach f items)) as Hloop.
  { intros A f items. induction 1 as [|item rest Hitem Hrest IH]; [apply Hret|].
    simpl. apply Hbind; [done|]. intros [item' [e|]]; [apply Hret|].
    apply Hbind; [done|]. intros [rest' err]. apply Hret. }
  assert (∀ inner ro,
            Q _ (hydrateInside rt scope ro inner) →
            Q _ (hydrateValue rt scope ro inner)) as Hstep.
  { intros v ro Hin.
    apply (Hext _ (bind (λ w, Get rt scope (typeOf v) w)
                     (λ r, if negb (isNoProvider r.2) then
                             match r.2 with
                             | None =>
                                 if negb (readOnly ro)
                                 then bind (setFrom rt r.1 (typeOf v)) (λ x, ret (x, None))
                                 else ret (v, None)
                             | Some e => ret (v, Some e)
                             end
                           else hydrateInside rt scope ro v))).
    - intros w. rewrite hydrateValue_unfold. unfold bind.
      destruct (Get rt scope (typeOf v) w) as [[[val err]|] w0]; [|done]. simpl.
      destruct (isNoProvider err); [done|]. simpl. destruct err; [done|].
      by destruct ro.
    - apply Hbind; [apply HGet|]. intros [val err]. simpl.
      destruct (isNoProvider err); simpl; [done|]. destruct err; [apply Hret|].
      destruct ro; simpl; try apply Hret. apply Hbind; [apply Hset | intros; apply Hret]. }
  induction inner as [t a|elem target|k t isNil|t|t elems IH|t elems IH|t fields IH
                     |t zero entries IH] using Value_nested_ind;
    intros ro; apply Hstep; simpl; try apply Hret.
  - apply Hbind; [|intros [? ?]; apply Hret].
    apply Hloop. eapply Forall_impl; [exact IH|]. intros v Hv. apply Hv.
  - apply Hbind; [|intros [? ?]; apply Hret].
    apply Hloop. eapply Forall_impl; [exact IH|]. intros v Hv. apply Hv.
  - apply Hbind; [|intros [? ?]; apply Hret].
    apply Hloop. eapply Forall_impl; [exact IH|]. intros field Hv.
    unfold hydrateField. apply Hbind; [apply Hv|]. intros [? ?]. apply Hret.
  - apply Hbind; [|intros [? ?]; apply Hret].
    apply Hloop. apply Forall_forall. intros entry _.
    unfold hydrateEntry. apply Hbind; [apply IH|].
    intros [newValue [e|]]; [apply Hret|].
    destruct ro; [apply Hret | apply Hpanic | apply Hpanic].
Qed.

Lemma emits_ext {A} P (m m' : M A) : (∀ w, m w = m' w) → emits P m → emits P m'.
Proof. intros E Hm w. rewrite <-E. apply Hm. Qed.

Lemma hydrateValue_emits rt scope inner ro :
  emits isResolutionCall (hydrateValue rt scope ro inner).
Proof.
  apply (hydrateValue_lift rt scope (λ A m, emits isResolutionCall m)).
  - intros A m m'. apply emits_ext.
  - intros A a. apply emits_ret.
  - intros A. apply emits_panic.
  - intros A B m k. apply emits_bind.
  - intros k. apply Get_emits.
  - intros val t. apply setFrom_emits.
Qed.

Lemma hydrateType_emits rt scope t : emits isResolutionCall (hydrateType rt scope t).
Proof.
  unfold hydrateType.
  assert (emits isResolutionCall
            ('(val, err) ← hydrateValue rt scope ReadWrite (zeroValue rt t);
             ret (Some val, err))) as Hfresh.
  { apply emits_bind; [apply hydrateValue_emits|]. intros [? ?]. apply emits_ret. }
  destruct t as [id|elem]; [exact Hfresh|].
  apply (emits_bind _ (λ w, Get rt scope elem w)); [apply Get_emits|].
  intros [val err]. destruct (negb (isNoProvider err)); [apply emits_ret | exact Hfresh].
Qed.

Lemma Invoke_args_emits rt scope ins : emits isResolutionCall (Invoke_args rt scope ins).
Proof.
  induction ins as [|t rest IH]; [apply emits_ret|]. simpl.
  apply emits_bind; [apply hydrateType_emits|].
  intros [argValue [e|]]; [apply emits_ret|].
  destruct argValue as [v|]; [|apply emits_ret].
  apply emits_bind; [exact IH|]. intros [? ?]. apply emits_ret.
Qed.

Lemma Invoke_after_emits scope args : emits isNotification (Invoke_after scope args).
Proof.
  induction args as [|argValue rest IH]; [apply emits_ret|]. simpl.
  destruct argValue as [| k target| | | | |]; try exact IH.
  destruct (providers scope !! k) as [l|]; [|exact IH].
  apply emits_bind.
  - intros w. unfold link_afterPointerUse.
    destruct (AfterPointerUse (provider l)) as [after|]; [|apply (emits_ret _ None)].
    destruct (inst (store w) (sid scope) !! key l) as [value|]; [|apply (@emits_panic unit)].
    by apply emits_call.
  - intros [e|]; [apply emits_ret | exact IH].
Qed.

Lemma link_free_emits l scope : emits isFreeCall (link_free l scope).
Proof.
  unfold link_free. apply (emits_bind _ (match Free (provider l) with
                                         | Some free => _ | None => _ end)).
  - destruct (Free (provider l)) as [free|]; [|apply emits_ret].
    intros w. destruct (inst (store w) (sid scope) !! key l) as [value|];
      [by apply emits_call | apply (@emits_panic unit)].
  - intros err. apply emits_bind; [apply emits_update | intros; apply emits_ret].
Qed.

Lemma FreeOnce_range_emits scope keys multi :
  emits isFreeCall (FreeOnce_range scope keys multi).
Proof.
  revert multi. induction keys as [|key rest IH]; intros multi; [apply emits_ret|].
  intros w. simpl. destruct (inst (store w) (sid scope) !! key); [|apply IH].
  destruct (getLink scope key) as [l|].
  - case_decide; [|apply IH].
    apply emits_bind; [apply link_free_emits | intros; apply IH].
  - apply emits_bind; [apply emits_update | intros; apply IH].
Qed.

Lemma Free_range_emits scope keys multi : emits isFreeCall (Free_range scope keys multi).
Proof.
  revert multi. induction keys as [|key rest IH]; intros multi; [apply emits_ret|].
  intros w. simpl. destruct (inst (store w) (sid scope) !! key); [|apply IH].
  destruct (getLink scope key) as [l|].
  - apply emits_bind; [apply link_free_emits | intros; apply IH].
  - apply emits_bind; [apply emits_update | intros; apply IH].
Qed.

Lemma FreeOnce_emits rt scope : emits isFreeCall (FreeOnce rt scope).
Proof.
  intros w. unfold FreeOnce.
  apply emits_bind; [apply FreeOnce_range_emits|]. intros [|? ?]; apply emits_ret.
Qed.

Lemma Scope_Free_emits rt scope : emits isFreeCall (Scope_Free rt scope).
Proof.
  intros w. unfold Scope_Free.
  apply emits_bind; [apply Free_range_emits|]. intros [|? ?]; apply emits_ret.
Qed.

(** ** What a resolution returns, and the calls of [Invoke] in order *)

Lemma link_get_value l scope w v w' :
  link_get l scope w = (Done (v, None), w') → is_Some v.
Proof.
  unfold link_get. destruct (inst (store w) (sid scope) !! key l).
  { intros [= <- _]. by eexists. }
  destruct (Create (provider l)) as [create|]; [|done].
  unfold mbind, M_bind, bind, call. destruct (create (sid scope) (store w)) as [[created [e|]] st].
  - done.
  - intros [= <- _]. by eexists.
Qed.

Lemma Get_dynamic_value rt scope k w v w' :
  Get_dynamic rt scope k w = (Done (v, None), w') → is_Some v.
Proof.
  unfold Get_dynamic, mbind, M_bind, bind.
  destruct (GetDynamic rt k w) as [[[d|]|] w1]; [| |done].
  - destruct (ProvideDynamic rt d (sid scope) w1) as [[[e|]|] w2]; [done| |done].
    intros [= <- _]. by eexists.
  - destruct (Dynamic scope) as [f|]; [|done]. unfold call.
    destruct (f k (sid scope) (store w1)) as [[dyn [e|]] st]; [done|].
    destruct dyn; [|done]. intros [= <- _]. by eexists.
Qed.

Lemma Get_value rt k scope :
  ∀ w v w', Get rt scope k w = (Done (v, None), w') → is_Some v.
Proof.
  revert scope. fix IH 1. intros [id dyn par provs] w v w'. simpl.
  destruct (inst (store w) id !! k). { intros [= <- _]. by eexists. }
  set (s := {| sid := id; Dynamic := dyn; parent := par; providers := provs |}).
  assert (match par with
          | Some p =>
              match Get rt p k w with
              | (Done (par', err), w1) =>
                  if isNoProvider err then Get_dynamic rt s k w1
                  else (Done (par', err), w1)
              | (Crash, w1) => (Crash, w1)
              end
          | None => Get_dynamic rt s k w
          end = (Done (v, None), w') → is_Some v) as Hup.
  { destruct par as [p|]; [|apply Get_dynamic_value].
    destruct (Get rt p k w) as [[[par' err]|] w1] eqn:Ep; [|done].
    destruct (isNoProvider err); [apply Get_dynamic_value|].
    intros [= -> -> ->]. by apply (IH p w v w'). }
  destruct (provs !! k) as [l|].
  - case_decide; apply link_get_value.
  - destruct par as [p|]; [|exact Hup].
    destruct (getLink p k) as [deep|]; [|exact Hup].
    case_decide; [apply link_get_value | exact Hup].
Qed.

Lemma hydrateType_value rt scope t w v w' :
  hydrateType rt scope t w = (Done (v, None), w') → is_Some v.
Proof.
  unfold hydrateType.
  assert (∀ w0, ('(val, err) ← hydrateValue rt scope ReadWrite (zeroValue rt t);
                  ret (Some val, err)) w0 = (Done (v, None), w') → is_Some v) as Hfresh.
  { intros w0. unfold mbind, M_bind, bind.
    destruct (hydrateValue rt scope ReadWrite (zeroValue rt t) w0) as [[[val err]|] w1]; [|done].
    intros [= <- _]. by eexists. }
  destruct t as [id|elem]; [apply Hfresh|].
  unfold mbind, M_bind, bind.
  destruct (Get rt scope elem w) as [[[val err]|] w1] eqn:EG; [|done].
  destruct (isNoProvider err) eqn:En; simpl.
  - apply Hfresh.
  - intros [= -> -> ->]. by apply (Get_value rt elem scope w v w').
Qed.

Lemma Invoke_args_length rt scope ins :
  ∀ w args w', Invoke_args rt scope ins w = (Done (args, None), w') →
  length args = length ins.
Proof.
  induction ins as [|t rest IH]; intros w args w'; simpl.
  { by intros [= <- _]. }
  unfold mbind, M_bind, bind.
  destruct (hydrateType rt scope t w) as [[[argValue [e|]]|] w1]; [done| |done].
  destruct argValue as [v|]; [|done].
  destruct (Invoke_args rt scope rest w1) as [[[args' err']|] w2] eqn:Erest; [|done].
  intros [= <- -> <-]. simpl. f_equal. by apply (IH w1 args' w2).
Qed.

(** X5: a resolution that succeeds gives a value: [Scope.Get] never
    returns a nil value together with a nil error, whatever the providers
    and the [Dynamic] callbacks do, and neither does [hydrateType] return
    the zero [reflect.Value] with a nil error. *)
Theorem successful_resolution_gives_a_value rt scope k w v w' :
  Get rt scope k w = (Done (v, None), w') ∨
  hydrateType rt scope k w = (Done (v, None), w') →
  is_Some v.
Proof.
  intros [Hrun|Hrun]; [by eapply Get_value | by eapply hydrateType_value].
Qed.

Lemma successful_resolution_witness :
  is_Some (Some (VPointer Demo.Port (Some 1%positive))).
Proof.
  eapply (successful_resolution_gives_a_value Demo.rt Demo.onceChild Demo.Port Demo.w0).
  left. vm_compute. reflexivity.
Defined.

(** X6: the first loop of [Scope.Invoke] fails only with the error of
    the resolution of one of the parameters, which is the last thing it
    did: its own [ErrInvalidValue] is never produced, since no
    resolution gives an invalid value without an error. *)
Theorem Invoke_args_error_is_a_resolution_error rt scope ins w args e w' :
  Invoke_args rt scope ins w = (Done (args, Some e), w') →
  ∃ t w0 v, t ∈ ins ∧ hydrateType rt scope t w0 = (Done (v, Some e), w').
Proof.
  revert w args. induction ins as [|t rest IH]; intros w args; simpl; [done|].
  unfold mbind, M_bind, bind.
  destruct (hydrateType rt scope t w) as [[[argValue [e0|]]|] w1] eqn:Et; [| |done].
  - intros [= <- <- <-]. exists t, w, argValue. split; [by left | done].
  - destruct (hydrateType_value rt scope t w argValue w1 Et) as [v ->].
    destruct (Invoke_args rt scope rest w1) as [[[args' err']|] w2] eqn:Erest; [|done].
    intros [= <- -> <-].
    destruct (IH w1 args' Erest) as (t' & w0' & v' & Hin & Hrun).
    exists t', w0', v'. split; [by right | done].
Qed.

Lemma Invoke_args_error_witness :
  ∃ t w0 v, t ∈ [Demo.Database; Demo.Port] ∧
    hydrateType Demo.rt Demo.onceAndFailingChild t w0 =
      (Done (v, Some (UserError "no database")), mkWorld (store Demo.w0) [EvCreate 2 Demo.Database]).
Proof.
  eapply (Invoke_args_error_is_a_resolution_error Demo.rt Demo.onceAndFailingChild
            [Demo.Database; Demo.Port] Demo.w0).
  vm_compute. reflexivity.
Defined.

(** X7: a successful [Scope.Invoke] made its calls in this order: the
    calls that resolve the parameters ([Create], [ProvideDynamic],
    [Dynamic]), then the function, once, with one argument for each
    parameter, then the [AfterPointerUse] notifications, then the
    [Free]s of the release of [Once] instances.  The results are those
    of the function on the store the resolution left. *)
Theorem Invoke_calls_in_order rt scope ins body w results w' :
  Invoke rt scope (Func_ ins body) w = (Done (Some results, None), w') →
  ∃ args w1 resolved notified freed,
    Invoke_args rt scope ins w = (Done (args, None), w1) ∧
    length args = length ins ∧
    results = (body args (store w1)).1 ∧
    calls w' = calls w ++ resolved ++ [EvCall args] ++ notified ++ freed ∧
    Forall (λ ev, isResolutionCall ev = true) resolved ∧
    Forall (λ ev, isNotification ev = true) notified ∧
    Forall (λ ev, isFreeCall ev = true) freed.
Proof.
  unfold Invoke, mbind, M_bind, bind.
  destruct (Invoke_args rt scope ins w) as [[[args [e|]]|] w1] eqn:Eargs; [done| |done].
  unfold Call. destruct (forallb _ _); [|done]. unfold call.
  destruct (body args (store w1)) as [res st2] eqn:Ebody.
  set (w2 := {| store := st2; calls := calls w1 ++ [EvCall args] |}).
  destruct (Invoke_after scope args w2) as [[[e|]|] w3] eqn:Eafter; [done| |done].
  destruct (FreeOnce rt scope w3) as [[?|] w4] eqn:Efree; [|done].
  intros Hret.
  destruct (emits_at _ _ _ _ _ (Invoke_args_emits rt scope ins) Eargs) as (resolved & Hc1 & Hf1).
  destruct (emits_at _ _ _ _ _ (Invoke_after_emits scope args) Eafter) as (notified & Hc2 & Hf2).
  destruct (emits_at _ _ _ _ _ (FreeOnce_emits rt scope) Efree) as (freed & Hc3 & Hf3).
  exists args, w1, resolved, notified, freed. split; [done|].
  split; [by eapply Invoke_args_length|].
  assert (res = results ∧ w4 = w') as [<- <-] by (by inversion Hret).
  split; [by rewrite Ebody|].
  split; [|done]. rewrite Hc3, Hc2. simpl. rewrite Hc1. by rewrite <-!app_assoc.
Qed.

Lemma Invoke_calls_witness :
  ∃ args w1 resolved notified freed,
    Invoke_args Demo.rt Demo.onceChild [PointerTo Demo.Port] Demo.w0 = (Done (args, None), w1) ∧
    length args = length [PointerTo Demo.Port] ∧
    [VPointer Demo.Port (Some 1%positive)] = (args, store w1).1 ∧
    [EvCreate 2 Demo.Port; EvCall [VPointer Demo.Port (Some 1%positive)];
     EvFree 2 Demo.Port (Some 1%positive)] =
      calls Demo.w0 ++ resolved ++ [EvCall args] ++ notified ++ freed ∧
    Forall (λ ev, isResolutionCall ev = true) resolved ∧
    Forall (λ ev, isNotification ev = true) notified ∧
    Forall (λ ev, isFreeCall ev = true) freed.
Proof.
  eapply (Invoke_calls_in_order Demo.rt Demo.onceChild [PointerTo Demo.Port]
            (λ args st, (args, st)) Demo.w0 _
            (mkWorld _ [EvCreate 2 Demo.Port; EvCall [VPointer Demo.Port (Some 1%positive)];
                        EvFree 2 Demo.Port (Some 1%positive)])).
  vm_compute. reflexivity.
Defined.

(** X8: a [Scope.Invoke] that returns an error returns no results and
    has freed nothing.  Either the function was not called, and the
    calls made are those of the resolution of its parameters; or it was
    called once, and the error is that of the last [AfterPointerUse]
    notification made. *)
Theorem Invoke_failure_calls rt scope fn w r e w' :
  Invoke rt scope fn w = (Done (r, Some e), w') →
  r = None ∧
  ((∃ resolved,
      calls w' = calls w ++ resolved ∧
      Forall (λ ev, isResolutionCall ev = true) resolved) ∨
   (∃ args resolved notified last,
      calls w' = calls w ++ resolved ++ [EvCall args] ++ notified ++ [last] ∧
      Forall (λ ev, isResolutionCall ev = true) resolved ∧
      Forall (λ ev, isNotification ev = true) (notified ++ [last]))).
Proof.
  destruct fn as [|v|ins body]; simpl; [done| |].
  { intros [= <- <- <-]. split; [done|]. left. exists []. by rewrite app_nil_r. }
  unfold mbind, M_bind, bind.
  destruct (Invoke_args rt scope ins w) as [[[args [e0|]]|] w1] eqn:Eargs; [| |done].
  { intros [= <- <- <-]. split; [done|]. left.
    by apply (emits_at _ _ _ _ _ (Invoke_args_emits rt scope ins) Eargs). }
  unfold Call. destruct (forallb _ _); [|done]. unfold call.
  destruct (body args (store w1)) as [res st2] eqn:Ebody.
  set (w2 := {| store := st2; calls := calls w1 ++ [EvCall args] |}).
  destruct (Invoke_after scope args w2) as [[[e1|]|] w3] eqn:Eafter; [| |done].
  2: { by destruct (FreeOnce rt scope w3) as [[?|] w4]. }
  intros [= <- <- <-]. split; [done|]. right.
  destruct (emits_at _ _ _ _ _ (Invoke_args_emits rt scope ins) Eargs) as (resolved & Hc1 & Hf1).
  destruct (emits_at _ _ _ _ _ (Invoke_after_emits scope args) Eafter) as (notified & Hc2 & Hf2).
  assert (notified ≠ []) as Hne.
  { intros ->. rewrite app_nil_r in Hc2. clear -Eafter Hc2. revert Eafter Hc2.
    generalize w2. induction args as [|a rest IH]; intros w0; simpl; [done|].
    destruct a as [| k target| | | | |]; try apply IH.
    destruct (providers scope !! k) as [l|]; [|apply IH].
    unfold mbind, M_bind, bind, link_afterPointerUse.
    destruct (AfterPointerUse (provider l)) as [after|]; [|apply IH].
    destruct (inst (store w0) (sid scope) !! key l) as [value|]; [|done].
    unfold call. destruct (after (sid scope) value (store w0)) as [[e2|] st3].
    - intros [= _ <-]. simpl. intros Hc.
      apply (f_equal length) in Hc. rewrite length_app in Hc. simpl in Hc. lia.
    - intros Hrun Hc.
      destruct (emits_at _ _ _ _ _ (Invoke_after_emits scope rest) Hrun) as (evs & Hc' & _).
      rewrite Hc' in Hc. simpl in Hc. rewrite <-app_assoc in Hc.
      apply (f_equal length) in Hc. rewrite !length_app in Hc. simpl in Hc. lia. }
  destruct (exists_last Hne) as (notified' & last & ->).
  exists args, resolved, notified', last. split; [|done].
  rewrite Hc2. simpl. rewrite Hc1. by rewrite <-!app_assoc.
Qed.

Lemma Invoke_failure_witness :
  None = (None : option Result) ∧
  ((∃ resolved,
      [EvCreate 2 Demo.Port; EvCall [VPointer Demo.Port (Some 1%positive)];
       EvAfterPointerUse 2 Demo.Port (Some 1%positive)] = calls Demo.w0 ++ resolved ∧
      Forall (λ ev, isResolutionCall ev = true) resolved) ∨
   (∃ args resolved notified last,
      [EvCreate 2 Demo.Port; EvCall [VPointer Demo.Port (Some 1%positive)];
       EvAfterPointerUse 2 Demo.Port (Some 1%positive)] =
        calls Demo.w0 ++ resolved ++ [EvCall args] ++ notified ++ [last] ∧
      Forall (λ ev, isResolutionCall ev = true) resolved ∧
      Forall (λ ev, isNotification ev = true) (notified ++ [last]))).
Proof.
  eapply (Invoke_failure_calls Demo.rt Demo.onceAfterFailsChild
            (Demo.identity [PointerTo Demo.Port]) Demo.w0 None _
            (mkWorld _ [EvCreate 2 Demo.Port; EvCall [VPointer Demo.Port (Some 1%positive)];
                        EvAfterPointerUse 2 Demo.Port (Some 1%positive)])).
  vm_compute. reflexivity.
Defined.

(** ** Teardown *)

Lemma rangeOrder_empty rt : rangeOrder rt ∅ = [].
Proof.
  apply Permutation_nil_r. rewrite (rangeOrder_perm rt ∅). by rewrite map_to_list_empty.
Qed.

Lemma keyed_onceChild : keyed Demo.onceChild.
Proof. apply keyed_ProvideScoped, keyed_child. Qed.

Lemma keyed_onceFreeFailsChild : keyed Demo.onceFreeFailsChild.
Proof. apply keyed_ProvideScoped, keyed_child. Qed.

Lemma keyed_foreverChild : keyed More.foreverChild.
Proof. apply keyed_new, keyed_ProvideScoped, keyed_global. Qed.

Lemma freeLeavesScope_onceChild : freeLeavesScope Demo.onceChild.
Proof.
  intros k l free value Hl Hfree st. simpl in Hl.
  rewrite lookup_insert in Hl. case_decide; [|by rewrite lookup_empty in Hl].
  injection Hl as <-. injection Hfree as <-. reflexivity.
Qed.

Lemma freeLeavesScope_onceFreeFailsChild : freeLeavesScope Demo.onceFreeFailsChild.
Proof.
  intros k l free value Hl Hfree st. simpl in Hl.
  rewrite lookup_insert in Hl. case_decide; [|by rewrite lookup_empty in Hl].
  injection Hl as <-. injection Hfree as <-. reflexivity.
Qed.

Lemma freeLeavesScope_foreverChild : freeLeavesScope More.foreverChild.
Proof.
  intros k l free value Hl Hfree st. simpl in Hl.
  rewrite lookup_empty, lookup_insert in Hl. case_decide; [|by rewrite lookup_empty in Hl].
  injection Hl as <-. injection Hfree as <-. reflexivity.
Qed.

Lemma keyed_closingOnceChild : keyed More.closingOnceChild.
Proof. apply keyed_ProvideScoped, keyed_child. Qed.

Lemma freeLeavesScope_closingOnceChild : freeLeavesScope More.closingOnceChild.
Proof.
  intros k l free value Hl Hfree st. simpl in Hl.
  rewrite lookup_insert in Hl. case_decide; [|by rewrite lookup_empty in Hl].
  injection Hl as <-. injection Hfree as <-. by destruct value.
Qed.

(** X9: [Scope.Free] returns and leaves the instance map of the scope
    empty.  It calls nothing but [Free] callbacks: for each key, the
    [Free] of its link on the cached instance, once, when the key has a
    cached instance and a link with a [Free]; nothing otherwise.  And
    it runs them: whatever the [Free] of a cached instance establishes
    in the store, and the rest of the teardown keeps, holds when
    [Scope.Free] returns. *)
Theorem Free_releases_every_instance rt scope w :
  keyed scope → freeLeavesScope scope →
  ∃ err w' evs,
    Scope_Free rt scope w = (Done err, w') ∧
    inst (store w') (sid scope) = ∅ ∧
    calls w' = calls w ++ evs ∧
    Forall (λ ev, isFreeCall ev = true) evs ∧
    (∀ k, List.filter (isFreeOf (sid scope) k) evs =
          freeAllCall scope k (inst (store w) (sid scope) !! k)) ∧
    (∀ (P : Store → Prop) k value l free,
       teardownKeeps scope P →
       inst (store w) (sid scope) !! k = Some value →
       getLink scope k = Some l → Free (provider l) = Some free →
       (∀ st, P (free (sid scope) value st).2) →
       P (store w')).
Proof.
  intros Hkeyed Hleaves.
  destruct (Scope_Free_spec rt scope w Hkeyed Hleaves) as (err & w' & evs & Hrun & Hc & He & Hevs).
  exists err, w', evs. split; [done|]. split; [done|]. split; [done|].
  split; [|split; [done|]].
  - destruct (emits_at _ _ _ _ _ (Scope_Free_emits rt scope) Hrun) as (evs' & Hc' & Hf).
    rewrite Hc in Hc'. by apply app_inv_head in Hc' as ->.
  - intros P k value l free HP. by apply (Scope_Free_runs rt scope P w err w').
Qed.

(** With a provider of [Port] whose [Free] zeroes the port: after a
    [Get] has created the port 8080 in the cell 1, [Free] on the scope
    leaves the map empty and the cell zeroed. *)
Lemma Free_releases_witness :
  ∃ err w',
    Scope_Free Demo.rt More.closingOnceChild
      (Get Demo.rt More.closingOnceChild Demo.Port Demo.w0).2 = (Done err, w') ∧
    inst (store w') (sid More.closingOnceChild) = ∅ ∧
    heap (store (Get Demo.rt More.closingOnceChild Demo.Port Demo.w0).2) !! 1%positive
      = Some (VBasic Demo.Port (AInt 8080)) ∧
    heap (store w') !! 1%positive = Some (VBasic Demo.Port (AInt 0)).
Proof.
  destruct (Free_releases_every_instance Demo.rt More.closingOnceChild
              (Get Demo.rt More.closingOnceChild Demo.Port Demo.w0).2
              keyed_closingOnceChild freeLeavesScope_closingOnceChild)
    as (err & w' & evs & Hrun & Hempty & _ & _ & _ & Hruns).
  exists err, w'. split; [exact Hrun|]. split; [exact Hempty|]. split; [reflexivity|].
  apply (Hruns (λ st, heap st !! 1%positive = Some (VBasic Demo.Port (AInt 0)))
           Demo.Port (Some 1%positive)
           {| provider := More.closingProvider LifetimeOnce; key := Demo.Port |}
           More.closePort (teardownKeeps_closing 1%positive)).
  - reflexivity.
  - reflexivity.
  - reflexivity.
  - intros st. simpl. apply lookup_insert_eq.
Defined.

(** X10: [Scope.FreeOnce] keeps what is not [Once]: the cached instance
    of a key whose link has lifetime [Forever] or [Scope] is still
    cached afterwards, and its [Free] is not called. *)
Theorem FreeOnce_keeps_longer_lived_instances rt scope k l w :
  keyed scope → freeLeavesScope scope →
  getLink scope k = Some l → lifetime l ≠ LifetimeOnce →
  ∃ err w' evs,
    FreeOnce rt scope w = (Done err, w') ∧
    calls w' = calls w ++ evs ∧
    inst (store w') (sid scope) !! k = inst (store w) (sid scope) !! k ∧
    List.filter (isFreeOf (sid scope) k) evs = [].
Proof.
  intros Hkeyed Hleaves Hl Hlife.
  destruct (FreeOnce_spec rt scope w Hkeyed Hleaves) as (err & w' & evs & Hrun & Hc & Hi & Hevs).
  exists err, w', evs. split; [done|]. split; [done|]. split.
  - rewrite Hi. unfold freedOnce. rewrite Hl. by rewrite bool_decide_eq_false_2.
  - rewrite Hevs. unfold freeOnceCall. rewrite Hl.
    destruct (inst (store w) (sid scope) !! k); [|done]. by rewrite decide_False.
Qed.

Lemma FreeOnce_keeps_witness :
  ∃ err w' evs,
    FreeOnce Demo.rt More.foreverChild
      (SetScoped More.foreverChild Demo.Port (Some 7%positive) Demo.w0).2 = (Done err, w') ∧
    calls w' = [] ++ evs ∧
    inst (store w') (sid More.foreverChild) !! Demo.Port =
      inst (store (SetScoped More.foreverChild Demo.Port (Some 7%positive) Demo.w0).2)
           (sid More.foreverChild) !! Demo.Port ∧
    List.filter (isFreeOf (sid More.foreverChild) Demo.Port) evs = [].
Proof.
  apply (FreeOnce_keeps_longer_lived_instances Demo.rt More.foreverChild Demo.Port
           {| provider := Demo.portProvider LifetimeForever; key := Demo.Port |}
           (SetScoped More.foreverChild Demo.Port (Some 7%positive) Demo.w0).2
           keyed_foreverChild freeLeavesScope_foreverChild).
  - reflexivity.
  - simpl. discriminate.
Defined.

(** X11: on a scope whose instance map is empty, [Scope.Free] and
    [Scope.FreeOnce] return nil and change nothing, in whatever order a
    [range] enumerates a map; so a second [Free] after a first does
    nothing. *)
Theorem teardown_of_an_empty_scope_does_nothing rt scope w :
  inst (store w) (sid scope) = ∅ →
  Scope_Free rt scope w = (Done None, w) ∧
  FreeOnce rt scope w = (Done None, w).
Proof.
  intros He. unfold Scope_Free, FreeOnce. by rewrite He, rangeOrder_empty.
Qed.

Lemma teardown_of_an_empty_scope_witness :
  Scope_Free Demo.rt Demo.onceChild Demo.w0 = (Done None, Demo.w0) ∧
  FreeOnce Demo.rt Demo.onceChild Demo.w0 = (Done None, Demo.w0).
Proof.
  apply (teardown_of_an_empty_scope_does_nothing Demo.rt Demo.onceChild Demo.w0).
  reflexivity.
Defined.

(** X12: the error of [Scope.Free] collects the errors of the [Free]
    callbacks: it is nil, or a [multiError] that holds at least one
    error, each of them returned by a [Free] callback of a link of the
    scope; and it holds the error of every [Free] that fails on a cached
    instance. *)
Theorem Free_collects_the_errors rt scope w err w' :
  keyed scope → freeLeavesScope scope →
  Scope_Free rt scope w = (Done err, w') →
  (err = None ∨
   ∃ es, err = Some (multiError es) ∧ es ≠ [] ∧ Forall (freeError scope) es) ∧
  ∀ k value l free e,
    inst (store w) (sid scope) !! k = Some value →
    getLink scope k = Some l → Free (provider l) = Some free →
    (∀ st, (free (sid scope) value st).1 = Some e) →
    ∃ es, err = Some (multiError es) ∧ e ∈ es.
Proof.
  intros Hkeyed Hleaves. unfold Scope_Free, mbind, M_bind, bind.
  destruct (Free_range scope (rangeOrder rt (inst (store w) (sid scope))) [] w)
    as [[multi|] w1] eqn:Erange; [|done].
  destruct (Free_range_errors scope Hkeyed Hleaves _ _ _ _ _ Erange) as (es & -> & Hes & Hall).
  simpl. intros Hret.
  assert (err = match es with [] => None | _ => Some (multiError es) end) as ->.
  { destruct es; by inversion Hret. }
  split.
  - destruct es as [|e0 es']; [by left|]. right. by exists (e0 :: es').
  - intros k value l free e Hk Hl Hf He.
    assert (e ∈ es) as Hin.
    { eapply Hall; try done. apply elem_of_rangeOrder. by rewrite Hk. }
    destruct es as [|e0 es']; [by apply elem_of_nil in Hin|]. by exists (e0 :: es').
Qed.

Lemma Free_collects_witness :
  (Some (multiError [UserError "free failed"]) = None ∨
   ∃ es, Some (multiError [UserError "free failed"]) = Some (multiError es) ∧ es ≠ [] ∧
         Forall (freeError Demo.onceFreeFailsChild) es) ∧
  ∀ k value l free e,
    inst (store (SetScoped Demo.onceFreeFailsChild Demo.Port (Some 7%positive) Demo.w0).2)
         (sid Demo.onceFreeFailsChild) !! k = Some value →
    getLink Demo.onceFreeFailsChild k = Some l → Free (provider l) = Some free →
    (∀ st, (free (sid Demo.onceFreeFailsChild) value st).1 = Some e) →
    ∃ es, Some (multiError [UserError "free failed"]) = Some (multiError es) ∧ e ∈ es.
Proof.
  eapply (Free_collects_the_errors Demo.rt Demo.onceFreeFailsChild
            (SetScoped Demo.onceFreeFailsChild Demo.Port (Some 7%positive) Demo.w0).2
            (Some (multiError [UserError "free failed"])) _
            keyed_onceFreeFailsChild freeLeavesScope_onceFreeFailsChild).
  vm_compute. reflexivity.
Defined.

(** ** Hydration *)

Lemma forEach_same {A} (f : A → M (A * option error)) items :
  Forall (λ x, ∀ w x' err w', f x w = (Done (x', err), w') → x' = x) items →
  ∀ w items' err w', forEach f items w = (Done (items', err), w') → items' = items.
Proof.
  induction 1 as [|item rest Hitem Hrest IH]; intros w items' err w'.
  { rewrite forEach_nil. by intros [= <- _]. }
  rewrite forEach_cons. destruct (f item w) as [[[item' [e|]]|] w1] eqn:Ef; [| |done].
  - intros [= <- _ _]. by rewrite (Hitem _ _ _ _ Ef).
  - destruct (forEach f rest w1) as [[[rest' err']|] w2] eqn:Er; [|done].
    intros [= <- _ _]. by rewrite (Hitem _ _ _ _ Ef), (IH _ _ _ _ Er).
Qed.

Lemma forEach_ext {A} (f g : A → M (A * option error)) items w :
  (∀ x w0, f x w0 = g x w0) → forEach f items w = forEach g items w.
Proof.
  intros Hfg. revert w. induction items as [|item rest IH]; intros w; [done|].
  rewrite !forEach_cons, Hfg. destruct (g item w) as [[[item' [e|]]|] w1]; try done.
  by rewrite IH.
Qed.

Lemma hydrateValue_sticky rt scope inner :
  ∀ w v' err w',
    hydrateValue rt scope StickyRO inner w = (Done (v', err), w') → v' = inner.
Proof.
  induction inner as [t a|elem target|k t isNil|t|t elems IH|t elems IH|t fields IH
                     |t zero entries IH] using Value_nested_ind;
    intros w v' err w'; rewrite hydrateValue_unfold;
    destruct (Get rt scope _ w) as [[[val [e|]]|] w0]; try done;
    try (by intros [= <- _ _]);
    destruct (isNoProvider (Some e)); simpl; try (by intros [= <- _ _]);
    unfold mbind, M_bind, bind.
  - destruct (forEach _ elems w0) as [[[elems' err']|] w1] eqn:El; [|done].
    intros [= <- _ _]. do 2 f_equal. eapply forEach_same; [|exact El].
    eapply Forall_impl; [exact IH|]. intros v Hv. apply Hv.
  - destruct (forEach _ elems w0) as [[[elems' err']|] w1] eqn:El; [|done].
    intros [= <- _ _]. f_equal. eapply forEach_same; [|exact El].
    eapply Forall_impl; [exact IH|]. intros v Hv. apply Hv.
  - destruct (forEach _ fields w0) as [[[fields' err']|] w1] eqn:El; [|done].
    intros [= <- _ _]. f_equal. eapply forEach_same; [|exact El].
    eapply Forall_impl; [exact IH|]. intros [kind v] Hv w2 [kind' x'] err2 w3.
    unfold hydrateField, mbind, M_bind, bind. simpl.
    destruct (hydrateValue rt scope StickyRO v w2) as [[[v2 err3]|] w4] eqn:Ev; [|done].
    intros [= <- <- _ _]. f_equal. by eapply Hv.
  - destruct (forEach _ entries w0) as [[[entries' err']|] w1] eqn:El; [|done].
    intros [= <- _ _]. f_equal. eapply forEach_same; [|exact El].
    apply Forall_forall. intros entry _ w2 x' err2 w3.
    unfold hydrateEntry, mbind, M_bind, bind.
    destruct (hydrateValue rt scope ReadWrite zero w2) as [[[nv [e2|]]|] w4]; [| |done].
    + by intros [= <- _ _].
    + done.
Qed.

(** X13: what [reflect]'s read-only bits let the hydrator write.
    - A slot reached through an unexported field that is not embedded
      is never written: whatever the scope resolves, [hydrateValue] on
      such a slot, when it returns, leaves the content as it was, at
      every depth.
    - An embedded field of an unexported type is itself never replaced
      by a resolved instance; but when it is a struct whose type does
      not resolve, its fields are hydrated exactly as those of a struct
      that can be set: the exported ones are written. *)
Theorem unexported_slots_are_never_written rt scope :
  (∀ inner w v' err w',
     hydrateValue rt scope StickyRO inner w = (Done (v', err), w') → v' = inner) ∧
  (∀ inner w val w0,
     Get rt scope (typeOf inner) w = (Done (val, None), w0) →
     hydrateValue rt scope EmbedRO inner w = (Done (inner, None), w0)) ∧
  (∀ t fields w val w0,
     Get rt scope t w = (Done (val, Some ErrNoProvider), w0) →
     hydrateValue rt scope EmbedRO (VStruct t fields) w =
     hydrateValue rt scope ReadWrite (VStruct t fields) w).
Proof.
  split; [|split].
  - intros inner. apply hydrateValue_sticky.
  - intros inner w val w0 HGet. by rewrite hydrateValue_unfold, HGet.
  - intros t fields w val w0 HGet.
    rewrite (hydrateValue_unresolved rt scope EmbedRO (VStruct t fields) w val w0 HGet).
    rewrite (hydrateValue_unresolved rt scope ReadWrite (VStruct t fields) w val w0 HGet).
    unfold hydrateInside, mbind, M_bind, bind.
    rewrite (forEach_ext (hydrateField rt scope EmbedRO) (hydrateField rt scope ReadWrite));
      [done|].
    intros [kind v] w1. unfold hydrateField. by destruct kind.
Qed.

(** With a provider of [Port] on the scope: an [Env] reached through
    an unexported field keeps both its ports; an [Outer], whose
    embedded [inner] is unexported, gets the exported port of [inner]
    filled and the unexported one left. *)
Lemma unexported_slots_witness :
  (∃ v' err w',
     hydrateValue More.rt Demo.onceChild StickyRO (Demo.env 0 0) Demo.w0
       = (Done (v', err), w') ∧ v' = Demo.env 0 0) ∧
  hydrateValue More.rt Demo.onceChild EmbedRO (More.inner 0 0) Demo.w0 =
    hydrateValue More.rt Demo.onceChild ReadWrite (More.inner 0 0) Demo.w0 ∧
  (hydrateValue More.rt Demo.onceChild ReadWrite (More.outer 0 0) Demo.w0).1 =
    Done (More.outer 8080 0, None).
Proof.
  destruct (unexported_slots_are_never_written More.rt Demo.onceChild) as (Hs & _ & He).
  split; [|split].
  - eexists _, _, _. split; [vm_compute; reflexivity|].
    eapply (Hs (Demo.env 0 0) Demo.w0). vm_compute. reflexivity.
  - apply (He More.Inner _ Demo.w0 None Demo.w0). reflexivity.
  - vm_compute. reflexivity.
Defined.

Lemma assignTo_type rt x t x' : assignTo rt x t = Some x' → typeOf x' = t.
Proof.
  unfold assignTo. case_decide; [by intros [= <-]|].
  destruct (implements rt (typeOf x) t); [by intros [= <-] | done].
Qed.

Lemma hydrateValue_typeOf rt scope ro inner w v' err w' :
  hydrateValue rt scope ro inner w = (Done (v', err), w') → typeOf v' = typeOf inner.
Proof.
  rewrite hydrateValue_unfold.
  destruct (Get rt scope (typeOf inner) w) as [[[val [e|]]|] w0]; [| |done].
  - destruct (isNoProvider (Some e)); simpl; [|by intros [= <- _ _]].
    destruct inner as [| | |t [elems|]|t elems|t fields|t zero entries]; simpl;
      try (by intros [= <- _ _]); unfold mbind, M_bind, bind;
      destruct (forEach _ _ w0) as [[[items' err']|] w1]; try done;
      by intros [= <- _ _].
  - simpl. destruct ro; simpl; try (by intros [= <- _ _]).
    unfold mbind, M_bind, bind, setFrom.
    destruct val as [[| elem [a|]| | | | |]|]; try done.
    destruct (heap (store w0) !! a) as [x|]; [|done].
    destruct (assignTo rt x (typeOf inner)) as [x'|] eqn:Ea; [|done].
    intros [= <- _ _]. by eapply assignTo_type.
Qed.

Lemma forEach_entries_zeros rt scope zero entries :
  ∀ w values w',
    forEach (hydrateValue rt scope ReadWrite) (replicate (length entries) zero) w
      = (Done (values, None), w') →
    forEach (hydrateEntry rt scope ReadWrite zero) entries w
      = (Done (zip entries.*1 values, None), w').
Proof.
  induction entries as [|entry rest IH]; intros w values w'.
  { by intros [= <- <-]. }
  change (replicate (length (entry :: rest)) zero)
    with (zero :: replicate (length rest) zero). rewrite !forEach_cons.
  unfold hydrateEntry at 1. unfold mbind, M_bind, bind.
  destruct (hydrateValue rt scope ReadWrite zero w) as [[[nv [e|]]|] w1]; [done| |done].
  destruct (forEach (hydrateValue rt scope ReadWrite) (replicate (length rest) zero) w1)
    as [[[values' err']|] w2] eqn:Er; [|done].
  intros [= <- -> <-]. simpl. by rewrite (IH _ _ _ Er).
Qed.

(** X15: when the type of a map has no provider, [hydrateValue] does
    not hydrate the values the map holds but replaces them: the result
    is the map with the same keys, in the order of [MapKeys], and for
    values the results of hydrating one fresh zero value of the element
    type after the other, each in the state the one before left,
    whatever the entries held.  At the first of these that fails, the
    entries hydrated before are replaced, that entry and those after it
    are as they were, and the error is returned. *)
Theorem map_values_are_replaced rt scope t zero entries w val w0 :
  Get rt scope t w = (Done (val, Some ErrNoProvider), w0) →
  (∀ values w',
     forEach (hydrateValue rt scope ReadWrite) (replicate (length entries) zero) w0
       = (Done (values, None), w') →
     hydrateValue rt scope ReadWrite (VMap t zero entries) w
       = (Done (VMap t zero (zip entries.*1 values), None), w')) ∧
  (∀ pre entry post values w1 nv e w2,
     entries = pre ++ entry :: post →
     forEach (hydrateValue rt scope ReadWrite) (replicate (length pre) zero) w0
       = (Done (values, None), w1) →
     hydrateValue rt scope ReadWrite zero w1 = (Done (nv, Some e), w2) →
     hydrateValue rt scope ReadWrite (VMap t zero entries) w
       = (Done (VMap t zero (zip pre.*1 values ++ entry :: post), Some e), w2)).
Proof.
  intros HGet. split.
  - intros values w' Hzeros.
    rewrite (hydrateValue_unresolved rt scope ReadWrite (VMap t zero entries) w val w0 HGet).
    unfold hydrateInside, mbind, M_bind, bind.
    by rewrite (forEach_entries_zeros _ _ _ _ _ _ _ Hzeros).
  - intros pre entry post values w1 nv e w2 -> Hzeros Hfail.
    rewrite (hydrateValue_unresolved rt scope ReadWrite (VMap t zero _) w val w0 HGet).
    unfold hydrateInside, mbind, M_bind, bind.
    rewrite (forEach_abort _ pre entry post (zip pre.*1 values) entry e w0 w1 w2); [done| |].
    + by apply forEach_entries_zeros.
    + unfold hydrateEntry, mbind, M_bind, bind. by rewrite Hfail.
Qed.

(** On a scope with nothing to resolve, the port 80 that the map holds
    becomes the zero port. *)
Lemma map_values_witness :
  hydrateValue More.rt Demo.child ReadWrite
    (More.ports [(VBasic Demo.Name (AString "http"), VBasic Demo.Port (AInt 80))]) Demo.w0
  = (Done (More.ports [(VBasic Demo.Name (AString "http"), VBasic Demo.Port (AInt 0))],
           None), Demo.w0).
Proof.
  destruct (map_values_are_replaced More.rt Demo.child More.Ports (VBasic Demo.Port (AInt 0))
              [(VBasic Demo.Name (AString "http"), VBasic Demo.Port (AInt 80))]
              Demo.w0 None Demo.w0) as [Hok _]; [reflexivity|].
  apply (Hok [VBasic Demo.Port (AInt 0)] Demo.w0). reflexivity.
Defined.

(** X16: a map with an entry whose slot carries a read-only bit (the
    map is an unexported field, embedded or not, or lies below an
    unexported field that is not embedded) makes hydration panic as
    soon as the fresh value for the first entry is hydrated without
    error, since [SetMapIndex] refuses such a map; this needs no
    provider of any type. *)
Theorem unexported_map_entry_panics rt scope ro t zero entry entries w val w0 nv w1 :
  readOnly ro = true →
  Get rt scope t w = (Done (val, Some ErrNoProvider), w0) →
  hydrateValue rt scope ReadWrite zero w0 = (Done (nv, None), w1) →
  hydrateValue rt scope ro (VMap t zero (entry :: entries)) w = (Crash, w1).
Proof.
  intros Hro HGet Hzero. rewrite hydrateValue_unfold.
  change (typeOf (VMap t zero (entry :: entries))) with t. rewrite HGet.
  change (bind (forEach (hydrateEntry rt scope ro zero) (entry :: entries))
            (λ '(entries', err), ret (VMap t zero entries', err)) w0 = (Crash, w1)).
  unfold bind. rewrite forEach_cons.
  unfold hydrateEntry at 1. unfold mbind, M_bind, bind. by rewrite Hzero, Hro.
Qed.

(** A struct whose unexported field [ports] holds one entry makes
    hydration panic on a scope with nothing to resolve; the same map in
    an exported field of an embedded unexported struct carries no
    read-only bit and is hydrated. *)
Lemma unexported_map_entry_witness :
  hydrateValue More.rt Demo.child ReadWrite
    (VStruct More.Inner
       [(Unexported,
         More.ports [(VBasic Demo.Name (AString "http"), VBasic Demo.Port (AInt 80))])])
    Demo.w0 = (Crash, Demo.w0) ∧
  hydrateValue More.rt Demo.child ReadWrite
    (VStruct More.Outer
       [(EmbeddedUnexported,
         VStruct More.Inner
           [(Exported,
             More.ports [(VBasic Demo.Name (AString "http"),
                          VBasic Demo.Port (AInt 80))])])])
    Demo.w0
  = (Done (VStruct More.Outer
             [(EmbeddedUnexported,
               VStruct More.Inner
                 [(Exported,
                   More.ports [(VBasic Demo.Name (AString "http"),
                                VBasic Demo.Port (AInt 0))])])], None), Demo.w0).
Proof.
  split; [|vm_compute; reflexivity].
  rewrite (hydrateValue_unresolved More.rt Demo.child ReadWrite _ Demo.w0 None Demo.w0 eq_refl).
  unfold hydrateInside, mbind, M_bind, bind. rewrite forEach_cons.
  unfold hydrateField at 1. unfold mbind, M_bind, bind.
  change (fieldAccess ReadWrite (Unexported, More.ports
            [(VBasic Demo.Name (AString "http"), VBasic Demo.Port (AInt 80))]).1)
    with StickyRO.
  pose proof (unexported_map_entry_panics More.rt Demo.child StickyRO More.Ports
                (VBasic Demo.Port (AInt 0))
                (VBasic Demo.Name (AString "http"), VBasic Demo.Port (AInt 80)) []
                Demo.w0 None Demo.w0 (VBasic Demo.Port (AInt 0)) Demo.w0
                eq_refl eq_refl eq_refl) as Hcrash.
  simpl snd. unfold More.ports at 1. by rewrite Hcrash.
Defined.

(** ** A scope chain with nothing to resolve *)

Lemma forEach_unchanged {A} (f : A → M (A * option error)) (P : A → Prop) items w :
  Forall P items →
  (∀ x, P x → f x w = (Done (x, None), w)) →
  forEach f items w = (Done (items, None), w).
Proof.
  intros Hitems Hf. induction Hitems as [|item rest Hitem Hrest IH]; [done|].
  by rewrite forEach_cons, (Hf _ Hitem), IH.
Qed.

Lemma barren_keyed scope : (∀ k, barren scope k) → keyed scope.
Proof.
  revert scope. refine (Scope_chain_ind _ _ _).
  - intros s Hroot Hb. destruct s as [id dyn par provs]; simpl in *. subst par.
    split; [|done]. intros k l Hl. destruct (Hb k) as [Hn _]. congruence.
  - intros s p Hp IH Hb. destruct s as [id dyn par provs]; simpl in *. subst par.
    split.
    + intros k l Hl. destruct (Hb k) as [Hn _]. congruence.
    + apply IH. intros k. by destruct (Hb k) as (_ & _ & ?).
Qed.

Lemma hydrateValue_barren rt scope w :
  (∀ t, provideDynamic rt t = None) →
  (∀ k, barren scope k) →
  (∀ k, uncached scope k (store w)) →
  ∀ inner ro, noEntries inner = true →
              hydrateValue rt scope ro inner w = (Done (inner, None), w).
Proof.
  intros Hrt Hbarren Hempty.
  assert (∀ k, Get rt scope k w = (Done (None, Some ErrNoProvider), w)) as HGet.
  { intros k. by apply Get_barren. }
  induction inner as [t a|elem target|k t isNil|t|t elems IH|t elems IH|t fields IH
                     |t zero entries IH] using Value_nested_ind;
    intros ro Hno; rewrite (hydrateValue_unresolved _ _ _ _ _ _ _ (HGet _)); simpl;
    try done; unfold mbind, M_bind, bind.
  - simpl in Hno. rewrite (forEach_unchanged _ (λ v, noEntries v = true ∧
        ∀ ro, noEntries v = true → hydrateValue rt scope ro v w = (Done (v, None), w))); [done| |].
    + apply Forall_forall. intros v Hv. split.
      * rewrite forallb_forall in Hno. apply Hno. by apply list_elem_of_In.
      * rewrite Forall_forall in IH. by apply IH.
    + intros v [Hv1 Hv2]. by apply Hv2.
  - simpl in Hno. rewrite (forEach_unchanged _ (λ v, noEntries v = true ∧
        ∀ ro, noEntries v = true → hydrateValue rt scope ro v w = (Done (v, None), w))); [done| |].
    + apply Forall_forall. intros v Hv. split.
      * rewrite forallb_forall in Hno. apply Hno. by apply list_elem_of_In.
      * rewrite Forall_forall in IH. by apply IH.
    + intros v [Hv1 Hv2]. by apply Hv2.
  - simpl in Hno. rewrite (forEach_unchanged _ (λ field : FieldKind * Value,
        noEntries field.2 = true ∧
        ∀ ro, noEntries field.2 = true →
              hydrateValue rt scope ro field.2 w = (Done (field.2, None), w))); [done| |].
    + apply Forall_forall. intros field Hv. split.
      * rewrite forallb_forall in Hno. apply (Hno field). by apply list_elem_of_In.
      * rewrite Forall_forall in IH. by apply IH.
    + intros [kind v] [Hv1 Hv2]. unfold hydrateField, mbind, M_bind, bind. simpl in *.
      by rewrite Hv2.
  - simpl in Hno. by destruct entries.
Qed.

(** X17: on a chain of scopes with no provider, no [Dynamic] callback
    and no cached instance, and when no type implements [Dynamic],
    hydration changes nothing and reports no error: a value that holds
    no map entry is left as it is, whether its slots can be set or
    not, and the state is untouched. *)
Theorem hydration_without_providers_changes_nothing rt scope w inner ro :
  (∀ t, provideDynamic rt t = None) →
  (∀ k, barren scope k) →
  (∀ k, uncached scope k (store w)) →
  noEntries inner = true →
  hydrateValue rt scope ro inner w = (Done (inner, None), w).
Proof. intros Hrt Hbarren Hempty. by apply hydrateValue_barren. Qed.

Lemma barren_child k : barren Demo.child k.
Proof. simpl. by rewrite !lookup_empty. Qed.

Lemma uncached_child_w0 k : uncached Demo.child k (store Demo.w0).
Proof. simpl. unfold inst. simpl. by rewrite !lookup_empty. Qed.

Lemma hydration_without_providers_witness :
  hydrateValue Demo.rt Demo.child ReadWrite (Demo.config "db" 5432) Demo.w0 =
    (Done (Demo.config "db" 5432, None), Demo.w0).
Proof.
  apply (hydration_without_providers_changes_nothing Demo.rt Demo.child Demo.w0
           (Demo.config "db" 5432) ReadWrite).
  - reflexivity.
  - exact barren_child.
  - exact uncached_child_w0.
  - reflexivity.
Defined.

Lemma Invoke_args_barren rt scope w ins :
  (∀ t, provideDynamic rt t = None) →
  (∀ k, barren scope k) →
  (∀ k, uncached scope k (store w)) →
  Forall (λ t, noEntries (zeroValue rt t) = true) ins →
  Invoke_args rt scope ins w = (Done (zeroValue rt <$> ins, None), w).
Proof.
  intros Hrt Hbarren Hempty. induction 1 as [|t rest Ht Hrest IH]; [done|].
  simpl. unfold mbind, M_bind, bind.
  assert (hydrateType rt scope t w = (Done (Some (zeroValue rt t), None), w)) as ->.
  { unfold hydrateType, mbind, M_bind, bind. destruct t as [id|elem].
    - by rewrite hydrateValue_barren.
    - rewrite Get_barren by done. simpl. by rewrite hydrateValue_barren. }
  by rewrite IH.
Qed.

Lemma Invoke_after_barren scope args w :
  (∀ k, barren scope k) → Invoke_after scope args w = (Done None, w).
Proof.
  intros Hbarren. induction args as [|argValue rest IH]; [done|]. simpl.
  destruct argValue as [| k target| | | | |]; try exact IH.
  destruct (barren_here _ _ (Hbarren k)) as [-> _]. exact IH.
Qed.

Lemma FreeOnce_range_linkless scope :
  (∀ k, getLink scope k = None) →
  ∀ keys multi w,
  ∃ w', FreeOnce_range scope keys multi w = (Done multi, w') ∧
        calls w' = calls w ∧
        ∀ k, inst (store w') (sid scope) !! k =
             if decide (k ∈ keys) then None else inst (store w) (sid scope) !! k.
Proof.
  intros Hn. induction keys as [|key rest IH]; intros multi w.
  { exists w. split; [done|]. split; [done|]. intros k.
    rewrite decide_False; [done|]. apply not_elem_of_nil. }
  simpl. rewrite Hn. destruct (inst (store w) (sid scope) !! key) eqn:Ekey.
  - unfold mbind, M_bind, bind, update.
    destruct (IH multi {| store := deleteInstance (sid scope) key (store w);
                          calls := calls w |}) as (w' & -> & Hc & Hi).
    exists w'. split; [done|]. split; [done|]. intros k. rewrite Hi. simpl.
    rewrite inst_deleteInstance, (decide_True (P := sid scope = sid scope)) by done.
    destruct (decide (k ∈ rest)) as [Hin|Hin], (decide (k ∈ key :: rest)) as [Hin'|Hin'];
      try done.
    + exfalso. apply Hin', elem_of_cons. by right.
    + apply elem_of_cons in Hin' as [->|?]; [apply lookup_delete_eq | done].
    + rewrite lookup_delete_ne; [done|]. intros ->. apply Hin', elem_of_cons. by left.
  - destruct (IH multi w) as (w' & -> & Hc & Hi).
    exists w'. split; [done|]. split; [done|]. intros k. rewrite Hi.
    destruct (decide (k ∈ rest)) as [Hin|Hin], (decide (k ∈ key :: rest)) as [Hin'|Hin'];
      try done.
    + exfalso. apply Hin', elem_of_cons. by right.
    + by apply elem_of_cons in Hin' as [->|?].
Qed.

Lemma FreeOnce_linkless rt scope w :
  (∀ k, getLink scope k = None) →
  ∃ w', FreeOnce rt scope w = (Done None, w') ∧
        calls w' = calls w ∧ inst (store w') (sid scope) = ∅.
Proof.
  intros Hn. unfold FreeOnce, mbind, M_bind, bind.
  destruct (FreeOnce_range_linkless scope Hn (rangeOrder rt (inst (store w) (sid scope))) [] w)
    as (w' & -> & Hc & Hi).
  exists w'. split; [done|]. split; [done|]. apply map_eq. intros k.
  rewrite Hi, lookup_empty. case_decide as Hin; [done|].
  destruct (inst (store w) (sid scope) !! k) eqn:Ek; [|done].
  exfalso. apply Hin, elem_of_rangeOrder. by rewrite Ek.
Qed.

(** X18: on such a chain of scopes, [Scope.Invoke] calls the function
    with the zero values of its parameter types and makes no other
    call, returns what the function returns, and leaves the instance
    map of the scope empty, whatever the function stored there. *)
Theorem Invoke_without_providers_passes_zero_values rt scope ins body w :
  (∀ t, provideDynamic rt t = None) →
  (∀ k, barren scope k) →
  (∀ k, uncached scope k (store w)) →
  Forall (λ t, noEntries (zeroValue rt t) = true ∧ typeOf (zeroValue rt t) = t) ins →
  ∃ w',
    Invoke rt scope (Func_ ins body) w
      = (Done (Some (body (zeroValue rt <$> ins) (store w)).1, None), w') ∧
    calls w' = calls w ++ [EvCall (zeroValue rt <$> ins)] ∧
    inst (store w') (sid scope) = ∅.
Proof.
  intros Hrt Hbarren Hempty Hins. unfold Invoke, mbind, M_bind, bind.
  rewrite Invoke_args_barren; try done.
  2: { eapply Forall_impl; [exact Hins|]. by intros t [? _]. }
  unfold Call.
  assert (forallb (λ p : Value * rtype, bool_decide (is_Some (assignTo rt p.1 p.2)))
            (zip (zeroValue rt <$> ins) ins) = true) as ->.
  { clear -Hins. induction Hins as [|t rest [_ Ht] Hrest IH]; [done|].
    rewrite fmap_cons. simpl. apply andb_true_intro. split; [|exact IH].
    apply bool_decide_eq_true_2.
    unfold assignTo. rewrite decide_True by done. by eexists. }
  unfold call. destruct (body (zeroValue rt <$> ins) (store w)) as [results st2] eqn:Ebody.
  rewrite Invoke_after_barren by done.
  destruct (FreeOnce_linkless rt scope
              {| store := st2; calls := calls w ++ [EvCall (zeroValue rt <$> ins)] |}
              (λ k, barren_getLink scope k (Hbarren k)))
    as (w' & -> & Hc & Hi).
  by exists w'.
Qed.

Lemma Invoke_without_providers_witness :
  ∃ w',
    Invoke Demo.rt Demo.child (Demo.identity [Demo.Config; PointerTo Demo.Port]) Demo.w0
      = (Done (Some [Demo.config "" 0; VPointer Demo.Port None], None), w') ∧
    calls w' = [EvCall [Demo.config "" 0; VPointer Demo.Port None]] ∧
    inst (store w') (sid Demo.child) = ∅.
Proof.
  apply (Invoke_without_providers_passes_zero_values Demo.rt Demo.child
           [Demo.Config; PointerTo Demo.Port] (λ args st, (args, st)) Demo.w0).
  - reflexivity.
  - exact barren_child.
  - exact uncached_child_w0.
  - repeat constructor.
Defined.

(** ** Shared instances, failed creation and registration *)

Lemma linkOwner_getLink scope k o :
  linkOwner scope k = Some o → getLink scope k = providers o !! k ∧ is_Some (providers o !! k).
Proof.
  revert scope. refine (Scope_chain_ind _ _ _).
  - intros s Hroot. destruct s as [id dyn par provs]; simpl in *. subst par.
    destruct (provs !! k) as [l|] eqn:El; [|done]. intros [= <-]. simpl. by rewrite El.
  - intros s p Hp IH. destruct s as [id dyn par provs]; simpl in *. subst par.
    destruct (provs !! k) as [l|] eqn:El; [|exact IH]. intros [= <-]. simpl. by rewrite El.
Qed.

Lemma shared_cachedAbove k o created st st1 :
  inst st1 (sid o) !! k = Some created →
  (∀ x, x ≠ sid o → inst st1 x = inst st x) →
  ∀ scope, linkOwner scope k = Some o → uncached scope k st →
           cachedAbove scope k created st1.
Proof.
  intros Ho Hframe. refine (Scope_chain_ind _ _ _).
  - intros s Hroot Hown Hu. destruct (decide (sid s = sid o)) as [Heq|Hne].
    { destruct s; simpl in *. left. by rewrite Heq. }
    exfalso. destruct s as [id dyn par provs]; simpl in *. subst par.
    destruct (provs !! k); [|done]. injection Hown as <-. done.
  - intros s p Hp IH Hown Hu. destruct (decide (sid s = sid o)) as [Heq|Hne].
    { destruct s; simpl in *. left. by rewrite Heq. }
    pose proof (uncached_here _ _ _ Hu) as Hc.
    pose proof (uncached_parent _ _ _ _ Hp Hu) as Hup.
    destruct s as [id dyn par provs]; simpl in *. subst par.
    destruct (provs !! k) eqn:El; [injection Hown as <-; done|].
    right. rewrite (Hframe id Hne). split; [done|]. split; [done|]. by apply IH.
Qed.

(** X19: an instance of a provider whose lifetime is not [Scope] is
    shared: once a [Get] from one descendant of the scope that owns the
    provider has created it, [Get] and [GetScoped] from any other
    descendant return that same pointer, call nothing and change
    nothing, provided [Create] left the instance maps alone. *)
Theorem created_instance_is_shared
    (rt : Runtime) (k : rtype) (l : link) (o : Scope)
    (create : positive → Store → (ptr * option error) * Store)
    (created : ptr) (st' : Store) (w : World) (scope other : Scope) :
  keyed scope →
  linkOwner scope k = Some o →
  getLink scope k = Some l →
  lifetime l ≠ LifetimeScope →
  uncached scope k (store w) →
  Create (provider l) = Some create →
  create (sid o) (store w) = ((created, None), st') →
  instances st' = instances (store w) →
  linkOwner other k = Some o →
  uncached other k (store w) →
  ∃ w1,
    Get rt scope k w = (Done (Some (VPointer k created), None), w1) ∧
    calls w1 = calls w ++ [EvCreate (sid o) k] ∧
    Get rt other k w1 = (Done (Some (VPointer k created), None), w1) ∧
    GetScoped rt k other w1 = (Done (created, None), w1).
Proof.
  intros Hkeyed Ho Hl Hlife Hu Hcreate Hrun Hinst Ho' Hu'.
  eexists. split; [by eapply Get_creates_on_owner|]. split; [done|].
  assert (cachedAbove other k created (setInstance (sid o) k created st')) as Hc.
  { apply (shared_cachedAbove k o created (store w)); try done.
    - rewrite inst_setInstance, decide_True by done. apply lookup_insert_eq.
    - intros x Hx. rewrite inst_setInstance, decide_False by done.
      unfold inst. by rewrite Hinst. }
  destruct (cachedAbove_resolves rt k created other
              {| store := setInstance (sid o) k created st';
                 calls := calls w ++ [EvCreate (sid o) k] |} Hc) as [HGS HG].
  split; [|done]. apply HG. intros deep Hdeep.
  destruct (linkOwner_getLink _ _ _ Ho) as [E1 _].
  destruct (linkOwner_getLink _ _ _ Ho') as [E2 _].
  rewrite E2, <-E1, Hl in Hdeep. by injection Hdeep as <-.
Qed.

Lemma created_instance_witness :
  ∃ w1,
    Get Demo.rt More.foreverChild Demo.Port Demo.w0
      = (Done (Some (VPointer Demo.Port (Some 1%positive)), None), w1) ∧
    calls w1 = calls Demo.w0 ++ [EvCreate (sid More.foreverGlobal) Demo.Port] ∧
    Get Demo.rt More.foreverSibling Demo.Port w1
      = (Done (Some (VPointer Demo.Port (Some 1%positive)), None), w1) ∧
    GetScoped Demo.rt Demo.Port More.foreverSibling w1 = (Done (Some 1%positive, None), w1).
Proof.
  apply (created_instance_is_shared Demo.rt Demo.Port
           {| provider := Demo.portProvider LifetimeForever; key := Demo.Port |}
           More.foreverGlobal Demo.createPort (Some 1%positive)
           (alloc (VBasic Demo.Port (AInt 8080)) (store Demo.w0)).2
           Demo.w0 More.foreverChild More.foreverSibling).
  - apply keyed_new, keyed_ProvideScoped, keyed_global.
  - reflexivity.
  - reflexivity.
  - discriminate.
  - repeat split.
  - reflexivity.
  - reflexivity.
  - reflexivity.
  - reflexivity.
  - repeat split.
Defined.

(** X20: a [Create] that fails is reported and nothing is cached: from
    any descendant of the owner of the provider, [GetScoped] returns
    nil with the error of [Create], and so does [Get], with the value
    [Create] returned, when the lifetime is not [Scope]; the store is
    exactly what [Create] left.  The error must not be [ErrNoProvider],
    which a descendant takes for the absence of a provider. *)
Theorem failed_Create_is_not_cached
    (rt : Runtime) (k : rtype) (l : link) (o : Scope)
    (create : positive → Store → (ptr * option error) * Store)
    (created : ptr) (e : error) (st' : Store) (w : World) (scope : Scope) :
  keyed scope →
  linkOwner scope k = Some o →
  getLink scope k = Some l →
  uncached scope k (store w) →
  Create (provider l) = Some create →
  create (sid o) (store w) = ((created, Some e), st') →
  e ≠ ErrNoProvider →
  GetScoped rt k scope w =
    (Done (None, Some e), {| store := st'; calls := calls w ++ [EvCreate (sid o) k] |}) ∧
  (lifetime l ≠ LifetimeScope →
   Get rt scope k w =
     (Done (Some (VPointer k created), Some e),
      {| store := st'; calls := calls w ++ [EvCreate (sid o) k] |})).
Proof.
  intros Hkeyed Ho Hl Hu Hcreate Hrun He.
  revert scope Hkeyed Ho Hl Hu.
  assert (∀ s, keyed s → providers s !! k = Some l → s = o →
               inst (store w) (sid s) !! k = None →
               GetScoped rt k s w =
                 (Done (None, Some e),
                  {| store := st'; calls := calls w ++ [EvCreate (sid o) k] |}) ∧
               (lifetime l ≠ LifetimeScope →
                Get rt s k w =
                  (Done (Some (VPointer k created), Some e),
                   {| store := st'; calls := calls w ++ [EvCreate (sid o) k] |}))) as Hlocal.
  { intros s Hkeyed Hs -> Hc.
    assert (key l = k) as Hk.
    { destruct o; simpl in *. by apply (proj1 Hkeyed). }
    split.
    - destruct o as [id dyn par provs]; simpl in *.
      rewrite Hc, Hs, Hcreate. unfold mbind, M_bind, bind, call. by rewrite Hrun.
    - intros Hlife. rewrite Get_rest; [|done|].
      2: { intros deep. destruct o; simpl in *. rewrite Hs. by intros [= <-]. }
      destruct o as [id dyn par provs]; simpl in *. rewrite Hs.
      unfold link_get. simpl. rewrite Hk, Hc, Hcreate.
      unfold mbind, M_bind, bind, call. by rewrite Hrun. }
  refine (Scope_chain_ind _ _ _).
  - intros s Hroot Hkeyed Ho Hl Hu. pose proof (uncached_here _ _ _ Hu) as Hc.
    apply Hlocal; [done| | |done]; destruct s as [id dyn par provs]; simpl in *; subst par;
      destruct (provs !! k) as [l'|] eqn:El; congruence.
  - intros s p Hp IH Hkeyed Ho Hl Hu. pose proof (uncached_here _ _ _ Hu) as Hc.
    pose proof (uncached_parent _ _ _ _ Hp Hu) as Hup.
    destruct (providers s !! k) as [l'|] eqn:El.
    + apply Hlocal; [done| |by destruct s; simpl in *; rewrite El in Ho; injection Ho|done].
      destruct s; simpl in *. rewrite El in Hl. congruence.
    + assert (keyed p) as Hkp.
      { destruct s; simpl in *. subst. by destruct Hkeyed. }
      assert (linkOwner p k = Some o ∧ getLink p k = Some l) as [Ho' Hl'].
      { destruct s; simpl in *. subst. by rewrite El in *. }
      destruct (IH Hkp Ho' Hl' Hup) as [IHs IHg]. split.
      * destruct s as [id dyn par provs]; simpl in *. subst par.
        rewrite Hc, El, IHs. simpl. by destruct e.
      * intros Hlife. rewrite Get_rest; [|done|].
        2: { intros deep. rewrite Hl. by intros [= <-]. }
        destruct s as [id dyn par provs]; simpl in *. subst par.
        rewrite El, (IHg Hlife). simpl. by destruct e.
Qed.

Lemma failed_Create_witness :
  GetScoped Demo.rt Demo.Port More.failingChild Demo.w0 =
    (Done (None, Some (UserError "no port")),
     {| store := store Demo.w0; calls := calls Demo.w0 ++ [EvCreate 1 Demo.Port] |}) ∧
  (lifetime {| provider := {| Lifetime_ := LifetimeForever;
                              Create := Some (Demo.failing "no port");
                              AfterPointerUse := None; Free := None |};
               key := Demo.Port |} ≠ LifetimeScope →
   Get Demo.rt More.failingChild Demo.Port Demo.w0 =
     (Done (Some (VPointer Demo.Port None), Some (UserError "no port")),
      {| store := store Demo.w0; calls := calls Demo.w0 ++ [EvCreate 1 Demo.Port] |})).
Proof.
  apply (failed_Create_is_not_cached Demo.rt Demo.Port _ More.failingGlobal
           (Demo.failing "no port") None (UserError "no port") (store Demo.w0)
           Demo.w0 More.failingChild).
  - apply keyed_new, keyed_ProvideScoped, keyed_global.
  - reflexivity.
  - reflexivity.
  - repeat split.
  - reflexivity.
  - reflexivity.
  - discriminate.
Defined.

(** X21: registration shadows and is inherited: after [ProvideScoped]
    the scope's link for the key is the new provider, whatever was
    registered there or on an ancestor before; the links of the other
    keys are unchanged; and a scope that [Spawn] returns has no
    provider of its own, its parent is the scope it was spawned from,
    and it sees every link of that scope. *)
Theorem registration_shadows_and_is_inherited (scope : Scope) (k : rtype) (p : Provider) :
  getLink (ProvideScoped scope k p) k = Some {| provider := p; key := k |} ∧
  (∀ k', k' ≠ k → getLink (ProvideScoped scope k p) k' = getLink scope k') ∧
  (∀ id k', Parent (Spawn id scope) = Some scope ∧
            providers (Spawn id scope) !! k' = None ∧
            getLink (Spawn id scope) k' = getLink scope k') ∧
  (∀ id p', getLink (ProvideScoped (Spawn id (ProvideScoped scope k p)) k p') k
            = Some {| provider := p'; key := k |}).
Proof.
  split; [|split; [|split]].
  - destruct scope; simpl. by rewrite lookup_insert_eq.
  - intros k' Hne. destruct scope; simpl. by rewrite lookup_insert_ne.
  - intros id k'. simpl. by rewrite lookup_empty.
  - intros id p'. simpl. by rewrite lookup_insert_eq.
Qed.

Lemma registration_witness :
  getLink (ProvideScoped Demo.dbGlobal Demo.Port (Demo.portProvider LifetimeOnce)) Demo.Port
    = Some {| provider := Demo.portProvider LifetimeOnce; key := Demo.Port |} ∧
  (∀ k', k' ≠ Demo.Port →
     getLink (ProvideScoped Demo.dbGlobal Demo.Port (Demo.portProvider LifetimeOnce)) k'
     = getLink Demo.dbGlobal k') ∧
  (∀ id k', Parent (Spawn id Demo.dbGlobal) = Some Demo.dbGlobal ∧
            providers (Spawn id Demo.dbGlobal) !! k' = None ∧
            getLink (Spawn id Demo.dbGlobal) k' = getLink Demo.dbGlobal k') ∧
  (∀ id p',
     getLink (ProvideScoped
                (Spawn id (ProvideScoped Demo.dbGlobal Demo.Port
                             (Demo.portProvider LifetimeOnce)))
                Demo.Port p') Demo.Port
     = Some {| provider := p'; key := Demo.Port |}).
Proof.
  exact (registration_shadows_and_is_inherited Demo.dbGlobal Demo.Port
           (Demo.portProvider LifetimeOnce)).
Defined.

Lemma Get_cached rt scope k p w :
  inst (store w) (sid scope) !! k = Some p →
  Get rt scope k w = (Done (Some (VPointer k p), None), w).
Proof. intros Hc. destruct scope; simpl in *. by rewrite Hc. Qed.

(** X22: what [Scope.Set] is given by value is what hydration fills in:
    [Set] stores a copy of the value in a fresh cell, [Get] for the
    value's type then returns the pointer to that cell, and hydrating
    on that scope a slot of that type that can be set stores the value
    there, whatever the slot held.  No call is made. *)
Theorem Set_then_hydrate_round_trip rt scope v inner w :
  (∀ elem target, v ≠ VPointer elem target) →
  typeOf inner = typeOf v →
  ∃ a w1,
    Scope_Set scope (Some v) w = (Done None, w1) ∧
    calls w1 = calls w ∧
    heap (store w) !! a = None ∧
    heap (store w1) !! a = Some v ∧
    Get rt scope (typeOf v) w1 = (Done (Some (VPointer (typeOf v) (Some a)), None), w1) ∧
    hydrateValue rt scope ReadWrite inner w1 = (Done (v, None), w1).
Proof.
  intros Hv Ht.
  set (w1 := {| store := setInstance (sid scope) (typeOf v) (Some (alloc v (store w)).1)
                           (alloc v (store w)).2;
                calls := calls w |}).
  exists (alloc v (store w)).1, w1.
  assert (inst (store w1) (sid scope) !! typeOf v = Some (Some (alloc v (store w)).1)) as Hc.
  { simpl. rewrite inst_setInstance, decide_True by done. apply lookup_insert_eq. }
  split; [|split; [done|split; [apply alloc_fresh|split; [apply alloc_lookup|split]]]].
  - destruct v; try done. by destruct (Hv elem target).
  - by apply Get_cached.
  - rewrite hydrateValue_unfold, Ht, (Get_cached _ _ _ _ _ Hc). simpl.
    unfold mbind, M_bind, bind, setFrom.
    change (fresh (dom (heap (store w)))) with (alloc v (store w)).1.
    rewrite alloc_lookup. unfold assignTo. by rewrite decide_True.
Qed.

Lemma Set_then_hydrate_witness :
  ∃ a w1,
    Scope_Set Demo.child (Some (VBasic Demo.Port (AInt 8080))) Demo.w0 = (Done None, w1) ∧
    calls w1 = calls Demo.w0 ∧
    heap (store Demo.w0) !! a = None ∧
    heap (store w1) !! a = Some (VBasic Demo.Port (AInt 8080)) ∧
    Get Demo.rt Demo.child (typeOf (VBasic Demo.Port (AInt 8080))) w1
      = (Done (Some (VPointer (typeOf (VBasic Demo.Port (AInt 8080))) (Some a)), None), w1) ∧
    hydrateValue Demo.rt Demo.child ReadWrite (VBasic Demo.Port (AInt 0)) w1
      = (Done (VBasic Demo.Port (AInt 8080), None), w1).
Proof.
  apply (Set_then_hydrate_round_trip Demo.rt Demo.child (VBasic Demo.Port (AInt 8080))
           (VBasic Demo.Port (AInt 0)) Demo.w0).
  - discriminate.
  - reflexivity.
Defined.

(** ** The message of an aggregate, notifications, and nil instances *)

Lemma string_app_assoc (s1 s2 s3 : string) :
  String.app (String.app s1 s2) s3 = String.app s1 (String.app s2 s3).
Proof.
  induction s1 as [|c s1 IH]; [done|].
  change (String c (String.app (String.app s1 s2) s3)
          = String c (String.app s1 (String.app s2 s3))).
  by rewrite IH.
Qed.

Lemma string_app_nil_r (s : string) : String.app s EmptyString = s.
Proof.
  induction s as [|c s IH]; [done|].
  change (String c (String.app s EmptyString) = String c s). by rewrite IH.
Qed.

Lemma join_contains sep (l : list string) s :
  s ∈ l → ∃ pre post, join sep l = String.app pre (String.app s post).
Proof.
  induction l as [|x rest IH]; [by intros ?%elem_of_nil|].
  intros [->|Hin]%elem_of_cons.
  - exists EmptyString. destruct rest as [|y rest'].
    + exists EmptyString. simpl. by rewrite string_app_nil_r.
    + by exists (String.app sep (join sep (y :: rest'))).
  - destruct (IH Hin) as (pre & post & E). destruct rest as [|y rest'].
    { by apply elem_of_nil in Hin. }
    exists (String.app x (String.app sep pre)), post.
    change (join sep (x :: y :: rest'))
      with (String.app x (String.app sep (join sep (y :: rest')))).
    by rewrite E, !string_app_assoc.
Qed.

(** X23: the message of a [multiError] holds the message of each error
    it collects: that of a single error is passed through unchanged,
    and the message of every member is a part of the aggregate's. *)
Theorem multiError_message_holds_each_message (es : list error) (e : error) :
  e ∈ es →
  (es = [e] → Error (multiError es) = Error e) ∧
  ∃ pre post, Error (multiError es) = String.app pre (String.app (Error e) post).
Proof.
  intros Hin. split; [by intros ->|].
  destruct es as [|e0 [|e1 rest]].
  - by apply elem_of_nil in Hin.
  - apply elem_of_cons in Hin as [->|Hin]; [|by apply elem_of_nil in Hin].
    exists EmptyString, EmptyString. simpl. by rewrite string_app_nil_r.
  - destruct (join_contains ", " (map Error (e0 :: e1 :: rest)) (Error e))
      as (pre & post & E).
    { apply (list_elem_of_fmap_2 Error) in Hin. exact Hin. }
    exists (String.app "multiple errors: " pre), post.
    change (Error (multiError (e0 :: e1 :: rest)))
      with (String.app "multiple errors: " (join ", " (map Error (e0 :: e1 :: rest)))).
    by rewrite E, string_app_assoc.
Qed.

Lemma multiError_message_witness :
  ([UserError "a"; ErrNotFunc] = [ErrNotFunc] →
   Error (multiError [UserError "a"; ErrNotFunc]) = Error ErrNotFunc) ∧
  ∃ pre post, Error (multiError [UserError "a"; ErrNotFunc])
              = String.app pre (String.app (Error ErrNotFunc) post).
Proof.
  apply (multiError_message_holds_each_message [UserError "a"; ErrNotFunc] ErrNotFunc).
  apply elem_of_cons. right. apply elem_of_cons. by left.
Defined.

(** X24: [Scope.Invoke] notifies only the providers registered on the
    invoking scope itself: when no argument is a pointer to a type with
    a provider there, its second loop calls nothing and changes
    nothing, even when a provider on an ancestor supplied the argument
    and has an [AfterPointerUse]. *)
Theorem only_local_providers_are_notified (scope : Scope) (args : list Value) (w : World) :
  Forall (λ arg, ∀ k target, arg = VPointer k target → providers scope !! k = None) args →
  Invoke_after scope args w = (Done None, w).
Proof.
  induction 1 as [|arg rest Harg Hrest IH]; [done|]. simpl.
  destruct arg as [| k target| | | | |]; try exact IH.
  by rewrite (Harg k target eq_refl).
Qed.

Lemma only_local_providers_witness :
  Invoke_after More.foreverChild [VPointer Demo.Port (Some 1%positive)] Demo.w0
  = (Done None, Demo.w0).
Proof.
  apply (only_local_providers_are_notified More.foreverChild
           [VPointer Demo.Port (Some 1%positive)] Demo.w0).
  constructor; [|constructor]. intros k target _. reflexivity.
Defined.

(** X25: a nil pointer cached for a type is handed out as it is by
    [Get] and by [hydrateType] for the pointer type, without error, but
    makes the hydration of a slot of that type that can be set panic;
    so does an [Invoke] of a function that takes the type by value. *)
Theorem nil_instance_panics_by_value rt scope k inner w :
  inst (store w) (sid scope) !! k = Some None →
  typeOf inner = k →
  typeOf (zeroValue rt k) = k →
  Get rt scope k w = (Done (Some (VPointer k None), None), w) ∧
  hydrateType rt scope (PointerTo k) w = (Done (Some (VPointer k None), None), w) ∧
  hydrateValue rt scope ReadWrite inner w = (Crash, w) ∧
  (∀ id rest body, k = Named id →
     Invoke rt scope (Func_ (k :: rest) body) w = (Crash, w)).
Proof.
  intros Hc Ht Hz.
  pose proof (Get_cached rt scope k None w Hc) as HGet.
  assert (∀ v, typeOf v = k → hydrateValue rt scope ReadWrite v w = (Crash, w)) as Hpanic.
  { intros v Hv. by rewrite hydrateValue_unfold, Hv, HGet. }
  split; [done|]. split; [|split].
  - unfold hydrateType, mbind, M_bind, bind. by rewrite HGet.
  - by apply Hpanic.
  - intros id rest body ->. unfold Invoke, mbind, M_bind, bind. simpl.
    unfold hydrateType, mbind, M_bind, bind. by rewrite (Hpanic _ Hz).
Qed.

Lemma nil_instance_witness :
  Get Demo.rt Demo.child Demo.Port (SetScoped Demo.child Demo.Port None Demo.w0).2
    = (Done (Some (VPointer Demo.Port None), None),
       (SetScoped Demo.child Demo.Port None Demo.w0).2) ∧
  hydrateType Demo.rt Demo.child (PointerTo Demo.Port)
    (SetScoped Demo.child Demo.Port None Demo.w0).2
    = (Done (Some (VPointer Demo.Port None), None),
       (SetScoped Demo.child Demo.Port None Demo.w0).2) ∧
  hydrateValue Demo.rt Demo.child ReadWrite (VBasic Demo.Port (AInt 0))
    (SetScoped Demo.child Demo.Port None Demo.w0).2
    = (Crash, (SetScoped Demo.child Demo.Port None Demo.w0).2) ∧
  (∀ id rest body, Demo.Port = Named id →
     Invoke Demo.rt Demo.child (Func_ (Demo.Port :: rest) body)
       (SetScoped Demo.child Demo.Port None Demo.w0).2
     = (Crash, (SetScoped Demo.child Demo.Port None Demo.w0).2)).
Proof.
  apply (nil_instance_panics_by_value Demo.rt Demo.child Demo.Port
           (VBasic Demo.Port (AInt 0)) (SetScoped Demo.child Demo.Port None Demo.w0).2);
    reflexivity.
Defined.

(** ** [Hydrate] *)

Lemma Hydrate_emits rt scope value : emits isResolutionCall (Hydrate rt scope value).
Proof.
  unfold Hydrate. destruct value as [[| elem [a|]| | | | |]|]; try apply emits_ret.
  - intros w. destruct (heap (store w) !! a) as [inner|]; [|apply (@emits_panic (option error))].
    apply emits_bind; [apply hydrateValue_emits|]. intros [inner' err].
    apply emits_bind; [apply emits_update | intros; apply emits_ret].
  - apply (emits_bind _ (λ w, Get rt scope elem w)); [apply Get_emits|].
    intros [val err]. destruct (negb (isNoProvider err)); apply emits_ret.
Qed.

(** X26: [Scope.Hydrate] only resolves: every call it makes is a call
    of a [Create], of a [ProvideDynamic] or of a [Dynamic] callback,
    never of a [Free] or of an [AfterPointerUse]; the error it returns
    is never [ErrNoProvider]; and the cell it was given holds
    afterwards a value of the type it held before. *)
Theorem Hydrate_only_resolves rt scope value w err w' :
  Hydrate rt scope value w = (Done err, w') →
  (∃ evs, calls w' = calls w ++ evs ∧ Forall (λ ev, isResolutionCall ev = true) evs) ∧
  err ≠ Some ErrNoProvider ∧
  ∀ elem a inner,
    value = Some (VPointer elem (Some a)) → heap (store w) !! a = Some inner →
    ∃ inner', heap (store w') !! a = Some inner' ∧ typeOf inner' = typeOf inner.
Proof.
  intros Hrun. split; [by apply (emits_at _ _ _ _ _ (Hydrate_emits rt scope value) Hrun)|].
  unfold Hydrate in Hrun. destruct value as [[| elem [a|]| | | | |]|];
    try (injection Hrun as <- <-; split; [done|]; by intros ? ? ? [=]).
  - destruct (heap (store w) !! a) as [inner|] eqn:Ea; [|done].
    unfold mbind, M_bind, bind in Hrun.
    destruct (hydrateValue rt scope ReadWrite inner w) as [[[inner' err']|] w1] eqn:Eh; [|done].
    simpl in Hrun. injection Hrun as <- <-. split.
    + destruct err' as [e|]; [|done]. intros [= ->].
      by apply (hydrateValue_never_NoProvider _ _ _ _ _ _ _ _ Eh).
    + intros elem' a' inner0 [= <- <-] Hin. rewrite Ea in Hin. injection Hin as <-.
      exists inner'. simpl.
      split; [apply lookup_insert_eq | by eapply hydrateValue_typeOf].
  - unfold mbind, M_bind, bind in Hrun.
    destruct (Get rt scope elem w) as [[[val err']|] w1]; [|done].
    split; [|by intros ? ? ? [=]].
    destruct err' as [[]|]; simpl in Hrun; by injection Hrun as <- <-.
Qed.

Lemma Hydrate_only_resolves_witness :
  (∃ evs, [EvCreate 2 Demo.Port] = calls Demo.wCell ++ evs ∧
          Forall (λ ev, isResolutionCall ev = true) evs) ∧
  (None : option error) ≠ Some ErrNoProvider ∧
  ∀ elem a inner,
    Some (VPointer Demo.Port (Some 9%positive)) = Some (VPointer elem (Some a)) →
    heap (store Demo.wCell) !! a = Some inner →
    ∃ inner',
      heap (store (Hydrate Demo.rt Demo.onceChild
                     (Some (VPointer Demo.Port (Some 9%positive))) Demo.wCell).2) !! a
        = Some inner' ∧
      typeOf inner' = typeOf inner.
Proof.
  apply (Hydrate_only_resolves Demo.rt Demo.onceChild
           (Some (VPointer Demo.Port (Some 9%positive))) Demo.wCell None
           (Hydrate Demo.rt Demo.onceChild
              (Some (VPointer Demo.Port (Some 9%positive))) Demo.wCell).2).
  vm_compute. reflexivity.
Defined.

